(** * object_database.message_bus: frame codec and bus state machine

    A shallow embedding of [object_database/message_bus.py]:
    the [MessageBuffer] frame codec, the connection registry of
    [MessageBus], its send queue, its timed callbacks and its event queue.

    Python values are modelled as follows.
    - [bytes] / [bytearray]: [list byte];
    - Python [int]: [Z] (unbounded);
    - [str]: a list of Unicode code points ([list Z]);
    - [dict] / [set]: stdpp's [gmap] / [gset];
    - exceptions: explicit result types;
    - the mutable object [self]: explicit state passing. *)

From Stdlib Require Import ZArith Lia Bool Sorted.
From Stdlib Require Import Strings.Byte.
From stdpp Require Import base numbers option list strings gmap.

Local Open Scope Z_scope.

(** ** Bytes *)

Abbreviation bytes := (list byte).

Definition Z_of_byte (b : byte) : Z := Z.of_N (Byte.to_N b).

Definition byte_of_Z (z : Z) : byte :=
  match Byte.of_N (Z.to_N (z mod 256)) with
  | Some b => b
  | None => x00
  end.

(** ** Python slices

    [slice_index] is the index adjustment CPython applies to the bounds of
    a slice with step 1 over a sequence of length [len]: a negative bound
    counts from the end, and every bound is clamped to [0, len]. *)

Definition slice_index (len i : Z) : Z :=
  if i <? 0 then Z.max 0 (i + len) else Z.min i len.

(** [l[start:stop]] *)
Definition py_slice {A} (l : list A) (start stop : Z) : list A :=
  let len := Z.of_nat (length l) in
  let a := slice_index len start in
  let b := slice_index len stop in
  take (Z.to_nat (b - a)) (drop (Z.to_nat a) l).

(** [l[:stop]] *)
Definition py_slice_to {A} (l : list A) (stop : Z) : list A :=
  py_slice l 0 stop.

(** [l[:stop] = b""] : the prefix is deleted in place. *)
Definition py_del_slice_to {A} (l : list A) (stop : Z) : list A :=
  drop (Z.to_nat (slice_index (Z.of_nat (length l)) stop)) l.

(** ** struct.pack("i", n) / struct.unpack("i", b)

    A native 4-byte signed integer, least significant byte first.
    [pack_i] raises [struct.error] (here [None]) outside the int32 range,
    [unpack_i] raises it when the buffer is not exactly 4 bytes long. *)

Definition MESSAGE_LEN_BYTES : Z := 4.

Definition pack_i (n : Z) : option bytes :=
  if (- 2 ^ 31 <=? n) && (n <? 2 ^ 31) then
    let u := n mod 2 ^ 32 in
    Some [ byte_of_Z u; byte_of_Z (u / 2 ^ 8);
           byte_of_Z (u / 2 ^ 16); byte_of_Z (u / 2 ^ 24) ]
  else None.

Definition unpack_i (b : bytes) : option Z :=
  match b with
  | [b0; b1; b2; b3] =>
      let u := Z_of_byte b0 + 2 ^ 8 * Z_of_byte b1
               + 2 ^ 16 * Z_of_byte b2 + 2 ^ 24 * Z_of_byte b3 in
      Some (if u <? 2 ^ 31 then u else u - 2 ^ 32)
  | _ => None
  end.

(** ** MessageBuffer *)

Module MessageBuffer.

Record t := mk {
  buffer : bytes;
  messagesEver : Z;
  extraMessageSizeCheck : bool;
  curMessageLen : option Z
}.

(** [MessageBuffer.__init__] *)
Definition init (extraMessageSizeCheck : bool) : t :=
  {| buffer := [];
     messagesEver := 0;
     extraMessageSizeCheck := extraMessageSizeCheck;
     curMessageLen := None |}.

Definition pendingBytecount (self : t) : Z := Z.of_nat (length (buffer self)).

(** [MessageBuffer.encode]; [None] is the [struct.error] of a length that
    does not fit an int32. *)
Definition encode (b : bytes) (extraMessageSizeCheck : bool) : option bytes :=
  match pack_i (Z.of_nat (length b)) with
  | None => None
  | Some prefix =>
      let res := prefix ++ b in
      if extraMessageSizeCheck then Some (res ++ prefix) else Some res
  end.

Inductive exn :=
  | CorruptMessageStream (sizeCheck msgLen : Z)
  | StructError.

(** Outcome of one pass through the body of the [while True] loop of
    [write]: the loop goes round again, the function returns the messages,
    or an exception leaves the function (and the list [messages] is lost
    with its frame). In each case the buffer object carries the mutations
    made so far. *)
Inductive iter :=
  | Continue (self : t) (messages : list bytes)
  | Return (self : t) (messages : list bytes)
  | Raise (self : t) (e : exn).

Definition set_buffer (self : t) (b : bytes) : t :=
  {| buffer := b; messagesEver := messagesEver self;
     extraMessageSizeCheck := extraMessageSizeCheck self;
     curMessageLen := curMessageLen self |}.

Definition set_curMessageLen (self : t) (c : option Z) : t :=
  {| buffer := buffer self; messagesEver := messagesEver self;
     extraMessageSizeCheck := extraMessageSizeCheck self;
     curMessageLen := c |}.

Definition incr_messagesEver (self : t) : t :=
  {| buffer := buffer self; messagesEver := messagesEver self + 1;
     extraMessageSizeCheck := extraMessageSizeCheck self;
     curMessageLen := curMessageLen self |}.

(** Lines 95-98: read the length prefix when none is pending. *)
Definition read_prefix (self : t) : t + exn :=
  match curMessageLen self with
  | None =>
      if Z.of_nat (length (buffer self)) >=? MESSAGE_LEN_BYTES then
        match unpack_i (py_slice_to (buffer self) MESSAGE_LEN_BYTES) with
        | Some n =>
            inl (set_buffer (set_curMessageLen self (Some n))
                   (py_del_slice_to (buffer self) MESSAGE_LEN_BYTES))
        | None => inr StructError
        end
      else inl self
  | Some _ => inl self
  end.

(** Lines 100-126: hand out the pending message once the buffer holds it. *)
Definition take_message (self : t) (messages : list bytes) : iter :=
  match curMessageLen self with
  | None => Return self messages
  | Some msgLen =>
    let len := Z.of_nat (length (buffer self)) in
    if extraMessageSizeCheck self then
      if len >=? msgLen + MESSAGE_LEN_BYTES then
        let messages := messages ++ [py_slice_to (buffer self) msgLen] in
        let self := incr_messagesEver self in
        let sizeCheckBytes :=
          py_slice (buffer self) msgLen (msgLen + MESSAGE_LEN_BYTES) in
        match unpack_i sizeCheckBytes with
        | None => Raise self StructError
        | Some sizeCheck =>
            let self :=
              set_buffer self
                (py_del_slice_to (buffer self) (msgLen + MESSAGE_LEN_BYTES)) in
            let self := set_curMessageLen self None in
            if negb (sizeCheck =? msgLen)
            then Raise self (CorruptMessageStream sizeCheck msgLen)
            else Continue self messages
        end
      else Return self messages
    else
      if len >=? msgLen then
        let messages := messages ++ [py_slice_to (buffer self) msgLen] in
        let self := incr_messagesEver self in
        let self := set_buffer self (py_del_slice_to (buffer self) msgLen) in
        let self := set_curMessageLen self None in
        Continue self messages
      else Return self messages
  end.

(** Lines 95-126: the loop body. *)
Definition write_iter (self : t) (messages : list bytes) : iter :=
  match read_prefix self with
  | inr e => Raise self e
  | inl self => take_message self messages
  end.

(** What a call leaves behind: the list returned, or the exception raised. *)
Inductive result :=
  | Returned (messages : list bytes)
  | Raised (e : exn).

(** The [while True] loop; [None] only when the fuel runs out, which
    [write_total] below shows never happens for the fuel [write] gives. *)
Fixpoint write_loop (fuel : nat) (self : t) (messages : list bytes)
  : option (t * result) :=
  match fuel with
  | O => None
  | S fuel =>
      match write_iter self messages with
      | Continue self messages => write_loop fuel self messages
      | Return self messages => Some (self, Returned messages)
      | Raise self e => Some (self, Raised e)
      end
  end.

(** [MessageBuffer.write] *)
Definition write (self : t) (bytesToWrite : bytes) : option (t * result) :=
  let self := set_buffer self (buffer self ++ bytesToWrite) in
  write_loop (S (S (length (buffer self)))) self [].

(** Successive [write] calls on one buffer, as the socket loop makes them:
    the messages of all calls in order; the first exception ends it. *)
Fixpoint feed (self : t) (chunks : list bytes) : option (t * result) :=
  match chunks with
  | [] => Some (self, Returned [])
  | c :: chunks =>
      match write self c with
      | Some (self, Returned ms) =>
          match feed self chunks with
          | Some (self, Returned ms') => Some (self, Returned (ms ++ ms'))
          | r => r
          end
      | r => r
      end
  end.

(** The bytes a sender puts on the wire for successive payloads: what
    [_scheduleBytesForWrite] appends to a socket's write buffer, one
    [encode] per message. *)
Fixpoint encode_all (ps : list bytes) (extraMessageSizeCheck : bool)
  : option bytes :=
  match ps with
  | [] => Some []
  | p :: ps =>
      match encode p extraMessageSizeCheck,
            encode_all ps extraMessageSizeCheck with
      | Some f, Some fs => Some (f ++ fs)
      | _, _ => None
      end
  end.

(** *** Devices of the proofs below *)

(** The loop of [write] makes progress: a pass that goes round again has
    dropped the pending length, and four bytes when it had to read it. *)
Definition measure (self : t) : nat :=
  (length (buffer self)
   + match curMessageLen self with Some _ => 1 | None => 0 end)%nat.

(** The decoder after it has been given the first [j] bytes of the frame
    [prefix ++ p ++ (if flag then prefix else [])] of a payload [p]. *)
Definition after (p : bytes) (flag : bool) (prefix : bytes)
    (j : nat) (me : Z) : t :=
  {| buffer := if (j <? 4)%nat then take j prefix
               else take (j - 4) (p ++ (if flag then prefix else []));
     messagesEver := me;
     extraMessageSizeCheck := flag;
     curMessageLen := if (j <? 4)%nat then None
                      else Some (Z.of_nat (length p)) |}.

End MessageBuffer.

(** ** Bit flips on the wire *)

(** Bit [j] of the byte [b] inverted. *)
Definition flip_bit (b : byte) (j : Z) : byte :=
  byte_of_Z (Z.lxor (Z_of_byte b) (2 ^ j)).

(** Bit [j] of the [i]-th byte of [l] inverted. *)
Definition flip_bit_at (l : bytes) (i : nat) (j : Z) : bytes :=
  alter (fun b => flip_bit b j) i l.

(** ** str and UTF-8

    A Python [str] is a sequence of code points. [utf8_encode] is
    [str.encode("utf8")] and [utf8_decode] is [bytes.decode("utf8")], both
    strict: [None] stands for [UnicodeEncodeError] (a surrogate) and
    [UnicodeDecodeError] (a stray or missing continuation byte, an
    overlong form, a surrogate, a code point above U+10FFFF). *)

Abbreviation str := (list Z).

Definition utf8_encode_char (c : Z) : option bytes :=
  if c <? 0 then None
  else if c <? 0x80 then Some [byte_of_Z c]
  else if c <? 0x800 then
    Some [byte_of_Z (0xC0 + c / 0x40); byte_of_Z (0x80 + c mod 0x40)]
  else if c <? 0x10000 then
    if (0xD800 <=? c) && (c <? 0xE000) then None
    else Some [byte_of_Z (0xE0 + c / 0x1000);
               byte_of_Z (0x80 + (c / 0x40) mod 0x40);
               byte_of_Z (0x80 + c mod 0x40)]
  else if c <? 0x110000 then
    Some [byte_of_Z (0xF0 + c / 0x40000);
          byte_of_Z (0x80 + (c / 0x1000) mod 0x40);
          byte_of_Z (0x80 + (c / 0x40) mod 0x40);
          byte_of_Z (0x80 + c mod 0x40)]
  else None.

Fixpoint utf8_encode (s : str) : option bytes :=
  match s with
  | [] => Some []
  | c :: s =>
      match utf8_encode_char c, utf8_encode s with
      | Some a, Some b => Some (a ++ b)
      | _, _ => None
      end
  end.

(** A continuation byte, [10xxxxxx]. *)
Definition is_cont (b : byte) : bool :=
  (0x80 <=? Z_of_byte b) && (Z_of_byte b <? 0xC0).

Fixpoint utf8_decode (b : bytes) : option str :=
  match b with
  | [] => Some []
  | b0 :: r =>
      let z0 := Z_of_byte b0 in
      if z0 <? 0x80 then option_map (cons z0) (utf8_decode r)
      else if z0 <? 0xC2 then None
      else if z0 <? 0xE0 then
        match r with
        | b1 :: r =>
            let c := (z0 - 0xC0) * 0x40 + (Z_of_byte b1 - 0x80) in
            if is_cont b1 then option_map (cons c) (utf8_decode r) else None
        | _ => None
        end
      else if z0 <? 0xF0 then
        match r with
        | b1 :: b2 :: r =>
            let c := (z0 - 0xE0) * 0x1000 + (Z_of_byte b1 - 0x80) * 0x40
                     + (Z_of_byte b2 - 0x80) in
            if is_cont b1 && is_cont b2 && (0x800 <=? c)
               && negb ((0xD800 <=? c) && (c <? 0xE000))
            then option_map (cons c) (utf8_decode r) else None
        | _ => None
        end
      else if z0 <? 0xF5 then
        match r with
        | b1 :: b2 :: b3 :: r =>
            let c := (z0 - 0xF0) * 0x40000 + (Z_of_byte b1 - 0x80) * 0x1000
                     + (Z_of_byte b2 - 0x80) * 0x40 + (Z_of_byte b3 - 0x80) in
            if is_cont b1 && is_cont b2 && is_cont b3
               && (0x10000 <=? c) && (c <? 0x110000)
            then option_map (cons c) (utf8_decode r) else None
        | _ => None
        end
      else None
  end.

(** ** sortedcontainers.SortedSet(key=...)

    [sortedcontainers] is a third-party library; its [SortedSet] is
    modelled by a list kept in key order and free of duplicates. [add]
    leaves the set alone when an equal value is already a member and
    otherwise inserts the value after every member whose key is not
    greater (the library's [bisect_right]); [pop(0)] and [[0]] take the
    head of the list. *)

Section SortedSet.
Context {A : Type} `{EqDecision A} (key : A -> Z).

Fixpoint insort (x : A) (l : list A) : list A :=
  match l with
  | [] => [x]
  | y :: l' => if key x <? key y then x :: l else y :: insort x l'
  end.

Definition SortedSet_add (x : A) (l : list A) : list A :=
  if bool_decide (x ∈ l) then l else insort x l.
End SortedSet.

(** ** MessageBus *)

Module MessageBus.

(** A socket object, by identity. *)
Abbreviation socket := nat.

(** [ConnectionId = NamedTuple(id=int)] *)
Abbreviation ConnectionId := Z.

(** [Endpoint = NamedTuple(host=str, port=int)] *)
Definition Endpoint : Type := string * Z.

(** The singletons [TriggerConnect], [TriggerDisconnect], [Disconnected]
    and the items of the send queue. *)
Inductive sendPayload :=
  | TriggerConnect
  | Payload (msg : bytes).

Inductive sendItem :=
  | Disconnected
  | SendTo (connId : ConnectionId) (msg : sendPayload).

(** What [scheduleCallback] is given: a callable of the user, or one of the
    two closures the bus makes itself. A callable is equal to itself only
    (Python compares functions by identity): [ident] is the identity of
    the object, drawn from [_lambdaCounter] for the closures of the bus. *)
Inductive callback :=
  | UserCallback (ident : nat)
  | ConnectTo (ident : nat) (connId : ConnectionId)
      (* lambda: self._connectTo(connId) *)
  | RescheduleDisconnect (ident : nat) (connId : ConnectionId)
      (* lambda: self._scheduleEvent((connId, TriggerDisconnect)) *).

#[global] Instance callback_eq_dec : EqDecision callback.
Proof. solve_decision. Defined.

Inductive pyexn :=
  | NotActive            (* Exception("Bus ... is not active") *)
  | SerializeError       (* raised by the injected serializer *)
  | ValueError
  | KeyError
  | NameError            (* UnboundLocalError *)
  | QueueEmpty
  | StructError
  | UnicodeEncodeError
  | AssertionError
  | FailedToStart
  | MessageBusLoopExit.

(** Results of the system calls the bus makes. *)
Inductive accept_result :=
  | Accepted (newSocket : socket) (newSocketSource : Endpoint)
  | AcceptOSError.

Inductive recv_result :=
  | Received (bytesReceived : bytes)
  | SSLWantReadError
  | SSLWantWriteError
  | ConnectionResetError
  | RecvException.

Inductive send_result :=
  | Sent (bytesWritten : Z)
  | SendSSLWantReadError
  | SendSSLWantWriteError
  | SendOSError
  | SendException.

Inductive connect_result :=
  | Connected (sock : socket)
  | ConnectException.

(** The delay of a [TriggerDisconnect] put off while its connection is
    still pending ([delay=0.1]); time is counted in milliseconds. *)
Definition DISCONNECT_RETRY_DELAY : Z := 100.

Definition has_key {K V} `{Countable K} (k : K) (m : gmap K V) : bool :=
  bool_decide (is_Some (m !! k)).

Section Bus.
(** The message type and the injected codec ([serialize] /
    [deserialize] of typed_python, or of the serialization context);
    [None] stands for the exception they raise. *)
Variable Msg : Type.
Variable serialize : Msg -> option bytes.
Variable deserialize : bytes -> option Msg.

Inductive MessageBusEvent :=
  | Stopped
  | NewIncomingConnection (source : Endpoint) (connectionId : ConnectionId)
  | IncomingConnectionClosed (connectionId : ConnectionId)
  | IncomingMessage (connectionId : ConnectionId) (message : Msg)
  | OutgoingConnectionEstablished (connectionId : ConnectionId)
  | OutgoingConnectionFailed (connectionId : ConnectionId)
  | OutgoingConnectionClosed (connectionId : ConnectionId).

(** Items of [_eventsToFireQueue] and of [_eventQueue]. *)
Inductive fireItem :=
  | FireTriggerDisconnect (connId : ConnectionId)
  | FireEvent (e : MessageBusEvent).

Inductive queueItem :=
  | QEvent (e : MessageBusEvent)
  | QCallback (cb : callback)
  | QNone.

(** The attributes of a [MessageBus]. The byte counters kept for
    statistics ([totalBytesRead] and the like) and the threads are left
    out; [_allSockets] is the set of sockets the watcher polls for
    reading; a wake pipe is the number of bytes waiting in it. *)
Record t := mk {
  _authToken : option str;
  extraMessageSizeCheck : bool;
  started : bool;
  _acceptSocket : option socket;
  _connectionIdCounter : Z;
  _connIdToIncomingSocket : gmap ConnectionId socket;
  _connIdToOutgoingSocket : gmap ConnectionId socket;
  _socketToIncomingConnId : gmap socket ConnectionId;
  _socketToOutgoingConnId : gmap socket ConnectionId;
  _unauthenticatedConnections : gset ConnectionId;
  _connIdToIncomingEndpoint : gmap ConnectionId Endpoint;
  _connIdToOutgoingEndpoint : gmap ConnectionId Endpoint;
  _connIdPendingOutgoingConnection : gset ConnectionId;
  _messagesForUnconnectedOutgoingConnection : gmap ConnectionId (list bytes);
  _messagesToSendQueue : list sendItem;
  _eventsToFireQueue : list fireItem;
  _eventQueue : list queueItem;
  _pendingTimedCallbacks : list (Z * callback);
  _socketToBytesNeedingWrite : gmap socket bytes;
  _socketsWithSslWantWrite : gset socket;
  _allSockets : gset socket;
  _incomingSocketBuffers : gmap socket MessageBuffer.t;
  _messageToSendWakePipe : nat;
  _eventToFireWakePipe : nat;
  _generalWakePipe : nat;
  _lambdaCounter : nat
}.

(** Assignment to one attribute. *)

Definition set_started (v : bool) (s : t) : t :=
  mk (_authToken s) (extraMessageSizeCheck s) v (_acceptSocket s)
    (_connectionIdCounter s) (_connIdToIncomingSocket s)
    (_connIdToOutgoingSocket s) (_socketToIncomingConnId s)
    (_socketToOutgoingConnId s) (_unauthenticatedConnections s)
    (_connIdToIncomingEndpoint s) (_connIdToOutgoingEndpoint s)
    (_connIdPendingOutgoingConnection s)
    (_messagesForUnconnectedOutgoingConnection s)
    (_messagesToSendQueue s) (_eventsToFireQueue s) (_eventQueue s)
    (_pendingTimedCallbacks s) (_socketToBytesNeedingWrite s)
    (_socketsWithSslWantWrite s) (_allSockets s)
    (_incomingSocketBuffers s) (_messageToSendWakePipe s)
    (_eventToFireWakePipe s) (_generalWakePipe s) (_lambdaCounter s).

Definition set__acceptSocket (v : option socket) (s : t) : t :=
  mk (_authToken s) (extraMessageSizeCheck s) (started s) v
    (_connectionIdCounter s) (_connIdToIncomingSocket s)
    (_connIdToOutgoingSocket s) (_socketToIncomingConnId s)
    (_socketToOutgoingConnId s) (_unauthenticatedConnections s)
    (_connIdToIncomingEndpoint s) (_connIdToOutgoingEndpoint s)
    (_connIdPendingOutgoingConnection s)
    (_messagesForUnconnectedOutgoingConnection s)
    (_messagesToSendQueue s) (_eventsToFireQueue s) (_eventQueue s)
    (_pendingTimedCallbacks s) (_socketToBytesNeedingWrite s)
    (_socketsWithSslWantWrite s) (_allSockets s)
    (_incomingSocketBuffers s) (_messageToSendWakePipe s)
    (_eventToFireWakePipe s) (_generalWakePipe s) (_lambdaCounter s).

Definition set__connectionIdCounter (v : Z) (s : t) : t :=
  mk (_authToken s) (extraMessageSizeCheck s) (started s)
    (_acceptSocket s) v (_connIdToIncomingSocket s)
    (_connIdToOutgoingSocket s) (_socketToIncomingConnId s)
    (_socketToOutgoingConnId s) (_unauthenticatedConnections s)
    (_connIdToIncomingEndpoint s) (_connIdToOutgoingEndpoint s)
    (_connIdPendingOutgoingConnection s)
    (_messagesForUnconnectedOutgoingConnection s)
    (_messagesToSendQueue s) (_eventsToFireQueue s) (_eventQueue s)
    (_pendingTimedCallbacks s) (_socketToBytesNeedingWrite s)
    (_socketsWithSslWantWrite s) (_allSockets s)
    (_incomingSocketBuffers s) (_messageToSendWakePipe s)
    (_eventToFireWakePipe s) (_generalWakePipe s) (_lambdaCounter s).

Definition set__connIdToIncomingSocket (v : gmap ConnectionId socket) (s : t) : t :=
  mk (_authToken s) (extraMessageSizeCheck s) (started s)
    (_acceptSocket s) (_connectionIdCounter s) v
    (_connIdToOutgoingSocket s) (_socketToIncomingConnId s)
    (_socketToOutgoingConnId s) (_unauthenticatedConnections s)
    (_connIdToIncomingEndpoint s) (_connIdToOutgoingEndpoint s)
    (_connIdPendingOutgoingConnection s)
    (_messagesForUnconnectedOutgoingConnection s)
    (_messagesToSendQueue s) (_eventsToFireQueue s) (_eventQueue s)
    (_pendingTimedCallbacks s) (_socketToBytesNeedingWrite s)
    (_socketsWithSslWantWrite s) (_allSockets s)
    (_incomingSocketBuffers s) (_messageToSendWakePipe s)
    (_eventToFireWakePipe s) (_generalWakePipe s) (_lambdaCounter s).

Definition set__connIdToOutgoingSocket (v : gmap ConnectionId socket) (s : t) : t :=
  mk (_authToken s) (extraMessageSizeCheck s) (started s)
    (_acceptSocket s) (_connectionIdCounter s)
    (_connIdToIncomingSocket s) v (_socketToIncomingConnId s)
    (_socketToOutgoingConnId s) (_unauthenticatedConnections s)
    (_connIdToIncomingEndpoint s) (_connIdToOutgoingEndpoint s)
    (_connIdPendingOutgoingConnection s)
    (_messagesForUnconnectedOutgoingConnection s)
    (_messagesToSendQueue s) (_eventsToFireQueue s) (_eventQueue s)
    (_pendingTimedCallbacks s) (_socketToBytesNeedingWrite s)
    (_socketsWithSslWantWrite s) (_allSockets s)
    (_incomingSocketBuffers s) (_messageToSendWakePipe s)
    (_eventToFireWakePipe s) (_generalWakePipe s) (_lambdaCounter s).

Definition set__socketToIncomingConnId (v : gmap socket ConnectionId) (s : t) : t :=
  mk (_authToken s) (extraMessageSizeCheck s) (started s)
    (_acceptSocket s) (_connectionIdCounter s)
    (_connIdToIncomingSocket s) (_connIdToOutgoingSocket s) v
    (_socketToOutgoingConnId s) (_unauthenticatedConnections s)
    (_connIdToIncomingEndpoint s) (_connIdToOutgoingEndpoint s)
    (_connIdPendingOutgoingConnection s)
    (_messagesForUnconnectedOutgoingConnection s)
    (_messagesToSendQueue s) (_eventsToFireQueue s) (_eventQueue s)
    (_pendingTimedCallbacks s) (_socketToBytesNeedingWrite s)
    (_socketsWithSslWantWrite s) (_allSockets s)
    (_incomingSocketBuffers s) (_messageToSendWakePipe s)
    (_eventToFireWakePipe s) (_generalWakePipe s) (_lambdaCounter s).

Definition set__socketToOutgoingConnId (v : gmap socket ConnectionId) (s : t) : t :=
  mk (_authToken s) (extraMessageSizeCheck s) (started s)
    (_acceptSocket s) (_connectionIdCounter s)
    (_connIdToIncomingSocket s) (_connIdToOutgoingSocket s)
    (_socketToIncomingConnId s) v (_unauthenticatedConnections s)
    (_connIdToIncomingEndpoint s) (_connIdToOutgoingEndpoint s)
    (_connIdPendingOutgoingConnection s)
    (_messagesForUnconnectedOutgoingConnection s)
    (_messagesToSendQueue s) (_eventsToFireQueue s) (_eventQueue s)
    (_pendingTimedCallbacks s) (_socketToBytesNeedingWrite s)
    (_socketsWithSslWantWrite s) (_allSockets s)
    (_incomingSocketBuffers s) (_messageToSendWakePipe s)
    (_eventToFireWakePipe s) (_generalWakePipe s) (_lambdaCounter s).

Definition set__unauthenticatedConnections (v : gset ConnectionId) (s : t) : t :=
  mk (_authToken s) (extraMessageSizeCheck s) (started s)
    (_acceptSocket s) (_connectionIdCounter s)
    (_connIdToIncomingSocket s) (_connIdToOutgoingSocket s)
    (_socketToIncomingConnId s) (_socketToOutgoingConnId s) v
    (_connIdToIncomingEndpoint s) (_connIdToOutgoingEndpoint s)
    (_connIdPendingOutgoingConnection s)
    (_messagesForUnconnectedOutgoingConnection s)
    (_messagesToSendQueue s) (_eventsToFireQueue s) (_eventQueue s)
    (_pendingTimedCallbacks s) (_socketToBytesNeedingWrite s)
    (_socketsWithSslWantWrite s) (_allSockets s)
    (_incomingSocketBuffers s) (_messageToSendWakePipe s)
    (_eventToFireWakePipe s) (_generalWakePipe s) (_lambdaCounter s).

Definition set__connIdToIncomingEndpoint (v : gmap ConnectionId Endpoint) (s : t) : t :=
  mk (_authToken s) (extraMessageSizeCheck s) (started s)
    (_acceptSocket s) (_connectionIdCounter s)
    (_connIdToIncomingSocket s) (_connIdToOutgoingSocket s)
    (_socketToIncomingConnId s) (_socketToOutgoingConnId s)
    (_unauthenticatedConnections s) v (_connIdToOutgoingEndpoint s)
    (_connIdPendingOutgoingConnection s)
    (_messagesForUnconnectedOutgoingConnection s)
    (_messagesToSendQueue s) (_eventsToFireQueue s) (_eventQueue s)
    (_pendingTimedCallbacks s) (_socketToBytesNeedingWrite s)
    (_socketsWithSslWantWrite s) (_allSockets s)
    (_incomingSocketBuffers s) (_messageToSendWakePipe s)
    (_eventToFireWakePipe s) (_generalWakePipe s) (_lambdaCounter s).

Definition set__connIdToOutgoingEndpoint (v : gmap ConnectionId Endpoint) (s : t) : t :=
  mk (_authToken s) (extraMessageSizeCheck s) (started s)
    (_acceptSocket s) (_connectionIdCounter s)
    (_connIdToIncomingSocket s) (_connIdToOutgoingSocket s)
    (_socketToIncomingConnId s) (_socketToOutgoingConnId s)
    (_unauthenticatedConnections s) (_connIdToIncomingEndpoint s) v
    (_connIdPendingOutgoingConnection s)
    (_messagesForUnconnectedOutgoingConnection s)
    (_messagesToSendQueue s) (_eventsToFireQueue s) (_eventQueue s)
    (_pendingTimedCallbacks s) (_socketToBytesNeedingWrite s)
    (_socketsWithSslWantWrite s) (_allSockets s)
    (_incomingSocketBuffers s) (_messageToSendWakePipe s)
    (_eventToFireWakePipe s) (_generalWakePipe s) (_lambdaCounter s).

Definition set__connIdPendingOutgoingConnection (v : gset ConnectionId) (s : t) : t :=
  mk (_authToken s) (extraMessageSizeCheck s) (started s)
    (_acceptSocket s) (_connectionIdCounter s)
    (_connIdToIncomingSocket s) (_connIdToOutgoingSocket s)
    (_socketToIncomingConnId s) (_socketToOutgoingConnId s)
    (_unauthenticatedConnections s) (_connIdToIncomingEndpoint s)
    (_connIdToOutgoingEndpoint s) v
    (_messagesForUnconnectedOutgoingConnection s)
    (_messagesToSendQueue s) (_eventsToFireQueue s) (_eventQueue s)
    (_pendingTimedCallbacks s) (_socketToBytesNeedingWrite s)
    (_socketsWithSslWantWrite s) (_allSockets s)
    (_incomingSocketBuffers s) (_messageToSendWakePipe s)
    (_eventToFireWakePipe s) (_generalWakePipe s) (_lambdaCounter s).

Definition set__messagesForUnconnectedOutgoingConnection (v : gmap ConnectionId (list bytes)) (s : t) : t :=
  mk (_authToken s) (extraMessageSizeCheck s) (started s)
    (_acceptSocket s) (_connectionIdCounter s)
    (_connIdToIncomingSocket s) (_connIdToOutgoingSocket s)
    (_socketToIncomingConnId s) (_socketToOutgoingConnId s)
    (_unauthenticatedConnections s) (_connIdToIncomingEndpoint s)
    (_connIdToOutgoingEndpoint s) (_connIdPendingOutgoingConnection s) v
    (_messagesToSendQueue s) (_eventsToFireQueue s) (_eventQueue s)
    (_pendingTimedCallbacks s) (_socketToBytesNeedingWrite s)
    (_socketsWithSslWantWrite s) (_allSockets s)
    (_incomingSocketBuffers s) (_messageToSendWakePipe s)
    (_eventToFireWakePipe s) (_generalWakePipe s) (_lambdaCounter s).

Definition set__messagesToSendQueue (v : list sendItem) (s : t) : t :=
  mk (_authToken s) (extraMessageSizeCheck s) (started s)
    (_acceptSocket s) (_connectionIdCounter s)
    (_connIdToIncomingSocket s) (_connIdToOutgoingSocket s)
    (_socketToIncomingConnId s) (_socketToOutgoingConnId s)
    (_unauthenticatedConnections s) (_connIdToIncomingEndpoint s)
    (_connIdToOutgoingEndpoint s) (_connIdPendingOutgoingConnection s)
    (_messagesForUnconnectedOutgoingConnection s) v
    (_eventsToFireQueue s) (_eventQueue s) (_pendingTimedCallbacks s)
    (_socketToBytesNeedingWrite s) (_socketsWithSslWantWrite s)
    (_allSockets s) (_incomingSocketBuffers s) (_messageToSendWakePipe s)
    (_eventToFireWakePipe s) (_generalWakePipe s) (_lambdaCounter s).

Definition set__eventsToFireQueue (v : list fireItem) (s : t) : t :=
  mk (_authToken s) (extraMessageSizeCheck s) (started s)
    (_acceptSocket s) (_connectionIdCounter s)
    (_connIdToIncomingSocket s) (_connIdToOutgoingSocket s)
    (_socketToIncomingConnId s) (_socketToOutgoingConnId s)
    (_unauthenticatedConnections s) (_connIdToIncomingEndpoint s)
    (_connIdToOutgoingEndpoint s) (_connIdPendingOutgoingConnection s)
    (_messagesForUnconnectedOutgoingConnection s)
    (_messagesToSendQueue s) v (_eventQueue s) (_pendingTimedCallbacks s)
    (_socketToBytesNeedingWrite s) (_socketsWithSslWantWrite s)
    (_allSockets s) (_incomingSocketBuffers s) (_messageToSendWakePipe s)
    (_eventToFireWakePipe s) (_generalWakePipe s) (_lambdaCounter s).

Definition set__eventQueue (v : list queueItem) (s : t) : t :=
  mk (_authToken s) (extraMessageSizeCheck s) (started s)
    (_acceptSocket s) (_connectionIdCounter s)
    (_connIdToIncomingSocket s) (_connIdToOutgoingSocket s)
    (_socketToIncomingConnId s) (_socketToOutgoingConnId s)
    (_unauthenticatedConnections s) (_connIdToIncomingEndpoint s)
    (_connIdToOutgoingEndpoint s) (_connIdPendingOutgoingConnection s)
    (_messagesForUnconnectedOutgoingConnection s)
    (_messagesToSendQueue s) (_eventsToFireQueue s) v
    (_pendingTimedCallbacks s) (_socketToBytesNeedingWrite s)
    (_socketsWithSslWantWrite s) (_allSockets s)
    (_incomingSocketBuffers s) (_messageToSendWakePipe s)
    (_eventToFireWakePipe s) (_generalWakePipe s) (_lambdaCounter s).

Definition set__pendingTimedCallbacks (v : list (Z * callback)) (s : t) : t :=
  mk (_authToken s) (extraMessageSizeCheck s) (started s)
    (_acceptSocket s) (_connectionIdCounter s)
    (_connIdToIncomingSocket s) (_connIdToOutgoingSocket s)
    (_socketToIncomingConnId s) (_socketToOutgoingConnId s)
    (_unauthenticatedConnections s) (_connIdToIncomingEndpoint s)
    (_connIdToOutgoingEndpoint s) (_connIdPendingOutgoingConnection s)
    (_messagesForUnconnectedOutgoingConnection s)
    (_messagesToSendQueue s) (_eventsToFireQueue s) (_eventQueue s) v
    (_socketToBytesNeedingWrite s) (_socketsWithSslWantWrite s)
    (_allSockets s) (_incomingSocketBuffers s) (_messageToSendWakePipe s)
    (_eventToFireWakePipe s) (_generalWakePipe s) (_lambdaCounter s).

Definition set__socketToBytesNeedingWrite (v : gmap socket bytes) (s : t) : t :=
  mk (_authToken s) (extraMessageSizeCheck s) (started s)
    (_acceptSocket s) (_connectionIdCounter s)
    (_connIdToIncomingSocket s) (_connIdToOutgoingSocket s)
    (_socketToIncomingConnId s) (_socketToOutgoingConnId s)
    (_unauthenticatedConnections s) (_connIdToIncomingEndpoint s)
    (_connIdToOutgoingEndpoint s) (_connIdPendingOutgoingConnection s)
    (_messagesForUnconnectedOutgoingConnection s)
    (_messagesToSendQueue s) (_eventsToFireQueue s) (_eventQueue s)
    (_pendingTimedCallbacks s) v (_socketsWithSslWantWrite s)
    (_allSockets s) (_incomingSocketBuffers s) (_messageToSendWakePipe s)
    (_eventToFireWakePipe s) (_generalWakePipe s) (_lambdaCounter s).

Definition set__socketsWithSslWantWrite (v : gset socket) (s : t) : t :=
  mk (_authToken s) (extraMessageSizeCheck s) (started s)
    (_acceptSocket s) (_connectionIdCounter s)
    (_connIdToIncomingSocket s) (_connIdToOutgoingSocket s)
    (_socketToIncomingConnId s) (_socketToOutgoingConnId s)
    (_unauthenticatedConnections s) (_connIdToIncomingEndpoint s)
    (_connIdToOutgoingEndpoint s) (_connIdPendingOutgoingConnection s)
    (_messagesForUnconnectedOutgoingConnection s)
    (_messagesToSendQueue s) (_eventsToFireQueue s) (_eventQueue s)
    (_pendingTimedCallbacks s) (_socketToBytesNeedingWrite s) v
    (_allSockets s) (_incomingSocketBuffers s) (_messageToSendWakePipe s)
    (_eventToFireWakePipe s) (_generalWakePipe s) (_lambdaCounter s).

Definition set__allSockets (v : gset socket) (s : t) : t :=
  mk (_authToken s) (extraMessageSizeCheck s) (started s)
    (_acceptSocket s) (_connectionIdCounter s)
    (_connIdToIncomingSocket s) (_connIdToOutgoingSocket s)
    (_socketToIncomingConnId s) (_socketToOutgoingConnId s)
    (_unauthenticatedConnections s) (_connIdToIncomingEndpoint s)
    (_connIdToOutgoingEndpoint s) (_connIdPendingOutgoingConnection s)
    (_messagesForUnconnectedOutgoingConnection s)
    (_messagesToSendQueue s) (_eventsToFireQueue s) (_eventQueue s)
    (_pendingTimedCallbacks s) (_socketToBytesNeedingWrite s)
    (_socketsWithSslWantWrite s) v (_incomingSocketBuffers s)
    (_messageToSendWakePipe s) (_eventToFireWakePipe s)
    (_generalWakePipe s) (_lambdaCounter s).

Definition set__incomingSocketBuffers (v : gmap socket MessageBuffer.t) (s : t) : t :=
  mk (_authToken s) (extraMessageSizeCheck s) (started s)
    (_acceptSocket s) (_connectionIdCounter s)
    (_connIdToIncomingSocket s) (_connIdToOutgoingSocket s)
    (_socketToIncomingConnId s) (_socketToOutgoingConnId s)
    (_unauthenticatedConnections s) (_connIdToIncomingEndpoint s)
    (_connIdToOutgoingEndpoint s) (_connIdPendingOutgoingConnection s)
    (_messagesForUnconnectedOutgoingConnection s)
    (_messagesToSendQueue s) (_eventsToFireQueue s) (_eventQueue s)
    (_pendingTimedCallbacks s) (_socketToBytesNeedingWrite s)
    (_socketsWithSslWantWrite s) (_allSockets s) v
    (_messageToSendWakePipe s) (_eventToFireWakePipe s)
    (_generalWakePipe s) (_lambdaCounter s).

Definition set__messageToSendWakePipe (v : nat) (s : t) : t :=
  mk (_authToken s) (extraMessageSizeCheck s) (started s)
    (_acceptSocket s) (_connectionIdCounter s)
    (_connIdToIncomingSocket s) (_connIdToOutgoingSocket s)
    (_socketToIncomingConnId s) (_socketToOutgoingConnId s)
    (_unauthenticatedConnections s) (_connIdToIncomingEndpoint s)
    (_connIdToOutgoingEndpoint s) (_connIdPendingOutgoingConnection s)
    (_messagesForUnconnectedOutgoingConnection s)
    (_messagesToSendQueue s) (_eventsToFireQueue s) (_eventQueue s)
    (_pendingTimedCallbacks s) (_socketToBytesNeedingWrite s)
    (_socketsWithSslWantWrite s) (_allSockets s)
    (_incomingSocketBuffers s) v (_eventToFireWakePipe s)
    (_generalWakePipe s) (_lambdaCounter s).

Definition set__eventToFireWakePipe (v : nat) (s : t) : t :=
  mk (_authToken s) (extraMessageSizeCheck s) (started s)
    (_acceptSocket s) (_connectionIdCounter s)
    (_connIdToIncomingSocket s) (_connIdToOutgoingSocket s)
    (_socketToIncomingConnId s) (_socketToOutgoingConnId s)
    (_unauthenticatedConnections s) (_connIdToIncomingEndpoint s)
    (_connIdToOutgoingEndpoint s) (_connIdPendingOutgoingConnection s)
    (_messagesForUnconnectedOutgoingConnection s)
    (_messagesToSendQueue s) (_eventsToFireQueue s) (_eventQueue s)
    (_pendingTimedCallbacks s) (_socketToBytesNeedingWrite s)
    (_socketsWithSslWantWrite s) (_allSockets s)
    (_incomingSocketBuffers s) (_messageToSendWakePipe s) v
    (_generalWakePipe s) (_lambdaCounter s).

Definition set__generalWakePipe (v : nat) (s : t) : t :=
  mk (_authToken s) (extraMessageSizeCheck s) (started s)
    (_acceptSocket s) (_connectionIdCounter s)
    (_connIdToIncomingSocket s) (_connIdToOutgoingSocket s)
    (_socketToIncomingConnId s) (_socketToOutgoingConnId s)
    (_unauthenticatedConnections s) (_connIdToIncomingEndpoint s)
    (_connIdToOutgoingEndpoint s) (_connIdPendingOutgoingConnection s)
    (_messagesForUnconnectedOutgoingConnection s)
    (_messagesToSendQueue s) (_eventsToFireQueue s) (_eventQueue s)
    (_pendingTimedCallbacks s) (_socketToBytesNeedingWrite s)
    (_socketsWithSslWantWrite s) (_allSockets s)
    (_incomingSocketBuffers s) (_messageToSendWakePipe s)
    (_eventToFireWakePipe s) v (_lambdaCounter s).

Definition set__lambdaCounter (v : nat) (s : t) : t :=
  mk (_authToken s) (extraMessageSizeCheck s) (started s)
    (_acceptSocket s) (_connectionIdCounter s)
    (_connIdToIncomingSocket s) (_connIdToOutgoingSocket s)
    (_socketToIncomingConnId s) (_socketToOutgoingConnId s)
    (_unauthenticatedConnections s) (_connIdToIncomingEndpoint s)
    (_connIdToOutgoingEndpoint s) (_connIdPendingOutgoingConnection s)
    (_messagesForUnconnectedOutgoingConnection s)
    (_messagesToSendQueue s) (_eventsToFireQueue s) (_eventQueue s)
    (_pendingTimedCallbacks s) (_socketToBytesNeedingWrite s)
    (_socketsWithSslWantWrite s) (_allSockets s)
    (_incomingSocketBuffers s) (_messageToSendWakePipe s)
    (_eventToFireWakePipe s) (_generalWakePipe s) v.
(** A call returns a value or raises; either way the object carries the
    mutations made so far. *)
Inductive outcome (A : Type) :=
  | Ok (s : t) (r : A)
  | Raise (s : t) (e : pyexn).
Arguments Ok {A} s r.
Arguments Raise {A} s e.

Definition bind {A B} (m : outcome A) (k : t -> A -> outcome B)
  : outcome B :=
  match m with
  | Ok s r => k s r
  | Raise s e => Raise s e
  end.

(** [MessageBus.__init__], for the arguments the model keeps. *)
Definition init (authToken : option str) (extraMessageSizeCheck : bool)
  : t :=
  mk authToken extraMessageSizeCheck false None 0 ∅ ∅ ∅ ∅ ∅ ∅ ∅ ∅ ∅
     [] [] [] [] ∅ ∅ ∅ ∅ 0 0 0 0.

(** [start]. [bound] is what [_setupAcceptSocket] achieved: [None] when
    binding failed, [Some None] when the bus listens nowhere. *)
Definition start (s : t) (bound : option (option socket)) : outcome unit :=
  if started s then Raise s AssertionError
  else
    match bound with
    | None => Raise s FailedToStart
    | Some acceptSocket =>
        let s := set__acceptSocket acceptSocket s in
        let s := set__messageToSendWakePipe 0%nat s in
        let s := set__eventToFireWakePipe 0%nat s in
        let s := set__generalWakePipe 0%nat s in
        let s := set__allSockets
                   (match acceptSocket with
                    | Some sock => {[ sock ]}
                    | None => ∅
                    end) s in
        Ok (set_started true s) tt
    end.

Definition _newConnectionId (s : t) : t * ConnectionId :=
  let s := set__connectionIdCounter (_connectionIdCounter s + 1) s in
  (s, _connectionIdCounter s).

Definition _isDefinitelyDead (s : t) (connectionId : ConnectionId) : bool :=
  negb (has_key connectionId (_connIdToOutgoingEndpoint s))
  && negb (has_key connectionId (_connIdToIncomingEndpoint s)).

(** The queue is a FIFO; that [put] may block its caller while the byte
    cap is reached is not modelled. *)
Definition _putOnSendQueue (s : t) (connectionId : ConnectionId)
    (msg : sendPayload) : t :=
  let s := set__messagesToSendQueue
             (_messagesToSendQueue s ++ [SendTo connectionId msg]) s in
  set__messageToSendWakePipe (S (_messageToSendWakePipe s)) s.

Definition _scheduleEvent (s : t) (event : fireItem) : t :=
  let s := set__eventsToFireQueue (_eventsToFireQueue s ++ [event]) s in
  set__eventToFireWakePipe (S (_eventToFireWakePipe s)) s.

Definition _fireEvent (s : t) (event : MessageBusEvent) : t :=
  set__eventQueue (_eventQueue s ++ [QEvent event]) s.

Definition connect (s : t) (endpoint : Endpoint) : outcome ConnectionId :=
  if negb (started s) then Raise s NotActive
  else
    let '(s, connId) := _newConnectionId s in
    let s := set__connIdToOutgoingEndpoint
               (<[connId := endpoint]> (_connIdToOutgoingEndpoint s)) s in
    let s := set__connIdPendingOutgoingConnection
               ({[ connId ]} ∪ _connIdPendingOutgoingConnection s) s in
    let s := _putOnSendQueue s connId TriggerConnect in
    Ok s connId.

Definition closeConnection (s : t) (connectionId : ConnectionId) : t :=
  if _isDefinitelyDead s connectionId then s
  else _scheduleEvent s (FireTriggerDisconnect connectionId).

(** [scheduleCallback]; [now] is [time.time()]. The pending set never
    holds [None]: this is the only place that adds to it. *)
Definition scheduleCallback (s : t) (callback : option callback)
    (atTimestamp delay : option Z) (now : Z) : outcome unit :=
  match callback with
  | None => Ok s tt
  | Some callback =>
      match atTimestamp, delay with
      | Some _, Some _ => Raise s ValueError
      | _, _ =>
          let delay := default 0 delay in
          let atTimestamp := default (now + delay) atTimestamp in
          let s := set__pendingTimedCallbacks
                     (SortedSet_add fst (atTimestamp, callback)
                        (_pendingTimedCallbacks s)) s in
          match _pendingTimedCallbacks s with
          | (ts, _) :: _ =>
              if ts =? atTimestamp
              then Ok (set__generalWakePipe (S (_generalWakePipe s)) s) tt
              else Ok s tt
          | [] => Ok s tt
          end
      end
  end.

Definition sendMessage (s : t) (connectionId : ConnectionId)
    (message : Msg) : outcome bool :=
  if negb (started s) then Raise s NotActive
  else
    match serialize message with
    | None => Raise s SerializeError
    | Some serializedMessage =>
        if _isDefinitelyDead s connectionId then Ok s false
        else Ok (_putOnSendQueue s connectionId (Payload serializedMessage))
                true
    end.

Definition _scheduleBytesForWrite (s : t) (connId : ConnectionId)
    (msg : bytes) : outcome unit :=
  match msg with
  | [] => Ok s tt
  | _ :: _ =>
      let sslSock :=
        match _connIdToOutgoingSocket s !! connId with
        | Some sock => Some sock
        | None => _connIdToIncomingSocket s !! connId
        end in
      match sslSock with
      | None =>
          (* not connected yet: the pending buffer, unless disconnected *)
          if bool_decide (connId ∈ _connIdPendingOutgoingConnection s) then
            let pending := _messagesForUnconnectedOutgoingConnection s in
            Ok (set__messagesForUnconnectedOutgoingConnection
                  (<[connId := default [] (pending !! connId) ++ [msg]]>
                     pending) s) tt
          else Ok s tt
      | Some sslSock =>
          match MessageBuffer.encode msg (extraMessageSizeCheck s) with
          | None => Raise s StructError
          | Some msgBytes =>
              let w := _socketToBytesNeedingWrite s in
              Ok (set__socketToBytesNeedingWrite
                    (<[sslSock := default [] (w !! sslSock) ++ msgBytes]> w)
                    s) tt
          end
      end
  end.

Definition _handleMessageToSend (s : t) (now : Z) : outcome unit :=
  match _messagesToSendQueue s with
  | [] => Ok s tt
  | connectionAndMsg :: rest =>
      let s := set__messagesToSendQueue rest s in
      match connectionAndMsg with
      | Disconnected => Ok s tt
      | SendTo connId TriggerConnect =>
          (* preschedule the auth token write *)
          bind
            match _authToken s with
            | Some authToken =>
                match utf8_encode authToken with
                | Some tokenBytes => _scheduleBytesForWrite s connId tokenBytes
                | None => Raise s UnicodeEncodeError
                end
            | None => Ok s tt
            end
            (fun s _ =>
               let cb := ConnectTo (_lambdaCounter s) connId in
               let s := set__lambdaCounter (S (_lambdaCounter s)) s in
               scheduleCallback s (Some cb) None None now)
      | SendTo connId (Payload msg) => _scheduleBytesForWrite s connId msg
      end
  end.

(** One [_handleMessageToSend] for each byte read from the wake pipe. *)
Fixpoint _handleMessageToSend_times (n : nat) (s : t) (now : Z)
  : outcome unit :=
  match n with
  | O => Ok s tt
  | S n =>
      bind (_handleMessageToSend s now)
        (fun s _ => _handleMessageToSend_times n s now)
  end.

Definition _handleMessageToSendWakePipe (s : t) (now : Z) : outcome unit :=
  let n := _messageToSendWakePipe s in
  _handleMessageToSend_times n (set__messageToSendWakePipe 0%nat s) now.

Definition _getConnectionIdFromSocket (s : t) (sock : socket)
  : option ConnectionId :=
  match _socketToIncomingConnId s !! sock with
  | Some connId => Some connId
  | None => _socketToOutgoingConnId s !! sock
  end.

Definition _handleIncomingMessage (s : t) (serializedMessage : bytes)
    (sock : socket) : t * bool :=
  match _getConnectionIdFromSocket s sock with
  | None => (s, false)
  | Some connId =>
      if bool_decide (connId ∈ _unauthenticatedConnections s) then
        match utf8_decode serializedMessage with
        | None => (s, false)        (* the exception is caught and logged *)
        | Some decoded =>
            if bool_decide (Some decoded = _authToken s) then
              (set__unauthenticatedConnections
                 (_unauthenticatedConnections s ∖ {[ connId ]}) s, true)
            else (s, false)
        end
      else
        match deserialize serializedMessage with
        | None => (s, false)        (* "Failed to deserialize a message" *)
        | Some message => (_fireEvent s (IncomingMessage connId message), true)
        end
  end.

(** [_markSocketClosed]. A [del] of a missing key raises [KeyError]. *)
Definition _markSocketClosed (s : t) (sock : socket) : outcome unit :=
  let finish (s : t) (toFire : list MessageBusEvent) : outcome unit :=
    let s := set__allSockets (_allSockets s ∖ {[ sock ]}) s in
    Ok (foldl _fireEvent s toFire) tt in
  match _socketToIncomingConnId s !! sock with
  | Some connId =>
      let s := set__unauthenticatedConnections
                 (_unauthenticatedConnections s ∖ {[ connId ]}) s in
      if negb (has_key connId (_connIdToIncomingSocket s))
      then Raise s KeyError else
      let s := set__connIdToIncomingSocket
                 (delete connId (_connIdToIncomingSocket s)) s in
      let s := set__socketToIncomingConnId
                 (delete sock (_socketToIncomingConnId s)) s in
      if negb (has_key connId (_connIdToIncomingEndpoint s))
      then Raise s KeyError else
      let s := set__connIdToIncomingEndpoint
                 (delete connId (_connIdToIncomingEndpoint s)) s in
      if negb (has_key sock (_incomingSocketBuffers s))
      then Raise s KeyError else
      let s := set__incomingSocketBuffers
                 (delete sock (_incomingSocketBuffers s)) s in
      let s := set__socketToBytesNeedingWrite
                 (delete sock (_socketToBytesNeedingWrite s)) s in
      finish s [IncomingConnectionClosed connId]
  | None =>
      match _socketToOutgoingConnId s !! sock with
      | Some connId =>
          if negb (has_key connId (_connIdToOutgoingEndpoint s))
          then Raise s KeyError else
          let s := set__connIdToOutgoingEndpoint
                     (delete connId (_connIdToOutgoingEndpoint s)) s in
          let s := set__socketToOutgoingConnId
                     (delete sock (_socketToOutgoingConnId s)) s in
          if negb (has_key connId (_connIdToOutgoingSocket s))
          then Raise s KeyError else
          let s := set__connIdToOutgoingSocket
                     (delete connId (_connIdToOutgoingSocket s)) s in
          if negb (has_key sock (_incomingSocketBuffers s))
          then Raise s KeyError else
          let s := set__incomingSocketBuffers
                     (delete sock (_incomingSocketBuffers s)) s in
          let s := set__socketToBytesNeedingWrite
                     (delete sock (_socketToBytesNeedingWrite s)) s in
          finish s [OutgoingConnectionClosed connId]
      | None => finish s []
      end
  end.

(** The loop [for m in newMessages] of [_handleReadReadySocket]: the
    first message refused closes the socket and ends the loop. *)
Fixpoint handle_newMessages (s : t) (newMessages : list bytes)
    (sock : socket) : outcome unit :=
  match newMessages with
  | [] => Ok s tt
  | m :: newMessages =>
      let '(s, ok) := _handleIncomingMessage s m sock in
      if ok then handle_newMessages s newMessages sock
      else _markSocketClosed s sock
  end.

(** [_handleReadReadySocket]; [acc] and [rcv] are what [accept] and
    [recv] would give. The function returns [True], [False] or [None]. *)
Definition _handleReadReadySocket (s : t) (socketWithData : socket)
    (acc : accept_result) (rcv : recv_result) : outcome (option bool) :=
  if bool_decide (_acceptSocket s = Some socketWithData) then
    match acc with
    | AcceptOSError => Ok s (Some false)
    | Accepted newSocket newSocketSource =>
        let '(s, connId) := _newConnectionId s in
        let s :=
          match _authToken s with
          | Some _ =>
              set__unauthenticatedConnections
                ({[ connId ]} ∪ _unauthenticatedConnections s) s
          | None => s
          end in
        let s := set__connIdToIncomingSocket
                   (<[connId := newSocket]> (_connIdToIncomingSocket s)) s in
        let s := set__socketToIncomingConnId
                   (<[newSocket := connId]> (_socketToIncomingConnId s)) s in
        let s := set__connIdToIncomingEndpoint
                   (<[connId := newSocketSource]>
                      (_connIdToIncomingEndpoint s)) s in
        let s := set__incomingSocketBuffers
                   (<[newSocket :=
                        MessageBuffer.init (extraMessageSizeCheck s)]>
                      (_incomingSocketBuffers s)) s in
        let s := set__allSockets ({[ newSocket ]} ∪ _allSockets s) s in
        let s := _fireEvent s (NewIncomingConnection newSocketSource connId) in
        Ok s (Some true)
    end
  else if bool_decide (socketWithData ∈ _allSockets s) then
    let closed (s : t) : outcome (option bool) :=
      bind (_markSocketClosed s socketWithData)
        (fun s _ => Ok s (Some true)) in
    match rcv with
    | SSLWantReadError => Ok s None
    | SSLWantWriteError =>
        (* bytesReceived is left unbound *)
        Raise (set__socketsWithSslWantWrite
                 ({[ socketWithData ]} ∪ _socketsWithSslWantWrite s) s)
              NameError
    | ConnectionResetError | RecvException | Received [] => closed s
    | Received bytesReceived =>
        match _incomingSocketBuffers s !! socketWithData with
        | None => Raise s KeyError
        | Some messageBuffer =>
            let store (messageBuffer : MessageBuffer.t) : t :=
              set__incomingSocketBuffers
                (<[socketWithData := messageBuffer]>
                   (_incomingSocketBuffers s)) s in
            match MessageBuffer.write messageBuffer bytesReceived with
            | Some (messageBuffer,
                    MessageBuffer.Raised
                      (MessageBuffer.CorruptMessageStream _ _)) =>
                closed (store messageBuffer)
            | Some (messageBuffer,
                    MessageBuffer.Raised MessageBuffer.StructError) =>
                Raise (store messageBuffer) StructError
            | Some (messageBuffer, MessageBuffer.Returned newMessages) =>
                bind (handle_newMessages (store messageBuffer) newMessages
                        socketWithData)
                  (fun s _ => Ok s (Some true))
            | None => Raise s StructError   (* never: [write] is total *)
            end
        end
    end
  else Ok s None.

Definition _handleEventToFire (s : t) (now : Z) : outcome unit :=
  match _eventsToFireQueue s with
  | [] => Raise s QueueEmpty
  | readMessage :: rest =>
      let s := set__eventsToFireQueue rest s in
      match readMessage with
      | FireTriggerDisconnect connId =>
          if bool_decide (connId ∈ _connIdPendingOutgoingConnection s) then
            let cb := RescheduleDisconnect (_lambdaCounter s) connId in
            let s := set__lambdaCounter (S (_lambdaCounter s)) s in
            scheduleCallback s (Some cb) None (Some DISCONNECT_RETRY_DELAY)
              now
          else
            match _connIdToOutgoingSocket s !! connId with
            | Some sock => _markSocketClosed s sock
            | None =>
                match _connIdToIncomingSocket s !! connId with
                | Some sock => _markSocketClosed s sock
                | None => Ok s tt
                end
            end
      | FireEvent (OutgoingConnectionEstablished connId as e) =>
          let s :=
            match _connIdToOutgoingSocket s !! connId with
            | Some sock => set__allSockets ({[ sock ]} ∪ _allSockets s) s
            | None => s
            end in
          Ok (_fireEvent s e) tt
      | FireEvent Stopped => Raise (_fireEvent s Stopped) MessageBusLoopExit
      | FireEvent e => Ok (_fireEvent s e) tt
      end
  end.

(** [_handleWriteReadySocket]; [res] is what [send] would give. *)
Definition _handleWriteReadySocket (s : t) (writeable : socket)
    (res : send_result) : outcome (option bool) :=
  match _socketToBytesNeedingWrite s !! writeable with
  | None => Ok s None
  | Some pending =>
      let s :=
        match res with
        | SendSSLWantWriteError =>
            set__socketsWithSslWantWrite
              ({[ writeable ]} ∪ _socketsWithSslWantWrite s) s
        | _ => s
        end in
      let bytesWritten :=
        match res with
        | Sent n => n
        | SendSSLWantReadError | SendSSLWantWriteError => -1
        | SendOSError | SendException => 0
        end in
      if bytesWritten =? 0 then
        Ok (set__socketToBytesNeedingWrite
              (delete writeable (_socketToBytesNeedingWrite s)) s)
           (Some true)
      else if bytesWritten =? -1 then Ok s (Some false)
      else if 0 <? bytesWritten then
        let pending := py_del_slice_to pending bytesWritten in
        let w := _socketToBytesNeedingWrite s in
        Ok (set__socketToBytesNeedingWrite
              (match pending with
               | [] => delete writeable w
               | _ :: _ => <[writeable := pending]> w
               end) s)
           (Some true)
      else Ok s (Some false)
  end.

(** The flush of the preconnect buffer in [_connectTo]. *)
Fixpoint flush_messages (s : t) (connId : ConnectionId)
    (messages : list bytes) : outcome unit :=
  match messages with
  | [] => Ok s tt
  | m :: messages =>
      bind (_scheduleBytesForWrite s connId m)
        (fun s _ => flush_messages s connId messages)
  end.

(** The [except] clause of [_connectTo]. *)
Definition _connectTo_failed (s : t) (connId : ConnectionId)
  : outcome bool :=
  let s := set__connIdToOutgoingEndpoint
             (delete connId (_connIdToOutgoingEndpoint s)) s in
  let s := set__connIdPendingOutgoingConnection
             (_connIdPendingOutgoingConnection s ∖ {[ connId ]}) s in
  let s := set__messagesForUnconnectedOutgoingConnection
             (delete connId (_messagesForUnconnectedOutgoingConnection s))
             s in
  match _connIdToOutgoingSocket s !! connId with
  | Some sock =>
      (* pop(connId), then del of the same key *)
      let s := set__connIdToOutgoingSocket
                 (delete connId (_connIdToOutgoingSocket s)) s in
      if negb (has_key sock (_socketToOutgoingConnId s))
      then Raise s KeyError else
      let s := set__socketToOutgoingConnId
                 (delete sock (_socketToOutgoingConnId s)) s in
      Raise s KeyError
  | None =>
      Ok (_scheduleEvent s (FireEvent (OutgoingConnectionFailed connId)))
         false
  end.

(** [_connectTo]; [res] is what [create_connection] and [wrap_socket]
    would give. *)
Definition _connectTo (s : t) (connId : ConnectionId)
    (res : connect_result) : outcome bool :=
  match _connIdToOutgoingEndpoint s !! connId with
  | None => Raise s NameError  (* the handler formats the unbound endpoint *)
  | Some endpoint =>
      match res with
      | ConnectException => _connectTo_failed s connId
      | Connected sock =>
          let s := set__socketToOutgoingConnId
                     (<[sock := connId]> (_socketToOutgoingConnId s)) s in
          let s := set__connIdToOutgoingSocket
                     (<[connId := sock]> (_connIdToOutgoingSocket s)) s in
          let s := set__incomingSocketBuffers
                     (<[sock := MessageBuffer.init (extraMessageSizeCheck s)]>
                        (_incomingSocketBuffers s)) s in
          let flushed :=
            match _messagesForUnconnectedOutgoingConnection s !! connId with
            | Some messages =>
                flush_messages
                  (set__messagesForUnconnectedOutgoingConnection
                     (delete connId
                        (_messagesForUnconnectedOutgoingConnection s)) s)
                  connId messages
            | None => Ok s tt
            end in
          match flushed with
          | Raise s _ => _connectTo_failed s connId
          | Ok s _ =>
              let s := set__connIdPendingOutgoingConnection
                         (_connIdPendingOutgoingConnection s ∖ {[ connId ]})
                         s in
              Ok (_scheduleEvent s
                    (FireEvent (OutgoingConnectionEstablished connId)))
                 true
          end
      end
  end.

(** The loop of [_consumeCallbacksOnOutputThread]; [clock k] is the
    [k]-th reading of [time.time()]. Every pass pops the head of the
    pending set or returns. *)
Fixpoint consume_loop (clock : nat -> Z) (k : nat)
    (pending : list (Z * callback)) (eventQueue : list queueItem)
  : list (Z * callback) * list queueItem * option Z :=
  match pending with
  | [] => (pending, eventQueue, None)
  | (ts, callback) :: rest =>
      let t0 := clock k in
      if ts <=? t0
      then consume_loop clock (S k) rest (eventQueue ++ [QCallback callback])
      else (pending, eventQueue, Some (Z.max (ts - t0) 0))
  end.

Definition _consumeCallbacksOnOutputThread (s : t) (clock : nat -> Z)
  : t * option Z :=
  let '(pending, eventQueue, r) :=
    consume_loop clock 0 (_pendingTimedCallbacks s) (_eventQueue s) in
  (set__eventQueue eventQueue (set__pendingTimedCallbacks pending s), r).

(** [_eventThreadLoop] over what the event queue holds: [io] gives the
    result of each connection attempt. The loop hands events to
    [onEvent] and calls the callbacks, in order; it returns at the first
    [None]; the code of the user's callables is outside the model.
    The result is the items handled and whether the thread returned
    (otherwise it waits in [get]). *)
Fixpoint eventThread_run (io : ConnectionId -> connect_result)
    (queue : list queueItem) (s : t) (handled : list queueItem)
  : t * list queueItem * bool :=
  match queue with
  | [] => (set__eventQueue [] s, handled, false)
  | QNone :: rest => (set__eventQueue rest s, handled, true)
  | QEvent e :: rest =>
      eventThread_run io rest s (handled ++ [QEvent e])
  | QCallback cb :: rest =>
      let s :=
        match cb with
        | UserCallback _ => s
        | ConnectTo _ connId =>
            match _connectTo s connId (io connId) with
            | Ok s _ | Raise s _ => s     (* exceptions are logged *)
            end
        | RescheduleDisconnect _ connId =>
            _scheduleEvent s (FireTriggerDisconnect connId)
        end in
      eventThread_run io rest s (handled ++ [QCallback cb])
  end.

Definition _eventThreadLoop (s : t) (io : ConnectionId -> connect_result)
  : t * list queueItem * bool :=
  eventThread_run io (_eventQueue s) s [].

(** *** Runs

    The calls a run of the bus is made of: those of the user's threads
    and those the socket thread and the event thread make, each with
    the results of the system calls it would see. *)
Inductive call :=
  | CallStart (bound : option (option socket))
  | CallConnect (endpoint : Endpoint)
  | CallCloseConnection (connectionId : ConnectionId)
  | CallSendMessage (connectionId : ConnectionId) (message : Msg)
  | CallScheduleCallback (callback : option callback)
      (atTimestamp delay : option Z) (now : Z)
  | CallHandleMessageToSendWakePipe (now : Z)
  | CallHandleEventToFire (now : Z)
  | CallHandleReadReadySocket (sock : socket) (acc : accept_result)
      (rcv : recv_result)
  | CallHandleWriteReadySocket (sock : socket) (res : send_result)
  | CallConsumeCallbacks (clock : nat -> Z)
  | CallEventThreadLoop (io : ConnectionId -> connect_result).

Definition state_of {A} (o : outcome A) : t :=
  match o with
  | Ok s _ | Raise s _ => s
  end.

Definition step (c : call) (s : t) : t :=
  match c with
  | CallStart bound => state_of (start s bound)
  | CallConnect endpoint => state_of (connect s endpoint)
  | CallCloseConnection connectionId => closeConnection s connectionId
  | CallSendMessage connectionId message =>
      state_of (sendMessage s connectionId message)
  | CallScheduleCallback callback atTimestamp delay now =>
      state_of (scheduleCallback s callback atTimestamp delay now)
  | CallHandleMessageToSendWakePipe now =>
      state_of (_handleMessageToSendWakePipe s now)
  | CallHandleEventToFire now => state_of (_handleEventToFire s now)
  | CallHandleReadReadySocket sock acc rcv =>
      state_of (_handleReadReadySocket s sock acc rcv)
  | CallHandleWriteReadySocket sock res =>
      state_of (_handleWriteReadySocket s sock res)
  | CallConsumeCallbacks clock =>
      fst (_consumeCallbacksOnOutputThread s clock)
  | CallEventThreadLoop io => fst (fst (_eventThreadLoop s io))
  end.

(** The connection id an item of the event queue announces as new. *)
Definition announced (q : queueItem) : option ConnectionId :=
  match q with
  | QEvent (NewIncomingConnection _ connectionId) => Some connectionId
  | _ => None
  end.

(** The connection ids a call hands out. The allocator is called in
    two places: [connect] returns the id it drew, and the accept path of
    [_handleReadReadySocket] announces the one it drew in the
    [NewIncomingConnection] event it puts on the event queue. *)
Definition ids_given (c : call) (s : t) : list ConnectionId :=
  match c with
  | CallConnect endpoint =>
      match connect s endpoint with
      | Ok _ connId => [connId]
      | Raise _ _ => []
      end
  | CallHandleReadReadySocket _ _ _ =>
      omap announced
        (drop (length (_eventQueue s)) (_eventQueue (step c s)))
  | _ => []
  end.

Fixpoint run (cs : list call) (s : t) : t * list ConnectionId :=
  match cs with
  | [] => (s, [])
  | c :: cs =>
      let '(s', ids) := run cs (step c s) in
      (s', ids_given c s ++ ids)
  end.

(** A call is quiet when it hands out no connection id: it leaves the
    counter alone and announces no new connection. *)
Definition quiet (s s' : t) : Prop :=
  _connectionIdCounter s' = _connectionIdCounter s /\
  exists evs, _eventQueue s' = _eventQueue s ++ evs /\
              omap announced evs = [].

(** *** The rest of the bus *)

(** [isUnauthenticated] *)
Definition isUnauthenticated (s : t) (connId : ConnectionId) : bool :=
  bool_decide (connId ∈ _unauthenticatedConnections s).

(** [_bytesPerMsg], the weight of an item of the send queue: [Disconnected]
    is no tuple, and a trigger carries no bytes. *)
Definition _bytesPerMsg (msg : sendItem) : Z :=
  match msg with
  | Disconnected => 0
  | SendTo _ TriggerConnect => 0
  | SendTo _ (Payload b) => Z.of_nat (length b)
  end.

(** One [_handleEventToFire] for each byte read from the wake pipe; an
    exception ([MessageBusLoopExit] among them) leaves the loop. *)
Fixpoint _handleEventToFire_times (n : nat) (s : t) (now : Z)
  : outcome unit :=
  match n with
  | O => Ok s tt
  | S n =>
      bind (_handleEventToFire s now)
        (fun s _ => _handleEventToFire_times n s now)
  end.

Definition _handleEventToFireWakePipe (s : t) (now : Z) : outcome unit :=
  let n := _eventToFireWakePipe s in
  _handleEventToFire_times n (set__eventToFireWakePipe 0%nat s) now.

(** [_handleGeneralWakePipe]: the pipe is emptied. *)
Definition _handleGeneralWakePipe (s : t) : t :=
  set__generalWakePipe 0%nat s.

(** [stop], lines 374-386: what the caller does before it waits for the
    socket thread. The sentinel goes on the send queue without a byte in
    its wake pipe. *)
Definition stop_until_join (s : t) : t :=
  if negb (started s) then s
  else
    let s := set_started false s in
    let s := set__messagesToSendQueue
               (_messagesToSendQueue s ++ [Disconnected]) s in
    _scheduleEvent s (FireEvent Stopped).

(** [stop], line 395: once the socket thread is gone, the [None] that
    ends the event thread is put behind what the event queue holds. *)
Definition stop_event_thread (s : t) : t :=
  set__eventQueue (_eventQueue s ++ [QNone]) s.

(** The pending set is in deadline order and holds no pair twice: what a
    [SortedSet] keyed by the timestamp guarantees. *)
Definition pending_ok (s : t) : Prop :=
  StronglySorted (fun a b => a.1 <= b.1) (_pendingTimedCallbacks s) /\
  NoDup (_pendingTimedCallbacks s).

End Bus.

Arguments Ok {Msg A} s r.
Arguments Raise {Msg A} s e.
Arguments bind {Msg A B} m k.
Arguments Stopped {Msg}.
Arguments NewIncomingConnection {Msg} source connectionId.
Arguments IncomingConnectionClosed {Msg} connectionId.
Arguments IncomingMessage {Msg} connectionId message.
Arguments OutgoingConnectionEstablished {Msg} connectionId.
Arguments OutgoingConnectionFailed {Msg} connectionId.
Arguments OutgoingConnectionClosed {Msg} connectionId.
Arguments FireTriggerDisconnect {Msg} connId.
Arguments FireEvent {Msg} e.
Arguments QEvent {Msg} e.
Arguments QCallback {Msg} cb.
Arguments QNone {Msg}.
Arguments state_of {Msg A} o.
Arguments announced {Msg} q.
Arguments quiet {Msg} s s'.

End MessageBus.

(** ** Sample inputs

    Concrete buses on which the model is run: messages are byte strings,
    the serializer is the identity, the deserializer refuses a payload
    that starts with a NUL byte. *)

Module Sample.
Import MessageBus.

Definition serialize (m : bytes) : option bytes := Some m.

Definition deserialize (b : bytes) : option bytes :=
  match b with
  | x00 :: _ => None
  | _ => Some b
  end.

Definition peer : Endpoint := ("peer"%string, 4000).

(** A started bus that listens on socket 0. *)
Definition listening (authToken : option str) : t bytes :=
  state_of (start bytes (init bytes authToken true) (Some (Some 0%nat))).

(** The same bus once it has accepted a connection from [peer], on
    socket 5: the connection has id 1. *)
Definition accepted (authToken : option str) : t bytes :=
  state_of (_handleReadReadySocket bytes deserialize (listening authToken)
              0%nat (Accepted 5%nat peer) SSLWantReadError).

(** A started bus that listens nowhere. *)
Definition client (authToken : option str) : t bytes :=
  state_of (start bytes (init bytes authToken true) (Some None)).

(** The frame of a payload, size check on. *)
Definition frame (p : bytes) : bytes :=
  default [] (MessageBuffer.encode p true).

(** The client once it has asked for a connection to [peer]: connection 1
    is pending. *)
Definition connecting (authToken : option str) : t bytes :=
  state_of (connect bytes (client authToken) peer).

(** The client once the connection is made, on socket 9: the socket
    thread has handled the send queue and the due callbacks, the event
    thread has connected, and the socket thread has fired the
    [OutgoingConnectionEstablished]. *)
Definition connected (authToken : option str) : t bytes :=
  let s1 := state_of (_handleMessageToSendWakePipe bytes
                        (connecting authToken) 1000) in
  let s2 := (_consumeCallbacksOnOutputThread bytes s1 (fun _ => 1000)).1 in
  let s3 := (_eventThreadLoop bytes s2 (fun _ => Connected 9%nat)).1.1 in
  state_of (_handleEventToFireWakePipe bytes s3 1000).

(** The client with two callbacks pending, for the timestamps 50 and
    70. *)
Definition scheduled : t bytes :=
  let s1 := state_of (scheduleCallback bytes (client None)
                        (Some (UserCallback 0)) (Some 70) None 0) in
  state_of (scheduleCallback bytes s1 (Some (UserCallback 1)) (Some 50)
              None 0).

End Sample.

(** * Properties *)

(** ** Bytes and int32 packing *)

Lemma Z_of_byte_range (b : byte) : 0 <= Z_of_byte b < 256.
Proof.
  unfold Z_of_byte. pose proof (Byte.to_N_bounded b). lia.
Qed.

Lemma Z_of_byte_of_Z (z : Z) : Z_of_byte (byte_of_Z z) = z mod 256.
Proof.
  unfold Z_of_byte, byte_of_Z.
  pose proof (Z.mod_pos_bound z 256 ltac:(lia)) as Hr.
  destruct (Byte.of_N (Z.to_N (z mod 256))) as [b|] eqn:E.
  - apply Byte.to_of_N in E. rewrite E. lia.
  - apply Byte.of_N_None_iff in E. lia.
Qed.

Lemma byte_of_Z_of_byte (b : byte) : byte_of_Z (Z_of_byte b) = b.
Proof.
  unfold byte_of_Z, Z_of_byte.
  pose proof (Byte.to_N_bounded b).
  rewrite Z.mod_small by lia.
  rewrite N2Z.id, Byte.of_to_N. reflexivity.
Qed.

Lemma Z_of_byte_inj (a b : byte) : Z_of_byte a = Z_of_byte b -> a = b.
Proof.
  intros H. rewrite <- (byte_of_Z_of_byte a), <- (byte_of_Z_of_byte b).
  now rewrite H.
Qed.

Lemma pack_i_length (n : Z) (b : bytes) : pack_i n = Some b -> length b = 4%nat.
Proof.
  unfold pack_i. destruct (_ && _); [|discriminate].
  intros [= <-]. reflexivity.
Qed.

Lemma pack_i_Some (n : Z) :
  - 2 ^ 31 <= n < 2 ^ 31 -> exists b, pack_i n = Some b.
Proof.
  intros H. unfold pack_i.
  destruct (- 2 ^ 31 <=? n) eqn:E1; [|lia].
  destruct (n <? 2 ^ 31) eqn:E2; [|lia].
  simpl. eauto.
Qed.

Lemma unpack_pack_i (n : Z) (b : bytes) : pack_i n = Some b -> unpack_i b = Some n.
Proof.
  unfold pack_i.
  destruct (- 2 ^ 31 <=? n) eqn:E1; [|discriminate].
  destruct (n <? 2 ^ 31) eqn:E2; [|discriminate].
  simpl. intros [= <-]. unfold unpack_i.
  rewrite !Z_of_byte_of_Z. f_equal.
  apply Z.leb_le in E1. apply Z.ltb_lt in E2.
  change (2 ^ 8) with 256. change (2 ^ 16) with 65536.
  change (2 ^ 24) with 16777216. change (2 ^ 31) with 2147483648 in *.
  change (2 ^ 32) with 4294967296.
  destruct (_ <? 2147483648) eqn:E3;
    [apply Z.ltb_lt in E3 | apply Z.ltb_ge in E3];
    Z.to_euclidean_division_equations; lia.
Qed.

Lemma unpack_i_inj (a b : bytes) (n : Z) :
  unpack_i a = Some n -> unpack_i b = Some n -> a = b.
Proof.
  destruct a as [|a0 [|a1 [|a2 [|a3 [|? ?]]]]]; try discriminate.
  destruct b as [|b0 [|b1 [|b2 [|b3 [|? ?]]]]]; try discriminate.
  unfold unpack_i.
  pose proof (Z_of_byte_range a0). pose proof (Z_of_byte_range a1).
  pose proof (Z_of_byte_range a2). pose proof (Z_of_byte_range a3).
  pose proof (Z_of_byte_range b0). pose proof (Z_of_byte_range b1).
  pose proof (Z_of_byte_range b2). pose proof (Z_of_byte_range b3).
  change (2 ^ 8) with 256. change (2 ^ 16) with 65536.
  change (2 ^ 24) with 16777216. change (2 ^ 31) with 2147483648.
  change (2 ^ 32) with 4294967296.
  intros [= Ha] [= Hb].
  assert (Z_of_byte a0 = Z_of_byte b0 /\ Z_of_byte a1 = Z_of_byte b1 /\
          Z_of_byte a2 = Z_of_byte b2 /\ Z_of_byte a3 = Z_of_byte b3)
    as (E0 & E1 & E2 & E3).
  { destruct (_ <? _) eqn:Ea in Ha; destruct (_ <? _) eqn:Eb in Hb;
      rewrite ?Z.ltb_lt, ?Z.ltb_ge in Ea, Eb; lia. }
  apply Z_of_byte_inj in E0, E1, E2, E3. congruence.
Qed.

(** ** Python slices with bounds in range *)

Lemma py_slice_to_nonneg {A} (l : list A) (k : Z) :
  0 <= k -> py_slice_to l k = take (Z.to_nat k) l.
Proof.
  intros Hk. unfold py_slice_to, py_slice, slice_index.
  destruct (0 <? 0) eqn:E0; [discriminate|].
  destruct (k <? 0) eqn:Ek; [apply Z.ltb_lt in Ek; lia|].
  rewrite (Z.min_l 0) by lia.
  change (Z.to_nat 0) with 0%nat. rewrite drop_0.
  destruct (Z.le_gt_cases k (Z.of_nat (length l))).
  - rewrite Z.min_l by lia. now rewrite Z.sub_0_r.
  - rewrite Z.min_r by lia. rewrite Z.sub_0_r, Nat2Z.id.
    rewrite !take_ge; [done|lia|lia].
Qed.

Lemma py_del_slice_to_nonneg {A} (l : list A) (k : Z) :
  0 <= k -> py_del_slice_to l k = drop (Z.to_nat k) l.
Proof.
  intros Hk. unfold py_del_slice_to, slice_index.
  destruct (k <? 0) eqn:Ek; [apply Z.ltb_lt in Ek; lia|].
  destruct (Z.le_gt_cases k (Z.of_nat (length l))).
  - now rewrite Z.min_l by lia.
  - rewrite Z.min_r by lia. rewrite Nat2Z.id.
    rewrite !drop_ge; [done|lia|lia].
Qed.

Lemma py_slice_nonneg {A} (l : list A) (a b : Z) :
  0 <= a <= b ->
  py_slice l a b = take (Z.to_nat (b - a)) (drop (Z.to_nat a) l).
Proof.
  intros Hab. unfold py_slice, slice_index.
  destruct (a <? 0) eqn:Ea; [apply Z.ltb_lt in Ea; lia|].
  destruct (b <? 0) eqn:Eb; [apply Z.ltb_lt in Eb; lia|].
  set (len := Z.of_nat (length l)).
  destruct (Z.le_gt_cases a len); destruct (Z.le_gt_cases b len).
  - rewrite !Z.min_l by lia. done.
  - rewrite (Z.min_l a) by lia. rewrite Z.min_r by lia.
    rewrite !take_ge by (rewrite length_drop; unfold len in *; lia). done.
  - lia.
  - rewrite !Z.min_r by lia. rewrite Z.sub_diag.
    rewrite (drop_ge l (Z.to_nat a)) by (unfold len in *; lia).
    rewrite take_nil. apply take_0.
Qed.

Lemma py_del_slice_to_length {A} (l : list A) (k : Z) :
  (length (py_del_slice_to l k) <= length l)%nat.
Proof. unfold py_del_slice_to. rewrite length_drop. lia. Qed.

(** ** UTF-8 *)

Lemma Z_of_byte_of_Z_small (z : Z) :
  0 <= z < 256 -> Z_of_byte (byte_of_Z z) = z.
Proof. intros Hz. rewrite Z_of_byte_of_Z. apply Z.mod_small. lia. Qed.

(** Decides the comparisons of the goal that linear arithmetic settles. *)
Ltac decide_comparisons :=
  repeat match goal with
    | |- context [?a <? ?b] =>
        first [ rewrite (proj2 (Z.ltb_lt a b)) by lia
              | rewrite (proj2 (Z.ltb_ge a b)) by lia ]
    | |- context [?a <=? ?b] =>
        first [ rewrite (proj2 (Z.leb_le a b)) by lia
              | rewrite (proj2 (Z.leb_gt a b)) by lia ]
    end.

Lemma utf8_decode_cons (b0 : byte) (r : bytes) :
  utf8_decode (b0 :: r) =
      let z0 := Z_of_byte b0 in
      if z0 <? 0x80 then option_map (cons z0) (utf8_decode r)
      else if z0 <? 0xC2 then None
      else if z0 <? 0xE0 then
        match r with
        | b1 :: r =>
            let c := (z0 - 0xC0) * 0x40 + (Z_of_byte b1 - 0x80) in
            if is_cont b1 then option_map (cons c) (utf8_decode r) else None
        | _ => None
        end
      else if z0 <? 0xF0 then
        match r with
        | b1 :: b2 :: r =>
            let c := (z0 - 0xE0) * 0x1000 + (Z_of_byte b1 - 0x80) * 0x40
                     + (Z_of_byte b2 - 0x80) in
            if is_cont b1 && is_cont b2 && (0x800 <=? c)
               && negb ((0xD800 <=? c) && (c <? 0xE000))
            then option_map (cons c) (utf8_decode r) else None
        | _ => None
        end
      else if z0 <? 0xF5 then
        match r with
        | b1 :: b2 :: b3 :: r =>
            let c := (z0 - 0xF0) * 0x40000 + (Z_of_byte b1 - 0x80) * 0x1000
                     + (Z_of_byte b2 - 0x80) * 0x40 + (Z_of_byte b3 - 0x80) in
            if is_cont b1 && is_cont b2 && is_cont b3
               && (0x10000 <=? c) && (c <? 0x110000)
            then option_map (cons c) (utf8_decode r) else None
        | _ => None
        end
      else None.
Proof. reflexivity. Qed.

(** What [str.encode] gives for one code point decodes to that code
    point. *)
Lemma utf8_decode_encode_char (c : Z) (bs r : bytes) :
  utf8_encode_char c = Some bs ->
  utf8_decode (bs ++ r) = option_map (cons c) (utf8_decode r).
Proof.
  unfold utf8_encode_char.
  destruct (Z.ltb_spec c 0); [discriminate|].
  destruct (Z.ltb_spec c 0x80).
  { intros [= <-]. cbn [app]. rewrite utf8_decode_cons. cbv zeta.
    rewrite Z_of_byte_of_Z_small by lia. decide_comparisons. done. }
  destruct (Z.ltb_spec c 0x800).
  { intros [= <-]. cbn [app]. rewrite utf8_decode_cons. cbv zeta.
    unfold is_cont.
    assert (0 <= c / 0x40 < 0x20 /\ 2 <= c / 0x40 /\ 0 <= c mod 0x40 < 0x40
            /\ c = 0x40 * (c / 0x40) + c mod 0x40) as (? & ? & ? & Hc)
      by (Z.to_euclidean_division_equations; lia).
    rewrite !Z_of_byte_of_Z_small by lia. decide_comparisons. simpl.
    replace ((0xC0 + c / 0x40 - 0xC0) * 0x40 + (0x80 + c mod 0x40 - 0x80))
      with c by lia.
    done. }
  destruct (Z.ltb_spec c 0x10000).
  { destruct (Z.leb_spec 0xD800 c), (Z.ltb_spec c 0xE000); simpl;
      try discriminate; try (exfalso; lia).
    all: intros [= <-]; cbn [app]; rewrite utf8_decode_cons; cbv zeta;
      unfold is_cont.
    all: assert (0 <= c / 0x1000 < 0x10 /\ 0 <= (c / 0x40) mod 0x40 < 0x40
                 /\ 0 <= c mod 0x40 < 0x40
                 /\ c = 0x1000 * (c / 0x1000) + 0x40 * ((c / 0x40) mod 0x40)
                        + c mod 0x40) as (? & ? & ? & Hc)
        by (Z.to_euclidean_division_equations; lia).
    all: rewrite !Z_of_byte_of_Z_small by lia.
    all: replace ((0xE0 + c / 0x1000 - 0xE0) * 0x1000
                  + (0x80 + (c / 0x40) mod 0x40 - 0x80) * 0x40
                  + (0x80 + c mod 0x40 - 0x80))
        with c by lia.
    all: decide_comparisons; simpl; done. }
  destruct (Z.ltb_spec c 0x110000); [|discriminate].
  intros [= <-]. cbn [app]. rewrite utf8_decode_cons. cbv zeta.
  unfold is_cont.
  assert (c / 0x1000 = c / 0x40 / 0x40) as E1
    by (rewrite Z.div_div by lia; reflexivity).
  assert (c / 0x40000 = c / 0x40 / 0x40 / 0x40) as E2
    by (rewrite !Z.div_div by lia; reflexivity).
  rewrite E1, E2.
  assert (0 <= c / 0x40 / 0x40 / 0x40 < 5
          /\ 0 <= (c / 0x40 / 0x40) mod 0x40 < 0x40
          /\ 0 <= (c / 0x40) mod 0x40 < 0x40
          /\ 0 <= c mod 0x40 < 0x40
          /\ c = 0x40000 * (c / 0x40 / 0x40 / 0x40)
                 + 0x1000 * ((c / 0x40 / 0x40) mod 0x40)
                 + 0x40 * ((c / 0x40) mod 0x40)
                 + c mod 0x40) as (? & ? & ? & ? & Hc).
  { pose proof (Z.div_mod c 0x40 ltac:(lia)).
    pose proof (Z.mod_pos_bound c 0x40 ltac:(lia)).
    pose proof (Z.div_mod (c / 0x40) 0x40 ltac:(lia)).
    pose proof (Z.mod_pos_bound (c / 0x40) 0x40 ltac:(lia)).
    pose proof (Z.div_mod (c / 0x40 / 0x40) 0x40 ltac:(lia)).
    pose proof (Z.mod_pos_bound (c / 0x40 / 0x40) 0x40 ltac:(lia)).
    lia. }
  rewrite !Z_of_byte_of_Z_small by lia.
  replace ((0xF0 + c / 0x40 / 0x40 / 0x40 - 0xF0) * 0x40000
           + (0x80 + (c / 0x40 / 0x40) mod 0x40 - 0x80) * 0x1000
           + (0x80 + (c / 0x40) mod 0x40 - 0x80) * 0x40
           + (0x80 + c mod 0x40 - 0x80))
    with c by lia.
  decide_comparisons. simpl. done.
Qed.

(** [s.encode("utf8").decode("utf8") == s] *)
Lemma utf8_decode_encode (s : str) (b : bytes) :
  utf8_encode s = Some b -> utf8_decode b = Some s.
Proof.
  revert b. induction s as [|c s IH]; intros b; simpl.
  - now intros [= <-].
  - destruct (utf8_encode_char c) as [a|] eqn:Ha; [|discriminate].
    destruct (utf8_encode s) as [b'|]; [|discriminate].
    intros [= <-]. rewrite (utf8_decode_encode_char c a b' Ha).
    now rewrite (IH b' eq_refl).
Qed.

Lemma byte_of_Z_eq (z : Z) (b : byte) : z = Z_of_byte b -> byte_of_Z z = b.
Proof. intros ->. apply byte_of_Z_of_byte. Qed.

(** Splits on the comparisons of the goal. *)
Ltac split_comparisons :=
  repeat match goal with
    | |- context [?a <? ?b] => destruct (Z.ltb_spec a b)
    | |- context [?a <=? ?b] => destruct (Z.leb_spec a b)
    end.

(** The decoder is strict: the bytes that decode to [s] are the bytes
    [s] encodes to. *)
Lemma utf8_encode_decode (b : bytes) (s : str) :
  utf8_decode b = Some s -> utf8_encode s = Some b.
Proof.
  remember (length b) as n eqn:Hn. revert b s Hn.
  induction n as [n IH] using lt_wf_ind. intros b s Hn.
  destruct b as [|b0 r]; [now intros [= <-]|].
  rewrite utf8_decode_cons. cbv zeta. simpl in Hn.
  pose proof (Z_of_byte_range b0) as R0.
  destruct (Z.ltb_spec (Z_of_byte b0) 0x80).
  { destruct (utf8_decode r) as [s'|] eqn:Hr; [|discriminate].
    intros [= <-]. cbn [utf8_encode].
    rewrite (IH (length r) ltac:(lia) r s' eq_refl Hr).
    unfold utf8_encode_char. decide_comparisons.
    now rewrite byte_of_Z_of_byte. }
  destruct (Z.ltb_spec (Z_of_byte b0) 0xC2); [discriminate|].
  destruct (Z.ltb_spec (Z_of_byte b0) 0xE0).
  { destruct r as [|b1 r]; [discriminate|]. simpl in Hn.
    pose proof (Z_of_byte_range b1) as R1.
    unfold is_cont. split_comparisons; simpl; try discriminate;
      try (exfalso; lia).
    destruct (utf8_decode r) as [s'|] eqn:Hr; [|discriminate].
    intros [= <-]. cbn [utf8_encode].
    rewrite (IH (length r) ltac:(lia) r s' eq_refl Hr).
    unfold utf8_encode_char. decide_comparisons.
    cbn [app]. repeat f_equal; apply byte_of_Z_eq;
      Z.to_euclidean_division_equations; lia. }
  destruct (Z.ltb_spec (Z_of_byte b0) 0xF0).
  { destruct r as [|b1 [|b2 r]]; try discriminate. simpl in Hn.
    pose proof (Z_of_byte_range b1) as R1.
    pose proof (Z_of_byte_range b2) as R2.
    unfold is_cont. split_comparisons; simpl; try discriminate;
      try (exfalso; lia).
    all: destruct (utf8_decode r) as [s'|] eqn:Hr; [|discriminate].
    all: intros [= <-]; cbn [utf8_encode].
    all: rewrite (IH (length r) ltac:(lia) r s' eq_refl Hr).
    all: unfold utf8_encode_char; decide_comparisons; simpl.
    all: repeat f_equal; apply byte_of_Z_eq;
      Z.to_euclidean_division_equations; lia. }
  destruct (Z.ltb_spec (Z_of_byte b0) 0xF5); [|discriminate].
  destruct r as [|b1 [|b2 [|b3 r]]]; try discriminate. simpl in Hn.
  pose proof (Z_of_byte_range b1) as R1.
  pose proof (Z_of_byte_range b2) as R2.
  pose proof (Z_of_byte_range b3) as R3.
  unfold is_cont. split_comparisons; simpl; try discriminate;
      try (exfalso; lia).
  destruct (utf8_decode r) as [s'|] eqn:Hr; [|discriminate].
  intros [= <-]. cbn [utf8_encode].
  rewrite (IH (length r) ltac:(lia) r s' eq_refl Hr).
  unfold utf8_encode_char. decide_comparisons. simpl.
  repeat f_equal; apply byte_of_Z_eq; Z.to_euclidean_division_equations; lia.
Qed.

(** [b.decode("utf8") == s] exactly when [s.encode("utf8") == b]. *)
Lemma utf8_decode_iff_encode (b : bytes) (s : str) :
  utf8_decode b = Some s <-> utf8_encode s = Some b.
Proof. split; [apply utf8_encode_decode | apply utf8_decode_encode]. Qed.

(** ** The sorted set *)

Section SortedSetFacts.
Context {A : Type} `{EqDecision A} (key : A -> Z).

Lemma Forall_insort (P : A -> Prop) (x : A) (l : list A) :
  P x -> Forall P l -> Forall P (insort key x l).
Proof using Type.
  intros Hx Hl. induction Hl as [|y l Hy Hl IH]; simpl.
  - now constructor.
  - destruct (key x <? key y); repeat constructor; done.
Qed.

(** [add] keeps the list in key order. *)
Lemma insort_sorted (x : A) (l : list A) :
  StronglySorted (fun a b => key a <= key b) l ->
  StronglySorted (fun a b => key a <= key b) (insort key x l).
Proof using Type.
  induction 1 as [|y l Hl IH Hy]; simpl.
  - repeat constructor.
  - destruct (Z.ltb_spec (key x) (key y)).
    + constructor; [now constructor|]. constructor; [lia|].
      eapply Forall_impl; [exact Hy|]. simpl. lia.
    + constructor; [exact IH|]. now apply Forall_insort.
Qed.

(** Where [add] puts a new value: behind every member whose key is not
    greater, in front of the members whose key is greater. *)
Lemma insort_split (x : A) (l : list A) :
  StronglySorted (fun a b => key a <= key b) l ->
  exists l1 l2,
    l = l1 ++ l2 /\ insort key x l = l1 ++ x :: l2 /\
    Forall (fun y => key y <= key x) l1 /\
    Forall (fun y => key x < key y) l2.
Proof using Type.
  induction 1 as [|y l Hl IH Hy]; simpl.
  - exists [], []. repeat split; constructor.
  - destruct (Z.ltb_spec (key x) (key y)).
    + exists [], (y :: l). repeat split; [constructor|].
      constructor; [lia|]. eapply Forall_impl; [exact Hy|]. simpl. lia.
    + destruct IH as (l1 & l2 & -> & -> & H1 & H2).
      exists (y :: l1), l2. repeat split; [|done]. now constructor.
Qed.

Lemma elem_of_insort (x y : A) (l : list A) :
  y ∈ insort key x l <-> y = x \/ y ∈ l.
Proof using Type.
  induction l as [|z l IH]; simpl.
  - rewrite list_elem_of_singleton. split; [now left|].
    intros [?|H0]; [done|]. now apply elem_of_nil in H0.
  - destruct (key x <? key z).
    + now rewrite elem_of_cons.
    + rewrite !elem_of_cons, IH. split; intros; intuition.
Qed.

Lemma elem_of_SortedSet_add (x y : A) (l : list A) :
  y ∈ SortedSet_add key x l <-> y = x \/ y ∈ l.
Proof using Type.
  unfold SortedSet_add. case_bool_decide as Hx.
  - split; [now right|]. intros [->|?]; done.
  - apply elem_of_insort.
Qed.

Lemma SortedSet_add_sorted (x : A) (l : list A) :
  StronglySorted (fun a b => key a <= key b) l ->
  StronglySorted (fun a b => key a <= key b) (SortedSet_add key x l).
Proof using Type.
  intros Hl. unfold SortedSet_add. case_bool_decide; [done|].
  now apply insort_sorted.
Qed.

(** The set holds no value twice. *)
Lemma SortedSet_add_NoDup (x : A) (l : list A) :
  NoDup l -> NoDup (SortedSet_add key x l).
Proof using Type.
  intros Hl. unfold SortedSet_add. case_bool_decide as Hx; [done|].
  clear -Hl Hx. induction Hl as [|y l Hy Hl IH]; simpl.
  - apply NoDup_singleton.
  - destruct (key x <? key y).
    + constructor; [done|]. now constructor.
    + apply not_elem_of_cons in Hx as [Hxy Hx].
      constructor; [|now apply IH].
      rewrite elem_of_insort. intros [->|?]; done.
Qed.

End SortedSetFacts.

(** ** The frame codec *)

Module MessageBufferFacts.
Import MessageBuffer.

Lemma read_prefix_measure (self self' : t) :
  read_prefix self = inl self' ->
  (curMessageLen self' = None -> curMessageLen self = None /\ self' = self) /\
  (measure self' <= measure self)%nat /\
  (curMessageLen self = None -> curMessageLen self' <> None ->
   (length (buffer self') + 4 <= length (buffer self))%nat).
Proof.
  unfold read_prefix, measure. destruct self as [buf me ex cur]; simpl.
  destruct cur as [n|].
  - intros [= <-]; simpl. split; [discriminate|]. split; [lia|]. discriminate.
  - destruct (_ >=? _) eqn:E.
    + destruct (unpack_i _); [|discriminate]. intros [= <-]; simpl.
      unfold MESSAGE_LEN_BYTES in *.
      rewrite py_del_slice_to_nonneg by lia. rewrite length_drop.
      apply Z.geb_le in E.
      split; [discriminate|]. split; [lia|]. intros _ _. lia.
    + intros [= <-]; simpl. split; [done|]. split; [lia|]. congruence.
Qed.

Lemma take_message_continue (self self' : t) (m m' : list bytes) :
  take_message self m = Continue self' m' ->
  curMessageLen self <> None /\ curMessageLen self' = None /\
  (length (buffer self') <= length (buffer self))%nat.
Proof.
  unfold take_message. destruct self as [buf me ex cur]; simpl.
  destruct cur as [n|]; [|discriminate].
  destruct ex.
  - destruct (_ >=? _); [|discriminate].
    destruct (unpack_i _); [|discriminate].
    destruct (negb _); [discriminate|].
    intros [= <- <-]; simpl. split; [discriminate|]. split; [done|].
    apply py_del_slice_to_length.
  - destruct (_ >=? _); [|discriminate].
    intros [= <- <-]; simpl. split; [discriminate|]. split; [done|].
    apply py_del_slice_to_length.
Qed.

Lemma write_iter_continue (self self' : t) (m m' : list bytes) :
  write_iter self m = Continue self' m' -> (measure self' < measure self)%nat.
Proof.
  unfold write_iter. destruct (read_prefix self) as [s1|e] eqn:E1; [|discriminate].
  intros E2. apply take_message_continue in E2 as (Hc1 & Hc' & Hlen).
  apply read_prefix_measure in E1 as (_ & Hm & Hstrict).
  unfold measure in *. rewrite Hc'.
  destruct (curMessageLen self) eqn:Ec.
  - destruct (curMessageLen s1); [lia|done].
  - specialize (Hstrict eq_refl Hc1). lia.
Qed.

Lemma write_loop_total (fuel : nat) (self : t) (m : list bytes) :
  (measure self < fuel)%nat -> is_Some (write_loop fuel self m).
Proof.
  revert self m. induction fuel as [|fuel IH]; intros self m Hm; [lia|].
  simpl. destruct (write_iter self m) as [s' m'| |] eqn:E; [|eauto..].
  apply IH. apply write_iter_continue in E. lia.
Qed.

(** [write] always comes back: with a list of messages or an exception. *)
Lemma write_total (self : t) (b : bytes) : is_Some (write self b).
Proof.
  unfold write. apply write_loop_total. unfold measure. simpl.
  destruct (curMessageLen self); lia.
Qed.

(** *** Decoding one frame, however it is cut into chunks *)

Section OneFrame.
Variables (p : bytes) (flag : bool) (prefix : bytes).
Hypothesis Hprefix : pack_i (Z.of_nat (length p)) = Some prefix.

Let n : Z := Z.of_nat (length p).
Let body : bytes := p ++ (if flag then prefix else []).
Let frame : bytes := prefix ++ body.

Lemma prefix_length : length prefix = 4%nat.
Proof using Hprefix. exact (pack_i_length _ _ Hprefix). Qed.

Lemma body_length :
  length body = (length p + (if flag then 4 else 0))%nat.
Proof using Hprefix.
  unfold body. rewrite length_app. destruct flag; simpl; [|lia].
  now rewrite prefix_length.
Qed.

Lemma frame_length : length frame = (4 + length body)%nat.
Proof using Hprefix. unfold frame. now rewrite length_app, prefix_length. Qed.

Lemma encode_frame : encode p flag = Some frame.
Proof using Hprefix.
  unfold encode, frame, body. rewrite Hprefix.
  destruct flag; [now rewrite <- app_assoc | now rewrite app_nil_r].
Qed.

(** Appending the next chunk of the frame and reading the prefix if it is
    complete gives the state [after (j + length c)]. *)
Lemma read_prefix_after (j : nat) (me : Z) (c : bytes) :
  c = take (length c) (drop j frame) ->
  (j + length c <= length frame)%nat ->
  read_prefix (set_buffer (after p flag prefix j me) (buffer (after p flag prefix j me) ++ c))
  = inl (after p flag prefix (j + length c) me).
Proof using Hprefix.
  intros Hc Hlen. pose proof prefix_length as Hp4.
  unfold read_prefix, after, set_buffer; simpl; fold body.
  destruct (j <? 4)%nat eqn:Ej.
  - apply Nat.ltb_lt in Ej.
    assert (take j prefix ++ c = take (j + length c) frame) as Hbuf.
    { rewrite Hc at 1. rewrite <- take_take_drop. f_equal.
      unfold frame. rewrite take_app_le by lia. done. }
    rewrite Hbuf. rewrite length_take.
    destruct (j + length c <? 4)%nat eqn:Ej'.
    + apply Nat.ltb_lt in Ej'.
      destruct (_ >=? _) eqn:E;
        [apply Z.geb_le in E; unfold MESSAGE_LEN_BYTES in E; lia|].
      f_equal. f_equal. unfold frame. rewrite take_app_le by lia. done.
    + apply Nat.ltb_ge in Ej'.
      destruct (_ >=? _) eqn:E;
        [|rewrite Z.geb_leb in E; apply Z.leb_gt in E;
          unfold MESSAGE_LEN_BYTES in E; lia].
      unfold MESSAGE_LEN_BYTES.
      rewrite py_slice_to_nonneg, py_del_slice_to_nonneg by lia.
      change (Z.to_nat 4) with 4%nat.
      rewrite take_take, Nat.min_l by lia.
      assert (take 4 frame = prefix) as ->.
      { unfold frame. rewrite <- Hp4. apply take_app_length. }
      rewrite (unpack_pack_i _ _ Hprefix). fold n.
      f_equal. f_equal.
      unfold frame. rewrite take_app, Hp4, drop_app.
      rewrite length_take, Hp4, Nat.min_r by lia.
      rewrite drop_ge by (rewrite length_take; lia).
      rewrite Nat.sub_diag, drop_0. done.
  - apply Nat.ltb_ge in Ej.
    destruct (j + length c <? 4)%nat eqn:Ej'; [apply Nat.ltb_lt in Ej'; lia|].
    f_equal. f_equal.
    rewrite Hc at 1. unfold frame.
    rewrite drop_app_ge by lia. rewrite Hp4.
    rewrite take_take_drop. f_equal. lia.
Qed.

(** Short of the whole frame the decoder waits. *)
Lemma take_message_after_mid (j : nat) (me : Z) (m : list bytes) :
  (j < length frame)%nat ->
  take_message (after p flag prefix j me) m = Return (after p flag prefix j me) m.
Proof using Hprefix.
  intros Hj. rewrite frame_length, body_length in Hj.
  unfold take_message, after; simpl; fold body; fold n.
  destruct (j <? 4)%nat eqn:Ej; [done|]. apply Nat.ltb_ge in Ej.
  rewrite length_take, body_length. unfold MESSAGE_LEN_BYTES, n.
  destruct flag.
  - destruct (_ >=? _) eqn:E; [apply Z.geb_le in E; lia|done].
  - destruct (_ >=? _) eqn:E; [apply Z.geb_le in E; lia|done].
Qed.

(** With the whole frame in, the payload comes out and the decoder is
    back at a frame boundary. *)
Lemma take_message_after_full (me : Z) (m : list bytes) :
  take_message (after p flag prefix (length frame) me) m
  = Continue (after p flag prefix 0 (me + 1)) (m ++ [p]).
Proof using Hprefix.
  pose proof prefix_length as Hp4. pose proof body_length as Hb.
  unfold take_message, after; simpl; fold body; fold n. rewrite frame_length.
  destruct (4 + length body <? 4)%nat eqn:Ej; [apply Nat.ltb_lt in Ej; lia|].
  replace (4 + length body - 4)%nat with (length body) by lia.
  rewrite take_ge by lia. unfold MESSAGE_LEN_BYTES, n.
  rewrite Hb. destruct flag.
  - destruct (_ >=? _) eqn:E;
      [|rewrite Z.geb_leb in E; apply Z.leb_gt in E; lia].
    unfold incr_messagesEver, set_buffer, set_curMessageLen; simpl.
    rewrite py_slice_to_nonneg, py_slice_nonneg, py_del_slice_to_nonneg by lia.
    rewrite Nat2Z.id.
    replace (Z.to_nat (Z.of_nat (length p) + 4 - Z.of_nat (length p)))
      with 4%nat by lia.
    replace (Z.to_nat (Z.of_nat (length p) + 4))
      with (length p + 4)%nat by lia.
    unfold body. rewrite take_app_length, drop_app_length.
    rewrite take_ge by lia.
    rewrite (unpack_pack_i _ _ Hprefix), Z.eqb_refl. simpl.
    rewrite drop_ge by (rewrite length_app; lia). done.
  - destruct (_ >=? _) eqn:E;
      [|rewrite Z.geb_leb in E; apply Z.leb_gt in E; lia].
    unfold incr_messagesEver, set_buffer, set_curMessageLen; simpl.
    rewrite py_slice_to_nonneg, py_del_slice_to_nonneg by lia.
    rewrite Nat2Z.id. unfold body. rewrite app_nil_r.
    rewrite take_ge, drop_ge by lia. done.
Qed.

Lemma write_after_mid (j : nat) (me : Z) (c : bytes) :
  c = take (length c) (drop j frame) ->
  (j + length c < length frame)%nat ->
  write (after p flag prefix j me) c = Some (after p flag prefix (j + length c) me, Returned []).
Proof using Hprefix.
  intros Hc Hlen. unfold write. cbn [write_loop]. unfold write_iter.
  rewrite read_prefix_after by (done || lia).
  now rewrite take_message_after_mid.
Qed.

Lemma write_after_full (j : nat) (me : Z) (c : bytes) :
  c = drop j frame ->
  (j < length frame)%nat ->
  write (after p flag prefix j me) c = Some (after p flag prefix 0 (me + 1), Returned [p]).
Proof using Hprefix.
  intros Hc Hlen.
  assert (length c = length frame - j)%nat as Hcl
    by (rewrite Hc, length_drop; done).
  unfold write. cbn [write_loop]. unfold write_iter at 1.
  rewrite read_prefix_after.
  2: { rewrite Hcl, <- Hc. rewrite take_ge; [done|rewrite Hc, length_drop; lia]. }
  2: lia.
  replace (j + length c)%nat with (length frame) by lia.
  rewrite take_message_after_full. unfold write_iter.
  assert (read_prefix (after p flag prefix 0 (me + 1)) = inl (after p flag prefix 0 (me + 1))) as ->.
  { unfold read_prefix, after; simpl. done. }
  rewrite take_message_after_mid by (rewrite frame_length; lia). done.
Qed.

Lemma feed_after_idle (me : Z) (chunks : list bytes) :
  concat chunks = [] ->
  feed (after p flag prefix 0 me) chunks = Some (after p flag prefix 0 me, Returned []).
Proof using Hprefix.
  induction chunks as [|c cs IH]; intros Hcat; [done|].
  simpl in Hcat. apply app_eq_nil in Hcat as [-> Hcs].
  cbn [feed]. rewrite write_after_mid; [| done | rewrite frame_length; simpl; lia].
  simpl. now rewrite IH.
Qed.

Lemma feed_after (chunks : list bytes) (j : nat) (me : Z) :
  (j < length frame)%nat ->
  concat chunks = drop j frame ->
  feed (after p flag prefix j me) chunks = Some (after p flag prefix 0 (me + 1), Returned [p]).
Proof using Hprefix.
  revert j. induction chunks as [|c cs IH]; intros j Hj Hcat.
  - simpl in Hcat. symmetry in Hcat. apply drop_nil_inv in Hcat. lia.
  - simpl in Hcat.
    assert (length c + length (concat cs) = length frame - j)%nat as Hl
      by (rewrite <- length_app, Hcat, length_drop; done).
    assert (c = take (length c) (drop j frame)) as Hc
      by (rewrite <- Hcat, take_app_length; done).
    assert (concat cs = drop (j + length c) frame) as Hcs
      by (rewrite <- drop_drop, <- Hcat, drop_app_length; done).
    cbn [feed].
    destruct (decide (j + length c < length frame)%nat) as [Hlt|Hge].
    + rewrite write_after_mid by done. rewrite (IH _ Hlt Hcs). done.
    + rewrite write_after_full; [| |done].
      2: { rewrite Hc at 1. rewrite take_ge; [done|rewrite length_drop; lia]. }
      rewrite feed_after_idle; [done|].
      rewrite Hcs. apply drop_ge. lia.
Qed.

End OneFrame.

(** C2. Round trip of the frame codec: a payload shorter than 2^31 bytes
    is encodable with either setting of the size-check flag, and the
    encoded frame, cut in any way into successive [write] calls on a
    fresh [MessageBuffer], comes back as exactly the one payload, with no
    exception, leaving an empty buffer at a frame boundary. *)
Theorem encode_write_roundtrip (p : bytes) (flag : bool) :
  Z.of_nat (length p) < 2 ^ 31 ->
  exists frame,
    encode p flag = Some frame /\
    forall chunks, concat chunks = frame ->
      exists self,
        feed (init flag) chunks = Some (self, Returned [p]) /\
        buffer self = [] /\ curMessageLen self = None /\
        messagesEver self = 1.
Proof.
  intros Hlen.
  destruct (pack_i_Some (Z.of_nat (length p))) as [prefix Hprefix]; [lia|].
  exists (prefix ++ p ++ (if flag then prefix else [])).
  split; [exact (encode_frame p flag prefix Hprefix)|].
  intros chunks Hcat. exists (after p flag prefix 0 1). split; [|done].
  change (init flag) with (after p flag prefix 0 0).
  apply (feed_after p flag prefix Hprefix chunks 0 0).
  - rewrite frame_length by done. lia.
  - now rewrite drop_0.
Qed.

(** A two-byte payload, size check on. *)
Lemma encode_write_roundtrip_witness :
  exists frame,
    encode [x61; x62] true = Some frame /\
    forall chunks, concat chunks = frame ->
      exists self,
        feed (init true) chunks = Some (self, Returned [[x61; x62]]) /\
        buffer self = [] /\ curMessageLen self = None /\
        messagesEver self = 1.
Proof. apply (encode_write_roundtrip [x61; x62] true). simpl. lia. Defined.

(** *** Whole frames at the head of the buffer *)

Lemma unpack_i_length (b : bytes) (n : Z) :
  unpack_i b = Some n -> length b = 4%nat.
Proof.
  destruct b as [|b0 [|b1 [|b2 [|b3 [|? ?]]]]]; try discriminate. done.
Qed.

(** One pass over a buffer that starts with a whole size-checked frame:
    the frame leaves the buffer and is counted before its trailing length
    is compared with the leading one. *)
Lemma write_iter_frame (me : Z) (q prefix trailer rest : bytes) (sc : Z)
    (m : list bytes) :
  pack_i (Z.of_nat (length q)) = Some prefix ->
  unpack_i trailer = Some sc ->
  write_iter {| buffer := prefix ++ q ++ trailer ++ rest;
                messagesEver := me;
                extraMessageSizeCheck := true;
                curMessageLen := None |} m
  = let self := {| buffer := rest; messagesEver := me + 1;
                   extraMessageSizeCheck := true;
                   curMessageLen := None |} in
    if sc =? Z.of_nat (length q) then Continue self (m ++ [q])
    else Raise self (CorruptMessageStream sc (Z.of_nat (length q))).
Proof.
  intros Hprefix Htrailer.
  pose proof (pack_i_length _ _ Hprefix) as Hp4.
  pose proof (unpack_i_length _ _ Htrailer) as Ht4.
  unfold write_iter, read_prefix; simpl.
  rewrite length_app, Hp4. unfold MESSAGE_LEN_BYTES.
  rewrite (proj2 (Z.geb_le _ _)) by lia.
  rewrite py_slice_to_nonneg, py_del_slice_to_nonneg by lia.
  change (Z.to_nat 4) with 4%nat.
  rewrite take_app_length', drop_app_length' by done.
  rewrite (unpack_pack_i _ _ Hprefix).
  unfold take_message, set_buffer, set_curMessageLen, incr_messagesEver; simpl.
  rewrite !length_app, Ht4. unfold MESSAGE_LEN_BYTES.
  rewrite (proj2 (Z.geb_le _ _)) by lia.
  rewrite py_slice_to_nonneg, py_slice_nonneg, py_del_slice_to_nonneg by lia.
  rewrite Nat2Z.id.
  replace (Z.to_nat (Z.of_nat (length q) + 4 - Z.of_nat (length q)))
    with 4%nat by lia.
  replace (Z.to_nat (Z.of_nat (length q) + 4))
    with (length q + 4)%nat by lia.
  rewrite take_app_length, drop_app_length.
  rewrite take_app_length' by done. rewrite Htrailer.
  rewrite <- drop_drop, drop_app_length.
  rewrite drop_app_length' by done.
  destruct (sc =? Z.of_nat (length q)); done.
Qed.

Lemma encode_all_length (ps : list bytes) (flag : bool) (stream : bytes) :
  encode_all ps flag = Some stream -> (length ps <= length stream)%nat.
Proof.
  revert stream. induction ps as [|p ps IH]; intros stream; simpl; [lia|].
  unfold encode.
  destruct (pack_i _) as [prefix|] eqn:Hp; [|discriminate].
  apply pack_i_length in Hp.
  destruct (encode_all ps flag) as [fs|]; [|destruct flag; discriminate].
  specialize (IH _ eq_refl).
  destruct flag; intros [= <-]; rewrite !length_app; lia.
Qed.

(** The loop hands out every whole frame at the head of the buffer. *)
Lemma write_loop_frames (ps : list bytes) :
  forall (stream rest : bytes) (fuel : nat) (me : Z) (m : list bytes),
    encode_all ps true = Some stream ->
    write_loop (length ps + fuel)
      {| buffer := stream ++ rest; messagesEver := me;
         extraMessageSizeCheck := true; curMessageLen := None |} m
    = write_loop fuel
        {| buffer := rest; messagesEver := me + Z.of_nat (length ps);
           extraMessageSizeCheck := true; curMessageLen := None |} (m ++ ps).
Proof.
  induction ps as [|p ps IH]; intros stream rest fuel me m; simpl.
  - intros [= <-]. simpl. now rewrite Z.add_0_r, app_nil_r.
  - unfold encode.
    destruct (pack_i _) as [prefix|] eqn:Hp; [|discriminate].
    destruct (encode_all ps true) as [fs|] eqn:Hfs; [|discriminate].
    intros [= <-].
    replace (((prefix ++ p) ++ prefix) ++ fs) with (prefix ++ p ++ prefix ++ fs)
      by (now rewrite <- !app_assoc).
    rewrite <- !app_assoc.
    rewrite (write_iter_frame me p prefix prefix (fs ++ rest)
               (Z.of_nat (length p)) m Hp (unpack_pack_i _ _ Hp)).
    simpl. rewrite Z.eqb_refl.
    rewrite (IH fs rest fuel (me + 1) (m ++ [p]) eq_refl).
    rewrite <- app_assoc. simpl.
    replace (me + 1 + Z.of_nat (length ps)) with (me + Z.of_nat (S (length ps))) by lia. done.
Qed.




(** *** Bit flips in the length fields *)

Lemma flip_bit_spec (b : byte) (j : Z) :
  0 <= j < 8 ->
  Z_of_byte (flip_bit b j)
  = if Z.testbit (Z_of_byte b) j then Z_of_byte b - 2 ^ j
    else Z_of_byte b + 2 ^ j.
Proof.
  intros Hj.
  assert (j = 0 \/ j = 1 \/ j = 2 \/ j = 3 \/ j = 4 \/ j = 5 \/ j = 6 \/ j = 7)
    as Hc by lia.
  destruct Hc as [->|[->|[->|[->|[->|[->|[->| ->]]]]]]];
    destruct b; vm_compute; reflexivity.
Qed.

Lemma flip_bit_neq (b : byte) (j : Z) : 0 <= j < 8 -> flip_bit b j <> b.
Proof.
  intros Hj E. pose proof (flip_bit_spec b j Hj) as H. rewrite E in H.
  assert (0 < 2 ^ j) by (apply Z.pow_pos_nonneg; lia).
  destruct (Z.testbit _ _); lia.
Qed.

(** A bit set below the sign bit keeps a non-negative byte 3 below 128. *)
Lemma flip_bit_low (b : byte) (j : Z) :
  0 <= j < 7 -> Z_of_byte b < 128 -> Z.testbit (Z_of_byte b) j = false ->
  Z_of_byte b + 2 ^ j < 128.
Proof.
  intros Hj.
  assert (j = 0 \/ j = 1 \/ j = 2 \/ j = 3 \/ j = 4 \/ j = 5 \/ j = 6)
    as Hc by lia.
  destruct Hc as [->|[->|[->|[->|[->|[->| ->]]]]]];
    destruct b; vm_compute; intros; first [reflexivity | discriminate].
Qed.

Lemma flip_bit_at_neq (l : bytes) (i : nat) (j : Z) :
  0 <= j < 8 -> (i < length l)%nat -> flip_bit_at l i j <> l.
Proof.
  intros Hj Hi E. unfold flip_bit_at in E.
  destruct (lookup_lt_is_Some_2 l i Hi) as [b Hb].
  assert (alter (λ b, flip_bit b j) i l !! i = Some (flip_bit b j)) as H.
  { rewrite list_lookup_alter_eq, Hb. done. }
  rewrite E, Hb in H. injection H as H. symmetry in H.
  exact (flip_bit_neq b j Hj H).
Qed.

(** A flipped length field still decodes, to another length. *)
Lemma unpack_flip (prefix : bytes) (n : Z) (i : nat) (j : Z) :
  unpack_i prefix = Some n -> (i < 4)%nat -> 0 <= j < 8 ->
  exists sc, unpack_i (flip_bit_at prefix i j) = Some sc /\ sc <> n.
Proof.
  intros Hn Hi Hj. pose proof (unpack_i_length _ _ Hn) as H4.
  destruct (unpack_i (flip_bit_at prefix i j)) as [sc|] eqn:E.
  - exists sc. split; [done|]. intros ->.
    apply (flip_bit_at_neq prefix i j Hj); [lia|].
    exact (unpack_i_inj _ _ _ E Hn).
  - exfalso. destruct prefix as [|b0 [|b1 [|b2 [|b3 [|? ?]]]]]; try discriminate.
    destruct i as [|[|[|[|?]]]]; try lia; discriminate.
Qed.

(** A bit that goes from 0 to 1, the sign bit apart, announces more. *)
Lemma unpack_flip_raise (prefix : bytes) (n : Z) (i : nat) (j : Z) (b : byte) :
  unpack_i prefix = Some n -> 0 <= n -> (i < 4)%nat -> 0 <= j < 8 ->
  prefix !! i = Some b -> Z.testbit (Z_of_byte b) j = false ->
  ~ (i = 3%nat /\ j = 7) ->
  exists n', unpack_i (flip_bit_at prefix i j) = Some n' /\ n < n'.
Proof.
  intros Hn Hn0 Hi Hj Hb Hbit Hsign.
  destruct prefix as [|b0 [|b1 [|b2 [|b3 [|? ?]]]]]; try discriminate.
  pose proof (flip_bit_spec b j Hj) as Hf. rewrite Hbit in Hf.
  pose proof (Z_of_byte_range (flip_bit b j)) as Hr.
  assert (0 < 2 ^ j) as Hpos by (apply Z.pow_pos_nonneg; lia).
  pose proof (Z_of_byte_range b0). pose proof (Z_of_byte_range b1).
  pose proof (Z_of_byte_range b2). pose proof (Z_of_byte_range b3).
  unfold unpack_i in Hn. injection Hn as Hn.
  change (2 ^ 8) with 256 in *. change (2 ^ 16) with 65536 in *.
  change (2 ^ 24) with 16777216 in *. change (2 ^ 31) with 2147483648 in *.
  change (2 ^ 32) with 4294967296 in *.
  destruct (_ <? 2147483648) eqn:Eu in Hn;
    [apply Z.ltb_lt in Eu | apply Z.ltb_ge in Eu; lia].
  destruct i as [|[|[|[|?]]]]; try lia; simpl in Hb; injection Hb as ->;
    unfold flip_bit_at; simpl; unfold unpack_i;
    change (2 ^ 8) with 256; change (2 ^ 16) with 65536;
    change (2 ^ 24) with 16777216; change (2 ^ 31) with 2147483648;
    change (2 ^ 32) with 4294967296;
    eexists; (split; [reflexivity|]); rewrite Hf.
  1-3: destruct (_ <? 2147483648) eqn:Eu';
    [apply Z.ltb_lt in Eu' | apply Z.ltb_ge in Eu']; lia.
  assert (j < 7) as Hj7 by (destruct (decide (j = 7)); [tauto|lia]).
  pose proof (flip_bit_low b j ltac:(lia) ltac:(lia) Hbit).
  destruct (_ <? 2147483648) eqn:Eu';
    [apply Z.ltb_lt in Eu' | apply Z.ltb_ge in Eu']; lia.
Qed.

(** One pass over a buffer that holds a length and too few bytes for it. *)
Lemma write_iter_short (me : Z) (pre rest : bytes) (n' : Z) (m : list bytes) :
  unpack_i pre = Some n' ->
  Z.of_nat (length rest) < n' + 4 ->
  write_iter {| buffer := pre ++ rest; messagesEver := me;
                extraMessageSizeCheck := true; curMessageLen := None |} m
  = Return {| buffer := rest; messagesEver := me;
              extraMessageSizeCheck := true;
              curMessageLen := Some n' |} m.
Proof.
  intros Hpre Hlen. pose proof (unpack_i_length _ _ Hpre) as H4.
  unfold write_iter, read_prefix; simpl.
  rewrite length_app, H4. unfold MESSAGE_LEN_BYTES.
  rewrite (proj2 (Z.geb_le _ _)) by lia.
  rewrite py_slice_to_nonneg, py_del_slice_to_nonneg by lia.
  change (Z.to_nat 4) with 4%nat.
  rewrite take_app_length', drop_app_length' by done.
  rewrite Hpre.
  unfold take_message, set_buffer, set_curMessageLen; simpl.
  unfold MESSAGE_LEN_BYTES.
  destruct (_ >=? _) eqn:E; [apply Z.geb_le in E; lia|done].
Qed.

(** C5, as the code has it. With the size check on and a payload shorter
    than 2^31 bytes, inverting any one bit of the trailing length field
    makes [write] raise [CorruptMessageStream]. Inverting a bit of the
    leading length field that was 0 (the sign bit apart) raises nothing:
    the decoder now expects a longer payload than the buffer holds, so
    the call returns no message and waits for more bytes. *)
Theorem length_flip_detection (p frame : bytes) (i : nat) (j : Z) :
  Z.of_nat (length p) < 2 ^ 31 -> (i < 4)%nat -> 0 <= j < 8 ->
  encode p true = Some frame ->
  (exists self sc,
     write (init true) (flip_bit_at frame (4 + length p + i) j)
     = Some (self, Raised (CorruptMessageStream sc (Z.of_nat (length p))))
     /\ sc <> Z.of_nat (length p))
  /\
  (forall b, frame !! i = Some b -> Z.testbit (Z_of_byte b) j = false ->
     ~ (i = 3%nat /\ j = 7) ->
     exists self n',
       write (init true) (flip_bit_at frame i j) = Some (self, Returned [])
       /\ curMessageLen self = Some n' /\ Z.of_nat (length p) < n'
       /\ messagesEver self = 0).
Proof.
  intros Hlen Hi Hj. unfold encode.
  destruct (pack_i _) as [prefix|] eqn:Hp; [|discriminate].
  intros [= <-].
  pose proof (pack_i_length _ _ Hp) as H4.
  pose proof (unpack_pack_i _ _ Hp) as Hu.
  split.
  - destruct (unpack_flip prefix _ i j Hu Hi Hj) as (sc & Hsc & Hne).
    exists {| buffer := []; messagesEver := 1;
              extraMessageSizeCheck := true; curMessageLen := None |}, sc.
    split; [|done].
    assert (flip_bit_at ((prefix ++ p) ++ prefix) (4 + length p + i) j
            = prefix ++ p ++ flip_bit_at prefix i j ++ []) as ->.
    { unfold flip_bit_at. rewrite app_nil_r, <- app_assoc.
      replace (4 + length p + i)%nat with (length prefix + (length p + i))%nat
        by lia.
      rewrite !alter_app_r. done. }
    unfold write, init, set_buffer.
    cbn [buffer messagesEver extraMessageSizeCheck curMessageLen app write_loop].
    rewrite (write_iter_frame 0 p prefix _ [] sc [] Hp Hsc).
    simpl. apply Z.eqb_neq in Hne. rewrite Hne. done.
  - intros b Hb Hbit Hsign.
    rewrite <- app_assoc in Hb. rewrite lookup_app_l in Hb by lia.
    destruct (unpack_flip_raise prefix _ i j b Hu ltac:(lia) Hi Hj Hb Hbit Hsign)
      as (n' & Hn' & Hlt).
    exists {| buffer := p ++ prefix; messagesEver := 0;
              extraMessageSizeCheck := true; curMessageLen := Some n' |}, n'.
    split; [|done].
    assert (flip_bit_at ((prefix ++ p) ++ prefix) i j
            = flip_bit_at prefix i j ++ p ++ prefix) as ->.
    { unfold flip_bit_at. rewrite <- app_assoc.
      rewrite alter_app_l by lia. done. }
    unfold write, init, set_buffer.
    cbn [buffer messagesEver extraMessageSizeCheck curMessageLen app write_loop].
    rewrite (write_iter_short 0 _ (p ++ prefix) n' [] Hn'); [done|].
    rewrite length_app. lia.
Qed.

(** The one-byte payload "a": bit 2 of byte 1 of each length field. *)
Lemma length_flip_detection_witness :
  (exists self sc,
     write (init true)
       (flip_bit_at [x01; x00; x00; x00; x61; x01; x00; x00; x00] 6 2)
     = Some (self, Raised (CorruptMessageStream sc 1)) /\ sc <> 1)
  /\
  (exists self n',
     write (init true)
       (flip_bit_at [x01; x00; x00; x00; x61; x01; x00; x00; x00] 1 2)
     = Some (self, Returned [])
     /\ curMessageLen self = Some n' /\ 1 < n' /\ messagesEver self = 0).
Proof.
  destruct (length_flip_detection [x61]
              [x01; x00; x00; x00; x61; x01; x00; x00; x00] 1 2)
    as [Ht Hl]; [simpl; lia | lia | lia | reflexivity |].
  split; [exact Ht|].
  apply (Hl x00); [reflexivity | reflexivity | lia].
Defined.

(** C5 fails as stated: for the empty payload, inverting bit 0 of the
    leading length field gives a frame that [write] accepts without any
    exception; it returns no message and waits for one more byte. *)
Lemma leading_flip_undetected :
  encode [] true = Some [x00; x00; x00; x00; x00; x00; x00; x00] /\
  write (init true)
    (flip_bit_at [x00; x00; x00; x00; x00; x00; x00; x00] 0 0)
  = Some ({| buffer := [x00; x00; x00; x00]; messagesEver := 0;
             extraMessageSizeCheck := true; curMessageLen := Some 1 |},
          Returned []).
Proof. split; vm_compute; reflexivity. Qed.

(** *** What every [write] keeps *)

Lemma read_prefix_keeps (self self' : t) :
  read_prefix self = inl self' ->
  messagesEver self' = messagesEver self /\
  extraMessageSizeCheck self' = extraMessageSizeCheck self /\
  (curMessageLen self' = None ->
   Z.of_nat (length (buffer self')) < MESSAGE_LEN_BYTES).
Proof.
  unfold read_prefix. destruct self as [buf me ex cur]; simpl.
  destruct cur as [n|]; [now intros [= <-]|].
  destruct (Z.geb_spec (Z.of_nat (length buf)) MESSAGE_LEN_BYTES).
  - destruct (unpack_i _); [|discriminate]. now intros [= <-].
  - intros [= <-]. simpl. repeat split. intros _. lia.
Qed.

(** One pass of the loop: it goes round again with exactly one message
    more and one more counted, or it returns with what it had. *)
Lemma write_iter_counts (self : t) (m : list bytes) :
  match write_iter self m with
  | Continue self' m' =>
      exists x, m' = m ++ [x] /\ messagesEver self' = messagesEver self + 1
  | Return self' m' =>
      m' = m /\ messagesEver self' = messagesEver self /\
      match curMessageLen self' with
      | None => Z.of_nat (length (buffer self')) < MESSAGE_LEN_BYTES
      | Some msgLen =>
          Z.of_nat (length (buffer self'))
          < msgLen + (if extraMessageSizeCheck self' then MESSAGE_LEN_BYTES
                      else 0)
      end
  | Raise self' (CorruptMessageStream sizeCheck msgLen) =>
      sizeCheck <> msgLen /\ messagesEver self' = messagesEver self + 1
  | Raise self' StructError => True
  end.
Proof.
  unfold write_iter.
  destruct (read_prefix self) as [s1|e] eqn:E1.
  2:{ unfold read_prefix in E1.
      destruct (curMessageLen self); [discriminate|].
      destruct (_ >=? _); [|discriminate].
      destruct (unpack_i _); [discriminate|]. now injection E1 as <-. }
  apply read_prefix_keeps in E1 as (Hme & Hex & Hshort).
  unfold take_message. destruct s1 as [buf me ex cur]; simpl in *.
  destruct cur as [n|]; [|repeat split; [done | now apply Hshort]].
  destruct ex.
  - destruct (Z.geb_spec (Z.of_nat (length buf)) (n + MESSAGE_LEN_BYTES)).
    + destruct (unpack_i _) as [sc|]; [|done].
      destruct (Z.eqb_spec sc n); simpl.
      * eexists. split; [reflexivity|]. lia.
      * split; [done|]. lia.
    + simpl. repeat split; [done|lia].
  - destruct (Z.geb_spec (Z.of_nat (length buf)) n); simpl.
    + eexists. split; [reflexivity|]. lia.
    + repeat split; [done|lia].
Qed.

Lemma write_loop_counts (fuel : nat) :
  forall (self self' : t) (m : list bytes) (r : result),
    write_loop fuel self m = Some (self', r) ->
    match r with
    | Returned ms =>
        exists new, ms = m ++ new /\
          messagesEver self' = messagesEver self + Z.of_nat (length new) /\
          match curMessageLen self' with
          | None => Z.of_nat (length (buffer self')) < MESSAGE_LEN_BYTES
          | Some msgLen =>
              Z.of_nat (length (buffer self'))
              < msgLen + (if extraMessageSizeCheck self'
                          then MESSAGE_LEN_BYTES else 0)
          end
    | Raised (CorruptMessageStream sizeCheck msgLen) =>
        sizeCheck <> msgLen /\ messagesEver self < messagesEver self'
    | Raised StructError => True
    end.
Proof.
  induction fuel as [|fuel IH]; intros self self' m r; [discriminate|].
  simpl. pose proof (write_iter_counts self m) as H.
  destruct (write_iter self m) as [s1 m1|s1 m1|s1 e].
  - destruct H as (x & -> & Hme). intros Hloop.
    specialize (IH _ _ _ _ Hloop). destruct r as [ms|[sc n|]]; [| |done].
    + destruct IH as (new & -> & Hme' & Hrest).
      exists (x :: new). rewrite <- app_assoc. split; [done|].
      split; [|done]. simpl length. lia.
    + destruct IH as [Hne Hlt]. split; [done|lia].
  - destruct H as (-> & Hme & Hrest). intros [= <- <-].
    exists []. rewrite app_nil_r. split; [done|]. split; [simpl; lia|done].
  - intros [= <- <-]. destruct e as [sc n|]; [|done].
    destruct H as [Hne Hme]. split; [done|lia].
Qed.

(** [messagesEver] counts what [write] hands out. Whatever the state of
    the decoder and whatever the bytes, a call that returns has added to
    [messagesEver] the number of messages it returns, and it returns only
    when the buffer holds no further complete frame: fewer than the 4
    bytes of a length when no message is pending, fewer bytes than the
    pending message needs otherwise. A call that raises
    [CorruptMessageStream] has seen two different lengths and has counted
    the frame it refuses. *)
Theorem write_counts_messages (self : t) (bytesToWrite : bytes) :
  exists self' r,
    write self bytesToWrite = Some (self', r) /\
    match r with
    | Returned ms =>
        messagesEver self' = messagesEver self + Z.of_nat (length ms) /\
        match curMessageLen self' with
        | None => Z.of_nat (length (buffer self')) < MESSAGE_LEN_BYTES
        | Some msgLen =>
            Z.of_nat (length (buffer self'))
            < msgLen + (if extraMessageSizeCheck self'
                        then MESSAGE_LEN_BYTES else 0)
        end
    | Raised (CorruptMessageStream sizeCheck msgLen) =>
        sizeCheck <> msgLen /\ messagesEver self < messagesEver self'
    | Raised StructError => True
    end.
Proof.
  destruct (write_total self bytesToWrite) as [[self' r] Hw].
  exists self', r. split; [done|].
  unfold write in Hw. apply write_loop_counts in Hw.
  destruct r as [ms|[sc n|]]; [|done|done].
  destruct Hw as (new & -> & Hme & Hrest). simpl in *. done.
Qed.

(** *** Streams of frames, with either setting of the flag *)

(** One pass over a buffer that starts with a whole frame without
    trailing length. *)
Lemma write_iter_frame_unchecked (me : Z) (q prefix rest : bytes)
    (m : list bytes) :
  pack_i (Z.of_nat (length q)) = Some prefix ->
  write_iter {| buffer := prefix ++ q ++ rest;
                messagesEver := me;
                extraMessageSizeCheck := false;
                curMessageLen := None |} m
  = Continue {| buffer := rest; messagesEver := me + 1;
                extraMessageSizeCheck := false;
                curMessageLen := None |} (m ++ [q]).
Proof.
  intros Hprefix.
  pose proof (pack_i_length _ _ Hprefix) as Hp4.
  unfold write_iter, read_prefix; simpl.
  rewrite length_app, Hp4. unfold MESSAGE_LEN_BYTES.
  rewrite (proj2 (Z.geb_le _ _)) by lia.
  rewrite py_slice_to_nonneg, py_del_slice_to_nonneg by lia.
  change (Z.to_nat 4) with 4%nat.
  rewrite take_app_length', drop_app_length' by done.
  rewrite (unpack_pack_i _ _ Hprefix).
  unfold take_message, set_buffer, set_curMessageLen, incr_messagesEver; simpl.
  rewrite !length_app.
  rewrite (proj2 (Z.geb_le _ _)) by lia.
  rewrite py_slice_to_nonneg, py_del_slice_to_nonneg by lia.
  rewrite Nat2Z.id, take_app_length, drop_app_length. done.
Qed.

Lemma write_loop_stream (flag : bool) (ps : list bytes) :
  forall (stream rest : bytes) (fuel : nat) (me : Z) (m : list bytes),
    encode_all ps flag = Some stream ->
    write_loop (length ps + fuel)
      {| buffer := stream ++ rest; messagesEver := me;
         extraMessageSizeCheck := flag; curMessageLen := None |} m
    = write_loop fuel
        {| buffer := rest; messagesEver := me + Z.of_nat (length ps);
           extraMessageSizeCheck := flag; curMessageLen := None |} (m ++ ps).
Proof.
  destruct flag; [apply write_loop_frames|].
  induction ps as [|p ps IH]; intros stream rest fuel me m; simpl.
  - intros [= <-]. simpl. now rewrite Z.add_0_r, app_nil_r.
  - unfold encode.
    destruct (pack_i _) as [prefix|] eqn:Hp; [|discriminate].
    destruct (encode_all ps false) as [fs|] eqn:Hfs; [|discriminate].
    intros [= <-]. rewrite <- !app_assoc.
    rewrite (write_iter_frame_unchecked me p prefix (fs ++ rest) m Hp).
    rewrite (IH fs rest fuel (me + 1) (m ++ [p]) eq_refl).
    rewrite <- app_assoc. simpl.
    replace (me + 1 + Z.of_nat (length ps))
      with (me + Z.of_nat (S (length ps))) by lia.
    done.
Qed.

Lemma write_stream (flag : bool) (me : Z) (ps : list bytes)
    (stream tail : bytes) :
  encode_all ps flag = Some stream ->
  (length tail < 4)%nat ->
  write {| buffer := []; messagesEver := me;
           extraMessageSizeCheck := flag; curMessageLen := None |}
    (stream ++ tail)
  = Some ({| buffer := tail; messagesEver := me + Z.of_nat (length ps);
             extraMessageSizeCheck := flag; curMessageLen := None |},
          Returned ps).
Proof.
  intros Hs Htail. pose proof (encode_all_length _ _ _ Hs) as Hl.
  unfold write, set_buffer.
  cbn [buffer messagesEver extraMessageSizeCheck curMessageLen app].
  rewrite length_app.
  replace (S (S (length stream + length tail)))
    with (length ps + S (S (length stream - length ps + length tail)))%nat
    by lia.
  rewrite (write_loop_stream flag ps stream tail _ me [] Hs).
  cbn [write_loop app]. unfold write_iter, read_prefix. simpl.
  unfold MESSAGE_LEN_BYTES.
  destruct (Z.geb_spec (Z.of_nat (length tail)) 4); [lia|done].
Qed.

(** A stream of whole frames followed by the beginning of a length
    field: one [write] on a decoder at a frame boundary returns every
    payload of the stream, in order, counts them, and keeps the bytes of
    the incomplete length for the next call. *)
Theorem write_stream_of_frames (flag : bool) (me : Z) (ps : list bytes)
    (stream tail : bytes) :
  encode_all ps flag = Some stream ->
  (length tail < 4)%nat ->
  write {| buffer := []; messagesEver := me;
           extraMessageSizeCheck := flag; curMessageLen := None |}
    (stream ++ tail)
  = Some ({| buffer := tail; messagesEver := me + Z.of_nat (length ps);
             extraMessageSizeCheck := flag; curMessageLen := None |},
          Returned ps).
Proof. exact (write_stream flag me ps stream tail). Qed.

(** Whole frames, then a frame whose two lengths differ. *)
Lemma write_frames_then_corrupt (me : Z) (ps : list bytes)
    (stream q prefix trailer rest : bytes) (sc : Z) :
  encode_all ps true = Some stream ->
  pack_i (Z.of_nat (length q)) = Some prefix ->
  unpack_i trailer = Some sc ->
  sc <> Z.of_nat (length q) ->
  write {| buffer := []; messagesEver := me;
           extraMessageSizeCheck := true; curMessageLen := None |}
    (stream ++ prefix ++ q ++ trailer ++ rest)
  = Some ({| buffer := rest;
             messagesEver := me + Z.of_nat (length ps) + 1;
             extraMessageSizeCheck := true; curMessageLen := None |},
          Raised (CorruptMessageStream sc (Z.of_nat (length q)))).
Proof.
  intros Hs Hp Ht Hne.
  pose proof (encode_all_length _ _ _ Hs) as Hl.
  unfold write, set_buffer.
  cbn [buffer messagesEver extraMessageSizeCheck curMessageLen app].
  rewrite length_app.
  replace (S (S (length stream + length (prefix ++ q ++ trailer ++ rest))))
    with (length ps
          + S (S (length stream - length ps
                  + length (prefix ++ q ++ trailer ++ rest))))%nat by lia.
  rewrite (write_loop_frames ps stream _ _ me [] Hs).
  cbn [write_loop].
  rewrite (write_iter_frame _ q prefix trailer rest sc _ Hp Ht).
  simpl. apply Z.eqb_neq in Hne. rewrite Hne. done.
Qed.

(** Two payloads without trailing lengths and two bytes of a third
    frame. *)
Lemma write_stream_of_frames_witness :
  write (init false)
    ([x01; x00; x00; x00; x61; x00; x00; x00; x00] ++ [x02; x00])
  = Some ({| buffer := [x02; x00]; messagesEver := 0 + Z.of_nat 2;
             extraMessageSizeCheck := false; curMessageLen := None |},
          Returned [[x61]; []]).
Proof.
  apply (write_stream_of_frames false 0 [[x61]; []]
           [x01; x00; x00; x00; x61; x00; x00; x00; x00] [x02; x00]).
  - reflexivity.
  - simpl. lia.
Defined.

End MessageBufferFacts.

(** ** The bus *)

Module MessageBusFacts.
Import MessageBus.

Section Facts.
Variable Msg : Type.
Variable serialize : Msg -> option bytes.
Variable deserialize : bytes -> option Msg.

Implicit Types (s : t Msg) (connId connectionId : ConnectionId).

(** *** sendMessage *)

Lemma _isDefinitelyDead_spec s connectionId :
  _isDefinitelyDead Msg s connectionId = true <->
  _connIdToOutgoingEndpoint Msg s !! connectionId = None /\
  _connIdToIncomingEndpoint Msg s !! connectionId = None.
Proof using Type.
  unfold _isDefinitelyDead, has_key.
  rewrite andb_true_iff, !negb_true_iff, !bool_decide_eq_false.
  rewrite <- !eq_None_not_Some. done.
Qed.

(** C7. On a started bus [sendMessage] serializes first: when the codec
    raises, so does the call, whatever the connection id. Otherwise it
    returns [False] exactly when the id is in neither endpoint map,
    leaving the bus as it was, and else returns [True] with the
    serialized bytes put at the back of the send queue (and one byte in
    the wake pipe). *)
Theorem sendMessage_known_dead s connectionId (message : Msg) :
  started Msg s = true ->
  match serialize message with
  | None =>
      sendMessage Msg serialize s connectionId message
      = Raise s SerializeError
  | Some serializedMessage =>
      exists s' r,
        sendMessage Msg serialize s connectionId message = Ok s' r /\
        (r = false <->
         _connIdToIncomingEndpoint Msg s !! connectionId = None /\
         _connIdToOutgoingEndpoint Msg s !! connectionId = None) /\
        (r = false -> s' = s) /\
        (r = true ->
         s' = _putOnSendQueue Msg s connectionId (Payload serializedMessage)
         /\ _messagesToSendQueue Msg s'
            = _messagesToSendQueue Msg s
              ++ [SendTo connectionId (Payload serializedMessage)]
         /\ _messageToSendWakePipe Msg s'
            = S (_messageToSendWakePipe Msg s))
  end.
Proof using Type.
  intros Hstarted. unfold sendMessage. rewrite Hstarted. simpl.
  destruct (serialize message) as [b|]; [|done].
  pose proof (_isDefinitelyDead_spec s connectionId) as Hdead.
  destruct (_isDefinitelyDead Msg s connectionId).
  - destruct Hdead as [Hdead _]. specialize (Hdead eq_refl).
    destruct Hdead as [H1 H2].
    exists s, false. split; [done|]. split; [|done].
    split; [intros _; split; assumption | done].
  - eexists _, true. split; [done|]. split; [|done].
    split; [done|]. intros [H1 H2]. destruct Hdead as [_ Hdead].
    discriminate (Hdead (conj H2 H1)).
Qed.

(** *** scheduleCallback(None) *)

(** C9. [scheduleCallback(None)] schedules nothing: whatever the other
    arguments, the call returns with the bus exactly as it was (so the
    pending set and both event queues are unchanged). And [None] is
    what ends the event thread: with a [None] at the head of the event
    queue the loop returns without handling anything behind it. *)
Theorem scheduleCallback_None s (atTimestamp delay : option Z) (now : Z) :
  scheduleCallback Msg s None atTimestamp delay now = Ok s tt
  /\ (forall io rest handled,
        eventThread_run Msg io (QNone :: rest) s handled
        = (set__eventQueue Msg rest s, handled, true)).
Proof using Type. split; reflexivity. Qed.

(** *** Connection ids *)

Lemma quiet_refl s : quiet s s.
Proof using Type. split; [done|]. exists []. now rewrite app_nil_r. Qed.

Lemma quiet_trans s1 s2 s3 : quiet s1 s2 -> quiet s2 s3 -> quiet s1 s3.
Proof using Type.
  intros [Hc1 (e1 & Hq1 & Ha1)] [Hc2 (e2 & Hq2 & Ha2)]. split; [congruence|].
  exists (e1 ++ e2). rewrite Hq2, Hq1, <- app_assoc. split; [done|].
  rewrite omap_app, Ha1, Ha2. done.
Qed.

(** A state that differs in neither the counter nor the event queue. *)
Lemma quiet_same s s' :
  _connectionIdCounter Msg s' = _connectionIdCounter Msg s ->
  _eventQueue Msg s' = _eventQueue Msg s -> quiet s s'.
Proof using Type.
  intros Hc Hq. split; [done|]. exists []. now rewrite app_nil_r.
Qed.

Lemma quiet_fireEvent s (e : MessageBusEvent Msg) :
  announced (QEvent e) = None -> quiet s (_fireEvent Msg s e).
Proof using Type.
  intros He. split; [done|]. exists [QEvent e]. split; [done|].
  destruct e; simpl in *; done.
Qed.

Ltac quiet_same := apply quiet_same; reflexivity.

Lemma scheduleCallback_quiet s cb atTimestamp delay now :
  quiet s (state_of (scheduleCallback Msg s cb atTimestamp delay now)).
Proof using Type.
  unfold scheduleCallback.
  destruct cb; [|apply quiet_refl].
  destruct atTimestamp, delay; simpl; try apply quiet_refl;
    repeat case_match; simpl; quiet_same.
Qed.

Lemma _scheduleBytesForWrite_quiet s connId msg :
  quiet s (state_of (_scheduleBytesForWrite Msg s connId msg)).
Proof using Type.
  unfold _scheduleBytesForWrite.
  repeat case_match; simpl; try apply quiet_refl; quiet_same.
Qed.

Lemma quiet_counter s s' :
  quiet s s' -> _connectionIdCounter Msg s' = _connectionIdCounter Msg s.
Proof using Type. now intros [? _]. Qed.

Lemma bind_quiet {A B} s (m : outcome Msg A)
    (k : t Msg -> A -> outcome Msg B) :
  quiet s (state_of m) ->
  (forall s1 r, quiet s1 (state_of (k s1 r))) ->
  quiet s (state_of (bind m k)).
Proof using Type.
  intros Hm Hk. destruct m as [s1 r|s1 e]; simpl in *; [|done].
  exact (quiet_trans _ _ _ Hm (Hk s1 r)).
Qed.

Lemma _handleMessageToSend_quiet s now :
  quiet s (state_of (_handleMessageToSend Msg s now)).
Proof using Type.
  unfold _handleMessageToSend.
  destruct (_messagesToSendQueue Msg s) as [|item rest]; [apply quiet_refl|].
  set (s1 := set__messagesToSendQueue Msg rest s).
  assert (quiet s s1) as H1 by quiet_same.
  destruct item as [|connId [|msg]]; [done| |].
  - apply (quiet_trans _ _ _ H1). apply bind_quiet.
    + destruct (_authToken Msg s1) as [tok|]; [|apply quiet_refl].
      destruct (utf8_encode tok); [|apply quiet_refl].
      apply _scheduleBytesForWrite_quiet.
    + intros s2 _.
      eapply quiet_trans; [|apply scheduleCallback_quiet]. quiet_same.
  - apply (quiet_trans _ _ _ H1). apply _scheduleBytesForWrite_quiet.
Qed.

Lemma _handleMessageToSend_times_quiet n s now :
  quiet s (state_of (_handleMessageToSend_times Msg n s now)).
Proof using Type.
  revert s. induction n as [|n IH]; intros s; simpl; [apply quiet_refl|].
  apply bind_quiet; [apply _handleMessageToSend_quiet|].
  intros s1 _. apply IH.
Qed.

Lemma _markSocketClosed_quiet s sock :
  quiet s (state_of (_markSocketClosed Msg s sock)).
Proof using Type.
  unfold _markSocketClosed.
  repeat case_match; simpl; try quiet_same;
    (split; [reflexivity | eexists [_]; split; reflexivity]).
Qed.

Lemma _handleIncomingMessage_quiet s m sock :
  quiet s (fst (_handleIncomingMessage Msg deserialize s m sock)).
Proof using Type.
  unfold _handleIncomingMessage.
  repeat case_match; simpl; try apply quiet_refl; try quiet_same.
  split; [reflexivity | eexists [_]; split; reflexivity].
Qed.

Lemma handle_newMessages_quiet ms s sock :
  quiet s (state_of (handle_newMessages Msg deserialize s ms sock)).
Proof using Type.
  revert s. induction ms as [|m ms IH]; intros s; simpl; [apply quiet_refl|].
  pose proof (_handleIncomingMessage_quiet s m sock) as H.
  destruct (_handleIncomingMessage Msg deserialize s m sock) as [s1 ok].
  simpl in H. destruct ok.
  - exact (quiet_trans _ _ _ H (IH s1)).
  - exact (quiet_trans _ _ _ H (_markSocketClosed_quiet s1 sock)).
Qed.

(** Reading from a data socket hands out no id. *)
Lemma _handleReadReadySocket_data_quiet s sock acc rcv :
  _acceptSocket Msg s <> Some sock ->
  quiet s (state_of (_handleReadReadySocket Msg deserialize s sock acc rcv)).
Proof using Type.
  intros Hacc. unfold _handleReadReadySocket.
  rewrite bool_decide_eq_false_2 by done.
  destruct (bool_decide (sock ∈ _allSockets Msg s)); [|apply quiet_refl].
  assert (forall s1, quiet s s1 ->
            quiet s (state_of
              (bind (_markSocketClosed Msg s1 sock)
                 (fun s2 _ => Ok s2 (Some true))))) as Hclosed.
  { intros s1 H1. apply (quiet_trans _ _ _ H1). apply bind_quiet.
    - apply _markSocketClosed_quiet.
    - intros; apply quiet_refl. }
  destruct rcv as [b| | | |]; simpl; try apply quiet_refl;
    try (apply Hclosed; apply quiet_refl); try quiet_same.
  destruct b as [|b0 b]; [apply Hclosed; apply quiet_refl|].
  destruct (_incomingSocketBuffers Msg s !! sock) as [mb|];
    [|apply quiet_refl].
  destruct (MessageBuffer.write mb (b0 :: b)) as [[mb' [ms|[sc n|]]]|];
    simpl; try quiet_same.
  - apply bind_quiet.
    + eapply quiet_trans; [|apply handle_newMessages_quiet]. quiet_same.
    + intros; apply quiet_refl.
  - apply Hclosed. quiet_same.
Qed.

(** The calls below never touch the allocator. *)
Lemma start_counter s bound :
  _connectionIdCounter Msg (state_of (start Msg s bound))
  = _connectionIdCounter Msg s.
Proof using Type. unfold start. repeat case_match; reflexivity. Qed.

Lemma closeConnection_counter s connectionId :
  _connectionIdCounter Msg (closeConnection Msg s connectionId)
  = _connectionIdCounter Msg s.
Proof using Type. unfold closeConnection. case_match; reflexivity. Qed.

Lemma sendMessage_counter s connectionId (message : Msg) :
  _connectionIdCounter Msg
    (state_of (sendMessage Msg serialize s connectionId message))
  = _connectionIdCounter Msg s.
Proof using Type. unfold sendMessage. repeat case_match; reflexivity. Qed.

Lemma _handleMessageToSendWakePipe_quiet s now :
  quiet s (state_of (_handleMessageToSendWakePipe Msg s now)).
Proof using Type.
  unfold _handleMessageToSendWakePipe.
  eapply quiet_trans; [|apply _handleMessageToSend_times_quiet]. quiet_same.
Qed.

Lemma _handleEventToFire_counter s now :
  _connectionIdCounter Msg (state_of (_handleEventToFire Msg s now))
  = _connectionIdCounter Msg s.
Proof using Type.
  unfold _handleEventToFire.
  destruct (_eventsToFireQueue Msg s) as [|readMessage rest]; [done|].
  set (s1 := set__eventsToFireQueue Msg rest s).
  change (_connectionIdCounter Msg s) with (_connectionIdCounter Msg s1).
  destruct readMessage as [connId|e].
  - case_match.
    + rewrite (quiet_counter _ _ (scheduleCallback_quiet _ _ _ _ _)). done.
    + repeat case_match; try done; apply quiet_counter, _markSocketClosed_quiet.
  - destruct e; try done. simpl. case_match; done.
Qed.

Lemma _handleWriteReadySocket_counter s sock res :
  _connectionIdCounter Msg (state_of (_handleWriteReadySocket Msg s sock res))
  = _connectionIdCounter Msg s.
Proof using Type.
  unfold _handleWriteReadySocket.
  repeat case_match; reflexivity.
Qed.

Lemma flush_messages_quiet ms s connId :
  quiet s (state_of (flush_messages Msg s connId ms)).
Proof using Type.
  revert s. induction ms as [|m ms IH]; intros s; simpl; [apply quiet_refl|].
  apply bind_quiet; [apply _scheduleBytesForWrite_quiet|].
  intros s1 _. apply IH.
Qed.

Lemma _connectTo_failed_counter s connId :
  _connectionIdCounter Msg (state_of (_connectTo_failed Msg s connId))
  = _connectionIdCounter Msg s.
Proof using Type.
  unfold _connectTo_failed. repeat case_match; reflexivity.
Qed.

Lemma _connectTo_counter s connId res :
  _connectionIdCounter Msg (state_of (_connectTo Msg s connId res))
  = _connectionIdCounter Msg s.
Proof using Type.
  unfold _connectTo.
  destruct (_connIdToOutgoingEndpoint Msg s !! connId) as [endpoint|]; [|done].
  destruct res as [sock|]; [|apply _connectTo_failed_counter].
  match goal with
  | |- context [match ?f with Ok _ _ => _ | Raise _ _ => _ end] =>
      assert (_connectionIdCounter Msg (state_of f)
              = _connectionIdCounter Msg s) as Hf;
      [|destruct f as [s1 r|s1 e]; simpl in Hf |- *;
        [done | now rewrite _connectTo_failed_counter]]
  end.
  case_match; [|done].
  rewrite (quiet_counter _ _ (flush_messages_quiet _ _ _)). done.
Qed.

Lemma _consumeCallbacksOnOutputThread_counter s clock :
  _connectionIdCounter Msg (fst (_consumeCallbacksOnOutputThread Msg s clock))
  = _connectionIdCounter Msg s.
Proof using Type.
  unfold _consumeCallbacksOnOutputThread.
  destruct (consume_loop Msg clock 0 _ _) as [[pending eventQueue] r]. done.
Qed.

Lemma eventThread_run_counter io queue s handled :
  _connectionIdCounter Msg (fst (fst (eventThread_run Msg io queue s handled)))
  = _connectionIdCounter Msg s.
Proof using Type.
  revert s handled.
  induction queue as [|item rest IH]; intros s handled; simpl; [done|].
  destruct item as [e|cb|]; [apply IH| |done].
  rewrite IH. destruct cb as [i|i connId|i connId]; [done| |done].
  pose proof (_connectTo_counter s connId (io connId)) as H.
  destruct (_connectTo Msg s connId (io connId)); exact H.
Qed.

(** What one call does to the allocator: it hands out nothing and leaves
    the counter alone, or it hands out exactly the next integer. *)
Lemma step_ids_given (c : call Msg) s :
  (ids_given Msg serialize deserialize c s = []
   /\ _connectionIdCounter Msg (step Msg serialize deserialize c s)
      = _connectionIdCounter Msg s)
  \/ (ids_given Msg serialize deserialize c s = [_connectionIdCounter Msg s + 1]
      /\ _connectionIdCounter Msg (step Msg serialize deserialize c s)
         = _connectionIdCounter Msg s + 1).
Proof using Type.
  destruct c as [bound|endpoint|connectionId|connectionId message
                |cb atTimestamp delay now|now|now|sock acc rcv|sock res
                |clock|io]; simpl.
  - left. split; [done|]. apply start_counter.
  - unfold connect. destruct (started Msg s); simpl; [right|left]; done.
  - left. split; [done|]. apply closeConnection_counter.
  - left. split; [done|]. apply sendMessage_counter.
  - left. split; [done|]. apply quiet_counter, scheduleCallback_quiet.
  - left. split; [done|].
    apply quiet_counter, _handleMessageToSendWakePipe_quiet.
  - left. split; [done|]. apply _handleEventToFire_counter.
  - destruct (decide (_acceptSocket Msg s = Some sock)) as [Hacc|Hacc].
    + unfold _handleReadReadySocket. rewrite bool_decide_eq_true_2 by done.
      destruct acc as [newSocket newSocketSource|]; simpl.
      * right. destruct (_authToken Msg s); simpl;
          rewrite drop_app_length; done.
      * left. rewrite drop_all. done.
    + left.
      destruct (_handleReadReadySocket_data_quiet s sock acc rcv Hacc)
        as [Hc (evs & Hq & Ha)].
      rewrite Hq, drop_app_length. done.
  - left. split; [done|]. apply _handleWriteReadySocket_counter.
  - left. split; [done|]. apply _consumeCallbacksOnOutputThread_counter.
  - left. split; [done|]. apply eventThread_run_counter.
Qed.

(** C8. Over any run of the bus, whatever the calls and whatever the
    system calls give, the connection ids handed out by [connect] and
    by the accept path are strictly increasing, all of them greater than
    the counter the run started from and none greater than the counter it
    ends with: no id is handed out twice. *)
Theorem connection_ids_strictly_increasing (cs : list (call Msg)) s :
  let '(s', ids) := run Msg serialize deserialize cs s in
  StronglySorted Z.lt ids
  /\ Forall (fun i => _connectionIdCounter Msg s < i
                      /\ i <= _connectionIdCounter Msg s') ids
  /\ _connectionIdCounter Msg s <= _connectionIdCounter Msg s'
  /\ NoDup ids.
Proof using Type.
  revert s. induction cs as [|c cs IH]; intros s; simpl.
  - repeat split; [constructor|constructor|lia|constructor].
  - specialize (IH (step Msg serialize deserialize c s)).
    destruct (run Msg serialize deserialize cs _) as [s' ids].
    destruct IH as (Hsorted & Hall & Hle & Hnodup).
    destruct (step_ids_given c s) as [[-> Hc]|[-> Hc]]; simpl;
      rewrite Hc in Hall, Hle.
    + repeat split; [done|done|lia|done].
    + repeat split.
      * constructor; [done|].
        eapply Forall_impl; [exact Hall|]. simpl. lia.
      * constructor; [lia|].
        eapply Forall_impl; [exact Hall|]. simpl. lia.
      * lia.
      * constructor; [|done]. intros Hin.
        rewrite Forall_forall in Hall. apply Hall in Hin. lia.
Qed.

(** *** Closing a socket *)

Lemma has_key_true {K V} `{Countable K} (k : K) (m : gmap K V) :
  is_Some (m !! k) -> has_key k m = true.
Proof using Type. intros Hk. unfold has_key. now apply bool_decide_eq_true_2. Qed.

(** [_markSocketClosed] on the socket of an incoming connection whose
    registry entries are all there: the connection leaves every map, the
    socket leaves the watcher, and one [IncomingConnectionClosed] goes on
    the event queue. *)
Lemma _markSocketClosed_incoming s sock connId :
  _socketToIncomingConnId Msg s !! sock = Some connId ->
  is_Some (_connIdToIncomingSocket Msg s !! connId) ->
  is_Some (_connIdToIncomingEndpoint Msg s !! connId) ->
  is_Some (_incomingSocketBuffers Msg s !! sock) ->
  exists s',
    _markSocketClosed Msg s sock = Ok s' tt /\
    _eventQueue Msg s'
    = _eventQueue Msg s ++ [QEvent (IncomingConnectionClosed connId)] /\
    _connIdToIncomingSocket Msg s'
    = delete connId (_connIdToIncomingSocket Msg s) /\
    _socketToIncomingConnId Msg s'
    = delete sock (_socketToIncomingConnId Msg s) /\
    _connIdToIncomingEndpoint Msg s'
    = delete connId (_connIdToIncomingEndpoint Msg s) /\
    _incomingSocketBuffers Msg s'
    = delete sock (_incomingSocketBuffers Msg s) /\
    _socketToBytesNeedingWrite Msg s'
    = delete sock (_socketToBytesNeedingWrite Msg s) /\
    _unauthenticatedConnections Msg s'
    = _unauthenticatedConnections Msg s ∖ {[ connId ]} /\
    _allSockets Msg s' = _allSockets Msg s ∖ {[ sock ]}.
Proof using Type.
  intros Hsock H1 H2 H3. unfold _markSocketClosed. rewrite Hsock. simpl.
  rewrite (has_key_true _ _ H1), (has_key_true _ _ H2), (has_key_true _ _ H3).
  simpl. eexists. split; [reflexivity|]. repeat split.
Qed.

(** [_markSocketClosed] on the socket of an outgoing connection whose
    registry entries are all there. *)
Lemma _markSocketClosed_outgoing s sock connId :
  _socketToIncomingConnId Msg s !! sock = None ->
  _socketToOutgoingConnId Msg s !! sock = Some connId ->
  is_Some (_connIdToOutgoingEndpoint Msg s !! connId) ->
  is_Some (_connIdToOutgoingSocket Msg s !! connId) ->
  is_Some (_incomingSocketBuffers Msg s !! sock) ->
  exists s',
    _markSocketClosed Msg s sock = Ok s' tt /\
    _eventQueue Msg s'
    = _eventQueue Msg s ++ [QEvent (OutgoingConnectionClosed connId)] /\
    _connIdToOutgoingSocket Msg s'
    = delete connId (_connIdToOutgoingSocket Msg s) /\
    _socketToOutgoingConnId Msg s'
    = delete sock (_socketToOutgoingConnId Msg s) /\
    _connIdToOutgoingEndpoint Msg s'
    = delete connId (_connIdToOutgoingEndpoint Msg s) /\
    _incomingSocketBuffers Msg s'
    = delete sock (_incomingSocketBuffers Msg s) /\
    _socketToBytesNeedingWrite Msg s'
    = delete sock (_socketToBytesNeedingWrite Msg s) /\
    _connIdToIncomingEndpoint Msg s' = _connIdToIncomingEndpoint Msg s /\
    _allSockets Msg s' = _allSockets Msg s ∖ {[ sock ]} /\
    started Msg s' = started Msg s.
Proof using Type.
  intros Hin Hsock H1 H2 H3. unfold _markSocketClosed. rewrite Hin, Hsock.
  simpl.
  rewrite (has_key_true _ _ H1), (has_key_true _ _ H2), (has_key_true _ _ H3).
  simpl. eexists. split; [reflexivity|]. repeat split.
Qed.

(** *** Messages on an authenticated connection *)

(** The payloads that deserialize are handed to the event queue in order,
    and the loop goes on with the messages behind them. *)
Lemma handle_newMessages_delivered s sock connId
    (good : list bytes) (goodMsgs : list Msg) (rest : list bytes) :
  _getConnectionIdFromSocket Msg s sock = Some connId ->
  connId ∉ _unauthenticatedConnections Msg s ->
  Forall2 (fun p m => deserialize p = Some m) good goodMsgs ->
  handle_newMessages Msg deserialize s (good ++ rest) sock
  = handle_newMessages Msg deserialize
      (set__eventQueue Msg
         (_eventQueue Msg s
          ++ map (fun m => QEvent (IncomingMessage connId m)) goodMsgs) s)
      rest sock.
Proof using Type.
  intros Hconn Hauth Hgood. revert s Hconn Hauth.
  induction Hgood as [|p m good goodMsgs Hp Hgood IH]; intros s Hconn Hauth.
  - simpl. rewrite app_nil_r. now destruct s.
  - simpl. unfold _handleIncomingMessage. rewrite Hconn.
    rewrite bool_decide_eq_false_2 by done. rewrite Hp.
    rewrite IH by done. unfold _fireEvent. simpl.
    rewrite <- app_assoc. reflexivity.
Qed.

(** C1 (as the code has it). On an established connection, incoming and
    authenticated or outgoing, let a read complete the payloads
    [good ++ bad :: later], where the payloads of [good] deserialize and
    [bad] does not. The call returns [True]; the messages of [good] are
    delivered in order; then the connection is closed: it has left the
    registry maps of its direction, the decoders, the write buffers and
    the watcher, an [IncomingConnectionClosed] (an
    [OutgoingConnectionClosed] for an outgoing connection) follows the
    delivered messages on the event queue, and nothing of [later] is
    delivered. *)
Theorem deserialization_failure_closes s sock connId acc (incoming : bool)
    (messageBuffer messageBuffer' : MessageBuffer.t) (b0 : byte) (b : bytes)
    (good : list bytes) (goodMsgs : list Msg) (bad : bytes)
    (later : list bytes) :
  _acceptSocket Msg s <> Some sock ->
  sock ∈ _allSockets Msg s ->
  (if incoming
   then _socketToIncomingConnId Msg s !! sock = Some connId /\
        is_Some (_connIdToIncomingSocket Msg s !! connId) /\
        is_Some (_connIdToIncomingEndpoint Msg s !! connId)
   else _socketToIncomingConnId Msg s !! sock = None /\
        _socketToOutgoingConnId Msg s !! sock = Some connId /\
        is_Some (_connIdToOutgoingSocket Msg s !! connId) /\
        is_Some (_connIdToOutgoingEndpoint Msg s !! connId)) ->
  connId ∉ _unauthenticatedConnections Msg s ->
  _incomingSocketBuffers Msg s !! sock = Some messageBuffer ->
  MessageBuffer.write messageBuffer (b0 :: b)
  = Some (messageBuffer', MessageBuffer.Returned (good ++ bad :: later)) ->
  Forall2 (fun p m => deserialize p = Some m) good goodMsgs ->
  deserialize bad = None ->
  exists s',
    _handleReadReadySocket Msg deserialize s sock acc (Received (b0 :: b))
    = Ok s' (Some true) /\
    _eventQueue Msg s'
    = _eventQueue Msg s
      ++ map (fun m => QEvent (IncomingMessage connId m)) goodMsgs
      ++ [QEvent (if incoming then IncomingConnectionClosed connId
                  else OutgoingConnectionClosed connId)] /\
    (if incoming
     then _connIdToIncomingSocket Msg s' !! connId = None /\
          _socketToIncomingConnId Msg s' !! sock = None /\
          _connIdToIncomingEndpoint Msg s' !! connId = None
     else _connIdToOutgoingSocket Msg s' !! connId = None /\
          _socketToOutgoingConnId Msg s' !! sock = None /\
          _connIdToOutgoingEndpoint Msg s' !! connId = None) /\
    _incomingSocketBuffers Msg s' !! sock = None /\
    _socketToBytesNeedingWrite Msg s' !! sock = None /\
    sock ∉ _allSockets Msg s'.
Proof using Type.
  intros Hacc Hin Hreg Hauth Hbuf Hwrite Hgood Hbad.
  unfold _handleReadReadySocket.
  rewrite bool_decide_eq_false_2 by done.
  rewrite bool_decide_eq_true_2 by done.
  rewrite Hbuf, Hwrite.
  set (s1 := set__incomingSocketBuffers Msg _ s).
  assert (_getConnectionIdFromSocket Msg s1 sock = Some connId) as Hconn.
  { unfold _getConnectionIdFromSocket. simpl.
    destruct incoming;
      [destruct Hreg as (-> & _)|destruct Hreg as (-> & -> & _)]; done. }
  rewrite (handle_newMessages_delivered s1 sock connId good goodMsgs
             (bad :: later) Hconn Hauth Hgood).
  set (s2 := set__eventQueue Msg _ s1).
  simpl handle_newMessages. unfold _handleIncomingMessage.
  assert (_getConnectionIdFromSocket Msg s2 sock = Some connId) as ->
    by exact Hconn.
  rewrite bool_decide_eq_false_2 by done. rewrite Hbad.
  assert (sock ∉ _allSockets Msg s ∖ {[ sock ]}) as Hgone.
  { intros [_ Hn]%elem_of_difference. apply Hn. now apply elem_of_singleton. }
  destruct incoming.
  - destruct Hreg as (Hsock & H1 & H2).
    destruct (_markSocketClosed_incoming s2 sock connId)
      as (s' & -> & Hq & Ha & Hb & Hc & Hd & Hw & _ & Hall); try done.
    { simpl. rewrite lookup_insert_eq. done. }
    exists s'. split; [reflexivity|]. rewrite Hq, Ha, Hb, Hc, Hd, Hw, Hall.
    rewrite !lookup_delete_eq. simpl. rewrite <- app_assoc.
    repeat split; try done.
  - destruct Hreg as (Hnone & Hsock & H1 & H2).
    destruct (_markSocketClosed_outgoing s2 sock connId)
      as (s' & -> & Hq & Ha & Hb & Hc & Hd & Hw & _ & Hall & _); try done.
    { simpl. rewrite lookup_insert_eq. done. }
    exists s'. split; [reflexivity|]. rewrite Hq, Ha, Hb, Hc, Hd, Hw, Hall.
    rewrite !lookup_delete_eq. simpl. rewrite <- app_assoc.
    repeat split; try done.
Qed.

(** *** Authentication of incoming connections *)

(** The accept path: the new connection gets the next id and an entry in
    every incoming map, with a fresh decoder; it is unauthenticated exactly
    when the bus has an auth token; a [NewIncomingConnection] is fired. *)
Lemma accept_registers s sock newSocket newSocketSource rcv :
  _acceptSocket Msg s = Some sock ->
  let connId := _connectionIdCounter Msg s + 1 in
  exists s',
    _handleReadReadySocket Msg deserialize s sock
      (Accepted newSocket newSocketSource) rcv = Ok s' (Some true) /\
    _connectionIdCounter Msg s' = connId /\
    _connIdToIncomingSocket Msg s' !! connId = Some newSocket /\
    _socketToIncomingConnId Msg s' !! newSocket = Some connId /\
    _connIdToIncomingEndpoint Msg s' !! connId = Some newSocketSource /\
    _incomingSocketBuffers Msg s' !! newSocket
    = Some (MessageBuffer.init (extraMessageSizeCheck Msg s)) /\
    newSocket ∈ _allSockets Msg s' /\
    (connId ∈ _unauthenticatedConnections Msg s'
     <-> (_authToken Msg s <> None
          \/ connId ∈ _unauthenticatedConnections Msg s)) /\
    _eventQueue Msg s'
    = _eventQueue Msg s
      ++ [QEvent (NewIncomingConnection newSocketSource connId)].
Proof using Type.
  intros Hacc connId. unfold _handleReadReadySocket.
  rewrite bool_decide_eq_true_2 by done. unfold _newConnectionId. simpl.
  destruct (_authToken Msg s) as [tok|]; (eexists; split; [reflexivity|]);
    simpl; rewrite ?lookup_insert_eq; repeat split; try done.
  - apply elem_of_union_l. now apply elem_of_singleton.
  - intros _. now left.
  - intros _. apply elem_of_union_l. now apply elem_of_singleton.
  - apply elem_of_union_l. now apply elem_of_singleton.
  - intros H. now right.
  - intros [H|H]; done.
Qed.

(** C4. On an incoming connection that is still unauthenticated (as
    every connection accepted by a bus with a token is until its first
    payload), let a read complete the payloads [p :: rest]. When [p] is
    the UTF-8 encoding of the token, the connection becomes authenticated
    and [p] leaves no trace on the event queue: the call goes on with
    [rest] from a bus that differs only in the decoder's state and in the
    unauthenticated set. When [p] is anything else, decodable or not, the
    connection is closed: only an [IncomingConnectionClosed] is put on
    the event queue, the connection leaves the registry, and neither [p]
    nor [rest] gives an [IncomingMessage]. *)
Theorem first_payload_is_checked_against_token s sock connId acc
    (tok : str) (messageBuffer messageBuffer' : MessageBuffer.t)
    (b0 : byte) (b : bytes) (p : bytes) (rest : list bytes) :
  _acceptSocket Msg s <> Some sock ->
  sock ∈ _allSockets Msg s ->
  _authToken Msg s = Some tok ->
  _socketToIncomingConnId Msg s !! sock = Some connId ->
  connId ∈ _unauthenticatedConnections Msg s ->
  is_Some (_connIdToIncomingSocket Msg s !! connId) ->
  is_Some (_connIdToIncomingEndpoint Msg s !! connId) ->
  _incomingSocketBuffers Msg s !! sock = Some messageBuffer ->
  MessageBuffer.write messageBuffer (b0 :: b)
  = Some (messageBuffer', MessageBuffer.Returned (p :: rest)) ->
  let call :=
    _handleReadReadySocket Msg deserialize s sock acc (Received (b0 :: b)) in
  (utf8_encode tok = Some p ->
   let s1 :=
     set__unauthenticatedConnections Msg
       (_unauthenticatedConnections Msg s ∖ {[ connId ]})
       (set__incomingSocketBuffers Msg
          (<[sock := messageBuffer']> (_incomingSocketBuffers Msg s)) s) in
   (connId ∉ _unauthenticatedConnections Msg s1) /\
   _eventQueue Msg s1 = _eventQueue Msg s /\
   call = bind (handle_newMessages Msg deserialize s1 rest sock)
            (fun s _ => Ok s (Some true)))
  /\
  (utf8_encode tok <> Some p ->
   exists s',
     call = Ok s' (Some true) /\
     _eventQueue Msg s'
     = _eventQueue Msg s ++ [QEvent (IncomingConnectionClosed connId)] /\
     _connIdToIncomingSocket Msg s' !! connId = None /\
     _socketToIncomingConnId Msg s' !! sock = None /\
     _connIdToIncomingEndpoint Msg s' !! connId = None /\
     _incomingSocketBuffers Msg s' !! sock = None /\
     sock ∉ _allSockets Msg s').
Proof using Type.
  intros Hacc Hin Htok Hsock Hunauth H1 H2 Hbuf Hwrite call.
  unfold call, _handleReadReadySocket.
  rewrite bool_decide_eq_false_2 by done.
  rewrite bool_decide_eq_true_2 by done.
  rewrite Hbuf, Hwrite.
  set (s0 := set__incomingSocketBuffers Msg _ s).
  cbn [handle_newMessages]. unfold _handleIncomingMessage.
  assert (_getConnectionIdFromSocket Msg s0 sock = Some connId) as ->.
  { unfold _getConnectionIdFromSocket. simpl. now rewrite Hsock. }
  rewrite bool_decide_eq_true_2 by done.
  change (_authToken Msg s0) with (_authToken Msg s). rewrite Htok.
  split.
  - intros Henc. rewrite (utf8_decode_encode _ _ Henc).
    rewrite bool_decide_eq_true_2 by done.
    split; [|done]. simpl.
    intros [_ Hn]%elem_of_difference. apply Hn. now apply elem_of_singleton.
  - intros Henc.
    assert (match utf8_decode p with
            | Some decoded =>
                if bool_decide (Some decoded = Some tok)
                then (set__unauthenticatedConnections Msg
                        (_unauthenticatedConnections Msg s0 ∖ {[ connId ]})
                        s0, true)
                else (s0, false)
            | None => (s0, false)
            end = (s0, false)) as ->.
    { destruct (utf8_decode p) as [decoded|] eqn:Hdec; [|done].
      rewrite bool_decide_eq_false_2; [done|].
      intros [= ->]. apply Henc. now apply utf8_encode_decode. }
    destruct (_markSocketClosed_incoming s0 sock connId)
      as (s' & -> & Hq & Ha & Hb & Hc & Hd & _ & _ & Hall); try done.
    { simpl. rewrite lookup_insert_eq. done. }
    exists s'. split; [done|]. rewrite Hq, Ha, Hb, Hc, Hd, Hall.
    rewrite !lookup_delete_eq. repeat split; try done.
    intros [_ Hn]%elem_of_difference. apply Hn. now apply elem_of_singleton.
Qed.

(** *** Timed callbacks *)

(** What [scheduleCallback] leaves in the pending set, and that it leaves
    the event queue alone. *)
Lemma scheduleCallback_pending s (cb : callback) (atTimestamp delay : option Z)
    (now : Z) :
  atTimestamp = None \/ delay = None ->
  let s' := state_of (scheduleCallback Msg s (Some cb) atTimestamp delay now) in
  _pendingTimedCallbacks Msg s'
  = SortedSet_add fst
      (default (now + default 0 delay) atTimestamp, cb)
      (_pendingTimedCallbacks Msg s)
  /\ _eventQueue Msg s' = _eventQueue Msg s.
Proof using Type.
  intros Hargs. unfold scheduleCallback.
  destruct atTimestamp as [ts|], delay as [d|];
    try (destruct Hargs; discriminate); simpl;
    repeat case_match; done.
Qed.

(** The loop of [_consumeCallbacksOnOutputThread] hands over every
    callback at the head of the pending set whose time has come. *)
Lemma consume_loop_due (clock : nat -> Z) (due rest : list (Z * callback)) :
  forall (k : nat) (q : list (queueItem Msg)),
    Forall (fun p => forall j, p.1 <= clock j) due ->
    consume_loop Msg clock k (due ++ rest) q
    = consume_loop Msg clock (k + length due) rest
        (q ++ map (fun p => QCallback p.2) due).
Proof using Type.
  induction due as [|[ts cb] due IH]; intros k q Hdue; simpl.
  - now rewrite Nat.add_0_r, app_nil_r.
  - apply Forall_cons in Hdue as [Hts Hdue]. simpl in Hts.
    rewrite (proj2 (Z.leb_le _ _) (Hts k)).
    rewrite IH by done. rewrite <- app_assoc. simpl.
    now rewrite Nat.add_succ_r.
Qed.

(** What it hands over is a prefix of the pending set, in the order of
    the set; the rest stays pending. *)
Lemma consume_loop_prefix (clock : nat -> Z) (pending : list (Z * callback)) :
  forall (k : nat) (q : list (queueItem Msg)),
    exists delivered,
      pending = delivered ++ (consume_loop Msg clock k pending q).1.1 /\
      (consume_loop Msg clock k pending q).1.2
      = q ++ map (fun p => QCallback p.2) delivered.
Proof using Type.
  induction pending as [|[ts cb] pending IH]; intros k q; simpl.
  - exists []. simpl. now rewrite app_nil_r.
  - destruct (ts <=? clock k).
    + destruct (IH (S k) (q ++ [QCallback cb])) as (d & Hp & Hq).
      exists ((ts, cb) :: d). simpl. rewrite Hq, <- app_assoc.
      split; [|done]. now rewrite <- Hp.
    + exists []. simpl. now rewrite app_nil_r.
Qed.

(** C6 (as the code has it). Let the pending set be in deadline order,
    and let two different callbacks be scheduled for the same timestamp,
    [cb1] first, the second one not pending at that timestamp already.
    Then the set stays in deadline order, and a pass of
    [_consumeCallbacksOnOutputThread] at a time not before the timestamp
    hands a prefix of the set to the event thread, in the order of the
    set, so in nondecreasing deadline order, with [cb1] in front of
    [cb2]. *)
Theorem equal_deadlines_fire_in_insertion_order s (cb1 cb2 : callback)
    (ts now1 now2 : Z) (clock : nat -> Z) :
  StronglySorted (fun a b => a.1 <= b.1) (_pendingTimedCallbacks Msg s) ->
  cb1 <> cb2 ->
  (ts, cb2) ∉ _pendingTimedCallbacks Msg s ->
  (forall k, ts <= clock k) ->
  let s1 := state_of (scheduleCallback Msg s (Some cb1) (Some ts) None now1) in
  let s2 := state_of (scheduleCallback Msg s1 (Some cb2) (Some ts) None now2) in
  let s3 := (_consumeCallbacksOnOutputThread Msg s2 clock).1 in
  StronglySorted (fun a b => a.1 <= b.1) (_pendingTimedCallbacks Msg s2) /\
  exists delivered,
    _pendingTimedCallbacks Msg s2
    = delivered ++ _pendingTimedCallbacks Msg s3 /\
    _eventQueue Msg s3
    = _eventQueue Msg s ++ map (fun p => QCallback p.2) delivered /\
    exists a b c, delivered = a ++ (ts, cb1) :: b ++ (ts, cb2) :: c.
Proof using Type.
  intros Hsorted Hne Hnew Hclock s1 s2 s3.
  destruct (scheduleCallback_pending s cb1 (Some ts) None now1)
    as [Hp1 Hq1]; [now right|].
  destruct (scheduleCallback_pending s1 cb2 (Some ts) None now2)
    as [Hp2 Hq2]; [now right|].
  fold s1 in Hp1, Hq1. fold s2 in Hp2, Hq2. simpl in Hp1, Hp2.
  assert (StronglySorted (fun a b : Z * callback => a.1 <= b.1)
            (_pendingTimedCallbacks Msg s1)) as Hsorted1.
  { rewrite Hp1. now apply (SortedSet_add_sorted fst). }
  assert ((ts, cb1) ∈ _pendingTimedCallbacks Msg s1) as Hin1.
  { rewrite Hp1. apply elem_of_SortedSet_add. now left. }
  assert ((ts, cb2) ∉ _pendingTimedCallbacks Msg s1) as Hnew1.
  { rewrite Hp1. intros [[= ?]|?]%elem_of_SortedSet_add; done. }
  split.
  { rewrite Hp2. now apply (SortedSet_add_sorted fst). }
  unfold SortedSet_add in Hp2. rewrite bool_decide_eq_false_2 in Hp2 by done.
  destruct (insort_split fst (ts, cb2) _ Hsorted1)
    as (l1 & l2 & Hl & Hins & Hl1 & Hl2).
  rewrite Hins in Hp2. simpl in Hl1, Hl2.
  assert ((ts, cb1) ∈ l1) as Hcb1.
  { rewrite Hl in Hin1. apply elem_of_app in Hin1 as [?|Hin2]; [done|].
    rewrite Forall_forall in Hl2. apply Hl2 in Hin2. simpl in Hin2. lia. }
  apply list_elem_of_split in Hcb1 as (a & b & ->).
  unfold s3, _consumeCallbacksOnOutputThread. rewrite Hp2, Hq2, Hq1.
  replace ((a ++ (ts, cb1) :: b) ++ (ts, cb2) :: l2)
    with ((a ++ (ts, cb1) :: b ++ [(ts, cb2)]) ++ l2)
    by (now rewrite <- !app_assoc; simpl; rewrite <- app_assoc).
  rewrite consume_loop_due.
  2:{ replace (a ++ (ts, cb1) :: b ++ [(ts, cb2)])
        with ((a ++ (ts, cb1) :: b) ++ [(ts, cb2)])
        by (now rewrite <- !app_assoc).
      apply Forall_app. split.
      - eapply Forall_impl; [exact Hl1|]. simpl. intros p Hp j.
        specialize (Hclock j). lia.
      - constructor; [|constructor]. simpl. exact Hclock. }
  match goal with
  | |- context [consume_loop Msg clock ?k l2 ?q] =>
      destruct (consume_loop_prefix clock l2 k q) as (d & Hd & Hq);
      destruct (consume_loop Msg clock k l2 q) as [[pending eventQueue] r]
  end.
  simpl in Hd, Hq |- *. exists ((a ++ (ts, cb1) :: b ++ [(ts, cb2)]) ++ d).
  split; [rewrite Hd; apply app_assoc|]. split.
  - rewrite Hq, (map_app _ _ d), app_assoc. done.
  - exists a, b, d. rewrite <- app_assoc. simpl. now rewrite <- app_assoc.
Qed.

(** *** connect, closeConnection and the registry *)

(** Reduces the attribute reads of the goal through the assignments made
    before them, and nothing else. *)
Tactic Notation "bus_simpl" :=
  cbn [
    _authToken extraMessageSizeCheck started _acceptSocket
    _connectionIdCounter _connIdToIncomingSocket _connIdToOutgoingSocket
    _socketToIncomingConnId _socketToOutgoingConnId
    _unauthenticatedConnections _connIdToIncomingEndpoint
    _connIdToOutgoingEndpoint _connIdPendingOutgoingConnection
    _messagesForUnconnectedOutgoingConnection _messagesToSendQueue
    _eventsToFireQueue _eventQueue _pendingTimedCallbacks
    _socketToBytesNeedingWrite _socketsWithSslWantWrite _allSockets
    _incomingSocketBuffers _messageToSendWakePipe _eventToFireWakePipe
    _generalWakePipe _lambdaCounter set_started set__acceptSocket
    set__connectionIdCounter set__connIdToIncomingSocket
    set__connIdToOutgoingSocket set__socketToIncomingConnId
    set__socketToOutgoingConnId set__unauthenticatedConnections
    set__connIdToIncomingEndpoint set__connIdToOutgoingEndpoint
    set__connIdPendingOutgoingConnection
    set__messagesForUnconnectedOutgoingConnection set__messagesToSendQueue
    set__eventsToFireQueue set__eventQueue set__pendingTimedCallbacks
    set__socketToBytesNeedingWrite set__socketsWithSslWantWrite
    set__allSockets set__incomingSocketBuffers set__messageToSendWakePipe
    set__eventToFireWakePipe set__generalWakePipe set__lambdaCounter
    _scheduleEvent _fireEvent _putOnSendQueue _newConnectionId state_of
    bind fst snd ].

Tactic Notation "bus_simpl" "in" hyp(H) :=
  cbn [
    _authToken extraMessageSizeCheck started _acceptSocket
    _connectionIdCounter _connIdToIncomingSocket _connIdToOutgoingSocket
    _socketToIncomingConnId _socketToOutgoingConnId
    _unauthenticatedConnections _connIdToIncomingEndpoint
    _connIdToOutgoingEndpoint _connIdPendingOutgoingConnection
    _messagesForUnconnectedOutgoingConnection _messagesToSendQueue
    _eventsToFireQueue _eventQueue _pendingTimedCallbacks
    _socketToBytesNeedingWrite _socketsWithSslWantWrite _allSockets
    _incomingSocketBuffers _messageToSendWakePipe _eventToFireWakePipe
    _generalWakePipe _lambdaCounter set_started set__acceptSocket
    set__connectionIdCounter set__connIdToIncomingSocket
    set__connIdToOutgoingSocket set__socketToIncomingConnId
    set__socketToOutgoingConnId set__unauthenticatedConnections
    set__connIdToIncomingEndpoint set__connIdToOutgoingEndpoint
    set__connIdPendingOutgoingConnection
    set__messagesForUnconnectedOutgoingConnection set__messagesToSendQueue
    set__eventsToFireQueue set__eventQueue set__pendingTimedCallbacks
    set__socketToBytesNeedingWrite set__socketsWithSslWantWrite
    set__allSockets set__incomingSocketBuffers set__messageToSendWakePipe
    set__eventToFireWakePipe set__generalWakePipe set__lambdaCounter
    _scheduleEvent _fireEvent _putOnSendQueue _newConnectionId state_of
    bind fst snd ] in H.


(** [connect] on a started bus: the caller gets the next id; the endpoint
    is registered, the connection is pending, a [TriggerConnect] is queued
    behind what the send queue holds. The id can be used at once: a
    [sendMessage] on it returns [True] and queues the message behind the
    [TriggerConnect]. *)
Theorem connect_then_sendMessage s (endpoint : Endpoint) (message : Msg)
    (serializedMessage : bytes) :
  started Msg s = true ->
  serialize message = Some serializedMessage ->
  let connId := _connectionIdCounter Msg s + 1 in
  exists s1 s2,
    connect Msg s endpoint = Ok s1 connId /\
    _connIdToOutgoingEndpoint Msg s1 !! connId = Some endpoint /\
    connId ∈ _connIdPendingOutgoingConnection Msg s1 /\
    sendMessage Msg serialize s1 connId message = Ok s2 true /\
    _messagesToSendQueue Msg s2
    = _messagesToSendQueue Msg s
      ++ [SendTo connId TriggerConnect;
          SendTo connId (Payload serializedMessage)] /\
    _messageToSendWakePipe Msg s2 = S (S (_messageToSendWakePipe Msg s)).
Proof using Type.
  intros Hstarted Hser connId. unfold connect. rewrite Hstarted. simpl.
  eexists _, _. split; [reflexivity|]. simpl.
  split; [now rewrite lookup_insert_eq|].
  split; [apply elem_of_union_l; now apply elem_of_singleton|].
  unfold sendMessage. simpl. rewrite Hstarted, Hser. simpl.
  unfold _isDefinitelyDead, has_key. simpl. rewrite lookup_insert_eq.
  rewrite (bool_decide_eq_true_2 (is_Some (Some endpoint))) by eauto.
  simpl. split; [reflexivity|]. simpl. now rewrite <- app_assoc.
Qed.

(** [closeConnection] on an established outgoing connection, then the
    socket thread's [_handleEventToFire]: the connection is closed. It
    leaves the outgoing maps and the watcher, an
    [OutgoingConnectionClosed] is put on the event queue, and from then
    on the id is known to be dead: [sendMessage] returns [False]. *)
Theorem closeConnection_closes_outgoing s sock connId (now : Z)
    (message : Msg) (serializedMessage : bytes) :
  started Msg s = true ->
  _eventsToFireQueue Msg s = [] ->
  connId ∉ _connIdPendingOutgoingConnection Msg s ->
  _connIdToOutgoingSocket Msg s !! connId = Some sock ->
  _socketToOutgoingConnId Msg s !! sock = Some connId ->
  _socketToIncomingConnId Msg s !! sock = None ->
  is_Some (_connIdToOutgoingEndpoint Msg s !! connId) ->
  _connIdToIncomingEndpoint Msg s !! connId = None ->
  is_Some (_incomingSocketBuffers Msg s !! sock) ->
  serialize message = Some serializedMessage ->
  exists s',
    _handleEventToFire Msg (closeConnection Msg s connId) now = Ok s' tt /\
    _eventQueue Msg s'
    = _eventQueue Msg s ++ [QEvent (OutgoingConnectionClosed connId)] /\
    _connIdToOutgoingSocket Msg s' !! connId = None /\
    _socketToOutgoingConnId Msg s' !! sock = None /\
    _connIdToOutgoingEndpoint Msg s' !! connId = None /\
    (sock ∉ _allSockets Msg s') /\
    sendMessage Msg serialize s' connId message = Ok s' false.
Proof using Type.
  intros Hstarted Hq Hpending Hsock Hconn Hin Hep Hnoin Hbuf Hser.
  unfold closeConnection.
  assert (_isDefinitelyDead Msg s connId = false) as Hlive.
  { unfold _isDefinitelyDead. now rewrite (has_key_true _ _ Hep). }
  rewrite Hlive.
  set (s0 := set__eventsToFireQueue Msg []
               (_scheduleEvent Msg s (FireTriggerDisconnect connId))).
  assert (_handleEventToFire Msg
            (_scheduleEvent Msg s (FireTriggerDisconnect connId)) now
          = _markSocketClosed Msg s0 sock) as ->.
  { unfold _handleEventToFire. bus_simpl. rewrite Hq. bus_simpl.
    cbn [app]. rewrite bool_decide_eq_false_2 by done. now rewrite Hsock. }
  destruct (_markSocketClosed_outgoing s0 sock connId)
    as (s' & -> & Hev & Ha & Hb & Hc & _ & _ & Hd & Hall & Hst); try done.
  exists s'. split; [done|]. rewrite Hev, Ha, Hb, Hc, Hall.
  rewrite !lookup_delete_eq. simpl. repeat split; try done.
  { intros [_ Hn]%elem_of_difference. apply Hn. now apply elem_of_singleton. }
  subst s0. unfold sendMessage. rewrite Hst. bus_simpl.
  rewrite Hstarted. cbn [negb]. rewrite Hser.
  unfold _isDefinitelyDead, has_key. rewrite Hc, Hd. bus_simpl.
  rewrite lookup_delete_eq, Hnoin.
  rewrite !bool_decide_eq_false_2; [done|]; intros [? ?]; discriminate.
Qed.

(** *** Writing to a socket *)

(** [_handleWriteReadySocket] after a [send] that took [n > 0] bytes: the
    first [n] bytes leave the socket's write buffer, whose entry goes when
    nothing is left; the buffers of the other sockets and the event queue
    are not touched. *)
Theorem _handleWriteReadySocket_sent s sock (pending : bytes) (n : Z) :
  _socketToBytesNeedingWrite Msg s !! sock = Some pending ->
  0 < n ->
  exists s',
    _handleWriteReadySocket Msg s sock (Sent n) = Ok s' (Some true) /\
    _socketToBytesNeedingWrite Msg s' !! sock
    = (if Z.of_nat (length pending) <=? n then None
       else Some (drop (Z.to_nat n) pending)) /\
    (forall sock', sock' <> sock ->
       _socketToBytesNeedingWrite Msg s' !! sock'
       = _socketToBytesNeedingWrite Msg s !! sock') /\
    _eventQueue Msg s' = _eventQueue Msg s.
Proof using Type.
  intros Hpending Hn. unfold _handleWriteReadySocket. rewrite Hpending.
  rewrite (proj2 (Z.eqb_neq n 0)) by lia.
  rewrite (proj2 (Z.eqb_neq n (-1))) by lia.
  rewrite (proj2 (Z.ltb_lt 0 n)) by lia.
  rewrite py_del_slice_to_nonneg by lia.
  eexists. split; [reflexivity|]. bus_simpl.
  destruct (Z.leb_spec (Z.of_nat (length pending)) n) as [Hle|Hgt].
  - rewrite drop_ge by lia.
    split; [apply lookup_delete_eq|]. split; [|done].
    intros sock' Hne. now apply lookup_delete_ne.
  - destruct (drop (Z.to_nat n) pending) as [|b0 b] eqn:Hdrop.
    { apply drop_nil_inv in Hdrop. lia. }
    split; [apply lookup_insert_eq|]. split; [|done].
    intros sock' Hne. now apply lookup_insert_ne.
Qed.

(** *** The preconnect buffer *)

(** On a connected outgoing connection the flush of [_connectTo] appends
    the frames of the messages, in order, to what the socket's write
    buffer holds. *)
Lemma flush_messages_connected (messages : list bytes) :
  forall s sock connId (stream : bytes),
    _connIdToOutgoingSocket Msg s !! connId = Some sock ->
    Forall (fun m => m <> []) messages ->
    MessageBuffer.encode_all messages (extraMessageSizeCheck Msg s)
    = Some stream ->
    flush_messages Msg s connId messages
    = Ok match messages with
         | [] => s
         | _ :: _ =>
             set__socketToBytesNeedingWrite Msg
               (<[sock := default [] (_socketToBytesNeedingWrite Msg s !! sock)
                          ++ stream]> (_socketToBytesNeedingWrite Msg s)) s
         end tt.
Proof using Type.
  induction messages as [|m messages IH]; intros s sock connId stream;
    [done|].
  intros Hsock Hne Henc. apply Forall_cons in Hne as [Hm Hne].
  simpl in Henc.
  destruct (MessageBuffer.encode m _) as [f|] eqn:Hf; [|discriminate].
  destruct (MessageBuffer.encode_all messages _) as [fs|] eqn:Hfs;
    [|discriminate].
  injection Henc as <-. cbn [flush_messages].
  unfold _scheduleBytesForWrite at 1.
  destruct m as [|b0 b]; [done|]. rewrite Hsock, Hf. cbn [bind].
  rewrite (IH _ sock connId fs); [|done|done|done].
  destruct messages as [|m' messages].
  - simpl in Hfs. injection Hfs as <-. now rewrite app_nil_r.
  - bus_simpl. rewrite lookup_insert_eq, insert_insert_eq.
    cbn [default from_option]. unfold id. rewrite <- app_assoc.
    now destruct s.
Qed.

Lemma _connectTo_connected s connId sock (endpoint : Endpoint)
    (messages : list bytes) (stream : bytes) :
  _connIdToOutgoingEndpoint Msg s !! connId = Some endpoint ->
  _messagesForUnconnectedOutgoingConnection Msg s !! connId
  = Some messages ->
  Forall (fun m => m <> []) messages ->
  MessageBuffer.encode_all messages (extraMessageSizeCheck Msg s)
  = Some stream ->
  exists s',
    _connectTo Msg s connId (Connected sock) = Ok s' true /\
    default [] (_socketToBytesNeedingWrite Msg s' !! sock)
    = default [] (_socketToBytesNeedingWrite Msg s !! sock) ++ stream /\
    _messagesForUnconnectedOutgoingConnection Msg s' !! connId = None /\
    (connId ∉ _connIdPendingOutgoingConnection Msg s') /\
    _connIdToOutgoingSocket Msg s' !! connId = Some sock /\
    _socketToOutgoingConnId Msg s' !! sock = Some connId /\
    _incomingSocketBuffers Msg s' !! sock
    = Some (MessageBuffer.init (extraMessageSizeCheck Msg s)) /\
    _eventsToFireQueue Msg s'
    = _eventsToFireQueue Msg s
      ++ [FireEvent (OutgoingConnectionEstablished connId)].
Proof using Type.
  intros Hep Hmsgs Hne Henc. unfold _connectTo. rewrite Hep. bus_simpl.
  rewrite Hmsgs.
  rewrite (flush_messages_connected messages _ sock connId stream);
    [|bus_simpl; apply lookup_insert_eq|done|done].
  eexists. split; [reflexivity|].
  destruct messages as [|m messages]; bus_simpl;
    rewrite ?lookup_insert_eq, ?lookup_delete_eq.
  - simpl in Henc. injection Henc as <-. rewrite app_nil_r.
    repeat split; try done.
    intros [_ Hn]%elem_of_difference. apply Hn. now apply elem_of_singleton.
  - repeat split; try done.
    intros [_ Hn]%elem_of_difference. apply Hn. now apply elem_of_singleton.
Qed.

(** [_connectTo] when the connection is made: the messages staged while
    the connection was pending go to the socket's write buffer as frames,
    in the order in which they were staged; the connection is registered
    under its socket with a fresh decoder and is no longer pending, its
    preconnect buffer is gone, and an [OutgoingConnectionEstablished] is
    scheduled. *)
Theorem _connectTo_flushes_in_order s connId sock (endpoint : Endpoint)
    (messages : list bytes) (stream : bytes) :
  _connIdToOutgoingEndpoint Msg s !! connId = Some endpoint ->
  _messagesForUnconnectedOutgoingConnection Msg s !! connId
  = Some messages ->
  Forall (fun m => m <> []) messages ->
  MessageBuffer.encode_all messages (extraMessageSizeCheck Msg s)
  = Some stream ->
  exists s',
    _connectTo Msg s connId (Connected sock) = Ok s' true /\
    default [] (_socketToBytesNeedingWrite Msg s' !! sock)
    = default [] (_socketToBytesNeedingWrite Msg s !! sock) ++ stream /\
    _messagesForUnconnectedOutgoingConnection Msg s' !! connId = None /\
    (connId ∉ _connIdPendingOutgoingConnection Msg s') /\
    _connIdToOutgoingSocket Msg s' !! connId = Some sock /\
    _socketToOutgoingConnId Msg s' !! sock = Some connId /\
    _incomingSocketBuffers Msg s' !! sock
    = Some (MessageBuffer.init (extraMessageSizeCheck Msg s)) /\
    _eventsToFireQueue Msg s'
    = _eventsToFireQueue Msg s
      ++ [FireEvent (OutgoingConnectionEstablished connId)].
Proof using Type.
  exact (_connectTo_connected s connId sock endpoint messages stream).
Qed.

(** [_connectTo] when the connection cannot be made: what was staged for
    it is dropped, the connection is neither pending nor registered any
    more, an [OutgoingConnectionFailed] is scheduled, and the id is known
    to be dead: [sendMessage] on it returns [False]. *)
Theorem _connectTo_failure_kills_connection s connId (endpoint : Endpoint)
    (message : Msg) (serializedMessage : bytes) :
  started Msg s = true ->
  _connIdToOutgoingEndpoint Msg s !! connId = Some endpoint ->
  _connIdToOutgoingSocket Msg s !! connId = None ->
  _connIdToIncomingEndpoint Msg s !! connId = None ->
  serialize message = Some serializedMessage ->
  exists s',
    _connectTo Msg s connId ConnectException = Ok s' false /\
    _eventsToFireQueue Msg s'
    = _eventsToFireQueue Msg s ++ [FireEvent (OutgoingConnectionFailed connId)]
    /\ (connId ∉ _connIdPendingOutgoingConnection Msg s') /\
    _messagesForUnconnectedOutgoingConnection Msg s' !! connId = None /\
    _connIdToOutgoingEndpoint Msg s' !! connId = None /\
    sendMessage Msg serialize s' connId message = Ok s' false.
Proof using Type.
  intros Hstarted Hep Hsock Hnoin Hser.
  unfold _connectTo, _connectTo_failed. rewrite Hep. bus_simpl.
  rewrite Hsock. eexists. split; [reflexivity|]. bus_simpl.
  rewrite !lookup_delete_eq. repeat split.
  - intros [_ Hn]%elem_of_difference. apply Hn. now apply elem_of_singleton.
  - unfold sendMessage. bus_simpl. rewrite Hstarted. cbn [negb].
    rewrite Hser. unfold _isDefinitelyDead, has_key. bus_simpl.
    rewrite lookup_delete_eq, Hnoin.
    rewrite !bool_decide_eq_false_2; [done|]; intros [? ?]; discriminate.
Qed.

(** *** Messages that serialize to nothing *)

(** A message whose serialization is empty is reported as queued and is
    never sent: [sendMessage] returns [True], and when the socket thread
    takes the item from the send queue, [_scheduleBytesForWrite] returns
    at once; no write buffer and no preconnect buffer gets anything. *)
Theorem empty_serialization_is_dropped s connectionId (message : Msg)
    (now : Z) :
  started Msg s = true ->
  serialize message = Some [] ->
  _isDefinitelyDead Msg s connectionId = false ->
  _messagesToSendQueue Msg s = [] ->
  exists s1,
    sendMessage Msg serialize s connectionId message = Ok s1 true /\
    _handleMessageToSend Msg s1 now
    = Ok (set__messagesToSendQueue Msg [] s1) tt /\
    _socketToBytesNeedingWrite Msg s1 = _socketToBytesNeedingWrite Msg s /\
    _messagesForUnconnectedOutgoingConnection Msg s1
    = _messagesForUnconnectedOutgoingConnection Msg s.
Proof using Type.
  intros Hstarted Hser Hlive Hq. unfold sendMessage.
  rewrite Hstarted, Hser, Hlive. cbn [negb].
  eexists. split; [reflexivity|]. split; [|done].
  unfold _handleMessageToSend. bus_simpl. rewrite Hq. reflexivity.
Qed.

(** *** Reading from a socket *)

(** A read that brings a frame whose trailing length differs from its
    leading length closes the connection, and the messages completed in
    front of the corrupt frame by the same read are lost with it: the
    only thing put on the event queue is the
    [IncomingConnectionClosed]. *)
Theorem corrupt_stream_closes_connection s sock connId acc (me : Z)
    (ps : list bytes) (stream q prefix trailer rest : bytes) (sc : Z)
    (b0 : byte) (b : bytes) :
  _acceptSocket Msg s <> Some sock ->
  sock ∈ _allSockets Msg s ->
  _socketToIncomingConnId Msg s !! sock = Some connId ->
  is_Some (_connIdToIncomingSocket Msg s !! connId) ->
  is_Some (_connIdToIncomingEndpoint Msg s !! connId) ->
  _incomingSocketBuffers Msg s !! sock
  = Some {| MessageBuffer.buffer := []; MessageBuffer.messagesEver := me;
            MessageBuffer.extraMessageSizeCheck := true;
            MessageBuffer.curMessageLen := None |} ->
  MessageBuffer.encode_all ps true = Some stream ->
  pack_i (Z.of_nat (length q)) = Some prefix ->
  unpack_i trailer = Some sc ->
  sc <> Z.of_nat (length q) ->
  stream ++ prefix ++ q ++ trailer ++ rest = b0 :: b ->
  exists s',
    _handleReadReadySocket Msg deserialize s sock acc (Received (b0 :: b))
    = Ok s' (Some true) /\
    _eventQueue Msg s'
    = _eventQueue Msg s ++ [QEvent (IncomingConnectionClosed connId)] /\
    _connIdToIncomingSocket Msg s' !! connId = None /\
    _socketToIncomingConnId Msg s' !! sock = None /\
    _connIdToIncomingEndpoint Msg s' !! connId = None /\
    _incomingSocketBuffers Msg s' !! sock = None /\
    (sock ∉ _allSockets Msg s').
Proof using Type.
  intros Hacc Hin Hsock H1 H2 Hbuf Hs Hp Ht Hne Hdata.
  unfold _handleReadReadySocket.
  rewrite bool_decide_eq_false_2 by done.
  rewrite bool_decide_eq_true_2 by done.
  rewrite Hbuf, <- Hdata.
  rewrite (MessageBufferFacts.write_frames_then_corrupt me ps stream q prefix
             trailer rest sc Hs Hp Ht Hne).
  cbn [bind].
  match goal with
  | |- context [_markSocketClosed Msg ?s0 sock] =>
      destruct (_markSocketClosed_incoming s0 sock connId)
        as (s' & Hclose & Hq & Ha & Hb & Hc & Hd & _ & _ & Hall); try done
  end.
  { bus_simpl. rewrite lookup_insert_eq. done. }
  exists s'. rewrite Hclose. split; [done|]. rewrite Hq, Ha, Hb, Hc, Hd, Hall.
  bus_simpl. rewrite !lookup_delete_eq. repeat split; try done.
  intros [_ Hn]%elem_of_difference. apply Hn. now apply elem_of_singleton.
Qed.

(** A [recv] that raises [SSLWantWriteError] leaves [bytesReceived]
    unbound: the read handler notes the socket in
    [_socketsWithSslWantWrite] and then fails with an
    [UnboundLocalError] (a [NameError]), without touching the
    connection. *)
Theorem recv_SSLWantWriteError_raises s sock acc :
  _acceptSocket Msg s <> Some sock ->
  sock ∈ _allSockets Msg s ->
  exists s',
    _handleReadReadySocket Msg deserialize s sock acc SSLWantWriteError
    = Raise s' NameError /\
    s' = set__socketsWithSslWantWrite Msg
           ({[ sock ]} ∪ _socketsWithSslWantWrite Msg s) s.
Proof using Type.
  intros Hacc Hin. unfold _handleReadReadySocket.
  rewrite bool_decide_eq_false_2 by done.
  rewrite bool_decide_eq_true_2 by done. eauto.
Qed.

(** Closing a socket twice: the second [_markSocketClosed] finds the
    socket in no map and fires nothing, so a connection gets one
    [IncomingConnectionClosed] and no more. *)
Theorem _markSocketClosed_twice s sock connId :
  _socketToIncomingConnId Msg s !! sock = Some connId ->
  _socketToOutgoingConnId Msg s !! sock = None ->
  is_Some (_connIdToIncomingSocket Msg s !! connId) ->
  is_Some (_connIdToIncomingEndpoint Msg s !! connId) ->
  is_Some (_incomingSocketBuffers Msg s !! sock) ->
  exists s1,
    _markSocketClosed Msg s sock = Ok s1 tt /\
    _eventQueue Msg s1
    = _eventQueue Msg s ++ [QEvent (IncomingConnectionClosed connId)] /\
    _markSocketClosed Msg s1 sock
    = Ok (set__allSockets Msg (_allSockets Msg s1 ∖ {[ sock ]}) s1) tt.
Proof using Type.
  intros Hsock Hout H1 H2 H3. unfold _markSocketClosed at 1. rewrite Hsock.
  bus_simpl.
  rewrite (has_key_true _ _ H1), (has_key_true _ _ H2), (has_key_true _ _ H3).
  cbn [negb foldl]. eexists. split; [reflexivity|]. split; [done|].
  unfold _markSocketClosed, _fireEvent. bus_simpl.
  rewrite lookup_delete_eq, Hout. reflexivity.
Qed.

(** *** The event thread *)

Lemma eventThread_run_until_None io (q rest : list (queueItem Msg)) :
  forall s (handled : list (queueItem Msg)),
    Forall (fun item => item <> QNone) q ->
    exists s',
      eventThread_run Msg io (q ++ QNone :: rest) s handled
      = (s', handled ++ q, true) /\
      _eventQueue Msg s' = rest.
Proof using Type.
  induction q as [|item q IH]; intros s handled Hq.
  - simpl. rewrite app_nil_r. eauto.
  - apply Forall_cons in Hq as [Hitem Hq]. simpl.
    destruct item as [e|cb|]; [| |done].
    + destruct (IH s (handled ++ [QEvent e]) Hq) as (s' & -> & Hrest).
      exists s'. now rewrite <- app_assoc.
    + match goal with
      | |- context [eventThread_run Msg io _ ?s1 _] =>
          destruct (IH s1 (handled ++ [QCallback cb]) Hq) as (s' & -> & Hrest)
      end.
      exists s'. now rewrite <- app_assoc.
Qed.

(** The event thread hands the events to [onEvent] and calls the
    callbacks in the order of the queue, up to the first [None]; there it
    returns, leaving in the queue what is behind the [None]. *)
Theorem _eventThreadLoop_handles_until_None s io
    (q rest : list (queueItem Msg)) :
  _eventQueue Msg s = q ++ QNone :: rest ->
  Forall (fun item => item <> QNone) q ->
  exists s',
    _eventThreadLoop Msg s io = (s', q, true) /\ _eventQueue Msg s' = rest.
Proof using Type.
  intros Hqueue Hq. unfold _eventThreadLoop. rewrite Hqueue.
  destruct (eventThread_run_until_None io q rest s [] Hq) as (s' & -> & Hr).
  eauto.
Qed.

(** *** stop *)

(** What [stop] does before it waits for the socket thread, on a started
    bus whose event-to-fire queue is empty: from then on [connect] and
    [sendMessage] refuse to work, a second [stop] does nothing, and the
    socket thread, when it takes the [Stopped] event from the queue,
    hands it to the event thread and leaves its loop. *)
Theorem stop_until_join_stops s (endpoint : Endpoint) connectionId
    (message : Msg) (now : Z) :
  started Msg s = true ->
  _eventsToFireQueue Msg s = [] ->
  let s1 := stop_until_join Msg s in
  connect Msg s1 endpoint = Raise s1 NotActive /\
  sendMessage Msg serialize s1 connectionId message = Raise s1 NotActive /\
  stop_until_join Msg s1 = s1 /\
  exists s2,
    _handleEventToFire Msg s1 now = Raise s2 MessageBusLoopExit /\
    _eventQueue Msg s2 = _eventQueue Msg s ++ [QEvent Stopped] /\
    _eventsToFireQueue Msg s2 = [].
Proof using Type.
  intros Hstarted Hq s1. unfold s1, stop_until_join. rewrite Hstarted.
  cbn [negb]. unfold connect, sendMessage, _handleEventToFire. bus_simpl.
  rewrite Hq. cbn [negb app]. repeat split. eauto.
Qed.

(** *** More on timed callbacks *)

Lemma consume_loop_bounds (clock : nat -> Z) (t0 t1 : Z)
    (pending : list (Z * callback)) :
  forall (k : nat) (q : list (queueItem Msg)),
    StronglySorted (fun a b => a.1 <= b.1) pending ->
    (forall j, t0 <= clock j <= t1) ->
    exists delivered rest r,
      consume_loop Msg clock k pending q
      = (rest, q ++ map (fun p => QCallback p.2) delivered, r) /\
      pending = delivered ++ rest /\
      Forall (fun p => p.1 <= t1) delivered /\
      Forall (fun p => t0 < p.1) rest /\
      match r with
      | None => rest = []
      | Some d =>
          exists ts cb rest', rest = (ts, cb) :: rest' /\
            0 < d /\ ts - t1 <= d <= ts - t0
      end.
Proof using Type.
  induction pending as [|[ts cb] pending IH]; intros k q Hsorted Hclock.
  - exists [], [], None. simpl. rewrite app_nil_r. repeat split; constructor.
  - apply StronglySorted_inv in Hsorted as [Hsorted Hhead]. simpl.
    pose proof (Hclock k) as Hk.
    destruct (Z.leb_spec ts (clock k)) as [Hdue|Hnot].
    + destruct (IH (S k) (q ++ [QCallback cb]) Hsorted Hclock)
        as (d & rest & r & -> & -> & Hd & Hrest & Hr).
      exists ((ts, cb) :: d), rest, r. rewrite <- app_assoc.
      repeat split; try done. constructor; [simpl; lia|done].
    + exists [], ((ts, cb) :: pending), (Some (Z.max (ts - clock k) 0)).
      simpl. rewrite app_nil_r. repeat split; try done.
      * constructor; [simpl; lia|].
        eapply Forall_impl; [exact Hhead|]. simpl. lia.
      * exists ts, cb, pending. split; [done|]. lia.
Qed.

(** A pass of [_consumeCallbacksOnOutputThread] while the clock reads
    between [t0] and [t1]: what it hands to the event thread is a prefix
    of the pending set (in the order of the set), nothing handed over is
    due later than [t1], nothing left pending was due at [t0], and the
    result is [None] when nothing is left and otherwise the positive time
    to the earliest deadline left. *)
Theorem _consumeCallbacksOnOutputThread_delivers_due s (clock : nat -> Z)
    (t0 t1 : Z) :
  StronglySorted (fun a b => a.1 <= b.1) (_pendingTimedCallbacks Msg s) ->
  (forall j, t0 <= clock j <= t1) ->
  exists s' r delivered,
    _consumeCallbacksOnOutputThread Msg s clock = (s', r) /\
    _pendingTimedCallbacks Msg s
    = delivered ++ _pendingTimedCallbacks Msg s' /\
    _eventQueue Msg s'
    = _eventQueue Msg s ++ map (fun p => QCallback p.2) delivered /\
    Forall (fun p => p.1 <= t1) delivered /\
    Forall (fun p => t0 < p.1) (_pendingTimedCallbacks Msg s') /\
    match r with
    | None => _pendingTimedCallbacks Msg s' = []
    | Some d =>
        exists ts cb rest,
          _pendingTimedCallbacks Msg s' = (ts, cb) :: rest /\
          0 < d /\ ts - t1 <= d <= ts - t0
    end.
Proof using Type.
  intros Hsorted Hclock. unfold _consumeCallbacksOnOutputThread.
  destruct (consume_loop_bounds clock t0 t1 _ 0%nat (_eventQueue Msg s)
              Hsorted Hclock)
    as (d & rest & r & -> & Hp & Hd & Hrest & Hr).
  eexists _, r, d. split; [reflexivity|]. bus_simpl. done.
Qed.



(** *** The send queue *)

Lemma _handleMessageToSend_pops s now :
  let s' := state_of (_handleMessageToSend Msg s now) in
  _messagesToSendQueue Msg s' = drop 1 (_messagesToSendQueue Msg s) /\
  _messageToSendWakePipe Msg s' = _messageToSendWakePipe Msg s.
Proof using Type.
  unfold _handleMessageToSend.
  destruct (_messagesToSendQueue Msg s) as [|item rest] eqn:Hq;
    [simpl; now rewrite Hq|].
  cbn [drop].
  destruct item as [|connId [|msg]]; [done| |].
  - unfold _scheduleBytesForWrite, scheduleCallback.
    repeat (case_match; simpl); done.
  - unfold _scheduleBytesForWrite. repeat (case_match; simpl); done.
Qed.

Lemma _handleMessageToSend_times_pops (n : nat) :
  forall s now,
    match _handleMessageToSend_times Msg n s now with
    | Ok s' _ =>
        _messagesToSendQueue Msg s' = drop n (_messagesToSendQueue Msg s) /\
        _messageToSendWakePipe Msg s' = _messageToSendWakePipe Msg s
    | Raise s' _ =>
        exists k, (k < n)%nat /\
          _messagesToSendQueue Msg s'
          = drop (S k) (_messagesToSendQueue Msg s) /\
          _messageToSendWakePipe Msg s' = _messageToSendWakePipe Msg s
    end.
Proof using Type.
  induction n as [|n IH]; intros s now; simpl; [done|].
  pose proof (_handleMessageToSend_pops s now) as [Hq Hp].
  destruct (_handleMessageToSend Msg s now) as [s1 []|s1 e]; simpl in *.
  - specialize (IH s1 now).
    destruct (_handleMessageToSend_times Msg n s1 now) as [s2 []|s2 e].
    + destruct IH as [Hq2 Hp2]. rewrite Hq2, Hp2, Hq, Hp, drop_drop.
      split; [|done]. f_equal.
    + destruct IH as (k & Hk & Hq2 & Hp2). exists (S k).
      rewrite Hq2, Hp2, Hq, Hp, drop_drop. split; [lia|]. split; [|done].
      f_equal.
  - exists 0%nat. split; [lia|]. done.
Qed.

(** [_handleMessageToSendWakePipe] takes one item from the send queue for
    each byte it read from the wake pipe, in order. When the handling of
    an item raises, that item is gone and the items behind it stay in the
    queue although their wake bytes have been read. *)
Theorem _handleMessageToSendWakePipe_drains s now :
  let n := _messageToSendWakePipe Msg s in
  match _handleMessageToSendWakePipe Msg s now with
  | Ok s' _ =>
      _messagesToSendQueue Msg s' = drop n (_messagesToSendQueue Msg s) /\
      _messageToSendWakePipe Msg s' = 0%nat
  | Raise s' _ =>
      exists k, (k < n)%nat /\
        _messagesToSendQueue Msg s'
        = drop (S k) (_messagesToSendQueue Msg s) /\
        _messageToSendWakePipe Msg s' = 0%nat
  end.
Proof using Type.
  intros n. unfold _handleMessageToSendWakePipe. fold n.
  exact (_handleMessageToSend_times_pops n
           (set__messageToSendWakePipe Msg 0%nat s) now).
Qed.

(** *** The events to fire *)

Lemma _handleEventToFire_times_until_Stopped
    (evs : list (MessageBusEvent Msg)) :
  forall s (later : list (fireItem Msg)) (now : Z) (n : nat),
    Forall (fun e => e <> Stopped) evs ->
    _eventsToFireQueue Msg s = map FireEvent evs ++ FireEvent Stopped :: later ->
    (length evs < n)%nat ->
    exists s',
      _handleEventToFire_times Msg n s now = Raise s' MessageBusLoopExit /\
      _eventQueue Msg s'
      = _eventQueue Msg s ++ map QEvent evs ++ [QEvent Stopped] /\
      _eventsToFireQueue Msg s' = later /\
      _eventToFireWakePipe Msg s' = _eventToFireWakePipe Msg s.
Proof using Type.
  induction evs as [|e evs IH]; intros s later now n Hevs Hq Hn;
    (destruct n as [|n]; [simpl in Hn; lia|]); cbn [_handleEventToFire_times].
  - unfold _handleEventToFire. rewrite Hq. cbn [map app bind].
    eexists. split; [reflexivity|]. done.
  - apply Forall_cons in Hevs as [He Hevs].
    assert (exists s1,
              _handleEventToFire Msg s now = Ok s1 tt /\
              _eventQueue Msg s1 = _eventQueue Msg s ++ [QEvent e] /\
              _eventsToFireQueue Msg s1
              = map FireEvent evs ++ FireEvent Stopped :: later /\
              _eventToFireWakePipe Msg s1 = _eventToFireWakePipe Msg s)
      as (s1 & -> & Hq1 & Hf1 & Hp1).
    { unfold _handleEventToFire. rewrite Hq. cbn [map app].
      destruct e; try done; try (eexists; split; [reflexivity|]; done).
      bus_simpl. case_match; eexists; (split; [reflexivity|]); done. }
    cbn [bind].
    destruct (IH s1 later now n Hevs Hf1) as (s' & -> & Hq' & Hf' & Hp');
      [simpl in Hn; lia|].
    exists s'. split; [done|]. rewrite Hq', Hq1, Hp', Hp1, <- app_assoc.
    done.
Qed.

(** [Stopped] is the last event the socket thread hands to the event
    thread: [_handleEventToFireWakePipe] fires the events in front of it
    in order, fires [Stopped], and leaves the loop with
    [MessageBusLoopExit]; what was scheduled behind [Stopped] is never
    fired. *)
Theorem Stopped_is_the_last_event_fired s
    (evs : list (MessageBusEvent Msg)) (later : list (fireItem Msg))
    (now : Z) :
  Forall (fun e => e <> Stopped) evs ->
  _eventsToFireQueue Msg s = map FireEvent evs ++ FireEvent Stopped :: later ->
  (length evs < _eventToFireWakePipe Msg s)%nat ->
  exists s',
    _handleEventToFireWakePipe Msg s now = Raise s' MessageBusLoopExit /\
    _eventQueue Msg s'
    = _eventQueue Msg s ++ map QEvent evs ++ [QEvent Stopped] /\
    _eventsToFireQueue Msg s' = later.
Proof using Type.
  intros Hevs Hq Hn. unfold _handleEventToFireWakePipe.
  destruct (_handleEventToFire_times_until_Stopped evs
              (set__eventToFireWakePipe Msg 0%nat s) later now
              (_eventToFireWakePipe Msg s) Hevs Hq Hn)
    as (s' & -> & Hq' & Hf' & _).
  eauto.
Qed.

(** [closeConnection] on a connection that is still pending is put off:
    the socket thread, finding the connection pending, closes nothing and
    schedules a callback 0.1 s later, and that callback, run by the
    event thread, schedules the [TriggerDisconnect] again. *)
Theorem closeConnection_of_pending_is_postponed s connId (now : Z) io :
  connId ∈ _connIdPendingOutgoingConnection Msg s ->
  is_Some (_connIdToOutgoingEndpoint Msg s !! connId) ->
  _eventsToFireQueue Msg s = [] ->
  let retry := RescheduleDisconnect (_lambdaCounter Msg s) connId in
  exists s1,
    _handleEventToFire Msg (closeConnection Msg s connId) now = Ok s1 tt /\
    _eventsToFireQueue Msg s1 = [] /\
    _eventQueue Msg s1 = _eventQueue Msg s /\
    (now + DISCONNECT_RETRY_DELAY, retry) ∈ _pendingTimedCallbacks Msg s1 /\
    _connIdPendingOutgoingConnection Msg s1
    = _connIdPendingOutgoingConnection Msg s /\
    _connIdToOutgoingEndpoint Msg s1 = _connIdToOutgoingEndpoint Msg s /\
    forall s2 handled,
      _eventsToFireQueue Msg
        (eventThread_run Msg io [QCallback retry] s2 handled).1.1
      = _eventsToFireQueue Msg s2 ++ [FireTriggerDisconnect connId].
Proof using Type.
  intros Hpending Hep Hq retry. unfold closeConnection.
  assert (_isDefinitelyDead Msg s connId = false) as ->.
  { unfold _isDefinitelyDead. now rewrite (has_key_true _ _ Hep). }
  unfold _handleEventToFire. bus_simpl. rewrite Hq. cbn [app].
  rewrite bool_decide_eq_true_2 by done.
  match goal with
  | |- context [scheduleCallback Msg ?s0 (Some ?cb) None (Some ?d) now] =>
      pose proof (scheduleCallback_pending s0 cb None (Some d) now
                    (or_introl eq_refl)) as [Hp He];
      pose proof (scheduleCallback_quiet s0 (Some cb) None (Some d) now)
        as Hquiet;
      assert (exists s1,
                scheduleCallback Msg s0 (Some cb) None (Some d) now = Ok s1 tt
                /\ _eventsToFireQueue Msg s1 = []
                /\ _connIdPendingOutgoingConnection Msg s1
                   = _connIdPendingOutgoingConnection Msg s
                /\ _connIdToOutgoingEndpoint Msg s1
                   = _connIdToOutgoingEndpoint Msg s)
        as (s1 & Hs1 & Hf & Hpend & Hend)
        by (unfold scheduleCallback; cbn [default from_option]; unfold id;
            bus_simpl;
            repeat case_match; eexists; (split; [reflexivity|]); done)
  end.
  rewrite Hs1 in Hp, He |- *. cbn [state_of] in Hp, He.
  exists s1. split; [done|]. split; [done|]. split; [exact He|].
  split; [|split; [done|split; [done|]]].
  - rewrite Hp. apply elem_of_SortedSet_add. left. bus_simpl.
    cbn [default from_option]. done.
  - intros s2 handled. reflexivity.
Qed.

(** *** The pending set over a run *)

Lemma scheduleCallback_pending_ok s cb atTimestamp delay now :
  pending_ok Msg s ->
  pending_ok Msg (state_of (scheduleCallback Msg s cb atTimestamp delay now)).
Proof using Type.
  intros [Hsorted Hnodup]. destruct cb as [cb|]; [|done].
  assert (atTimestamp = None \/ delay = None
          \/ state_of (scheduleCallback Msg s (Some cb) atTimestamp delay now)
             = s) as [Hargs|[Hargs| ->]]
    by (destruct atTimestamp, delay; auto); [| |done].
  all: destruct (scheduleCallback_pending s cb atTimestamp delay now)
         as [Hp _]; [auto|];
    cbv zeta in Hp; unfold pending_ok; rewrite Hp; split;
    [now apply (SortedSet_add_sorted fst)
    |now apply (SortedSet_add_NoDup fst)].
Qed.

(** The calls that leave the pending set alone. *)
Lemma _scheduleBytesForWrite_pending s connId msg :
  _pendingTimedCallbacks Msg (state_of (_scheduleBytesForWrite Msg s connId msg))
  = _pendingTimedCallbacks Msg s.
Proof using Type.
  unfold _scheduleBytesForWrite. repeat case_match; reflexivity.
Qed.

Lemma _markSocketClosed_pending s sock :
  _pendingTimedCallbacks Msg (state_of (_markSocketClosed Msg s sock))
  = _pendingTimedCallbacks Msg s.
Proof using Type.
  unfold _markSocketClosed. repeat case_match; reflexivity.
Qed.

Lemma handle_newMessages_pending ms s sock :
  _pendingTimedCallbacks Msg
    (state_of (handle_newMessages Msg deserialize s ms sock))
  = _pendingTimedCallbacks Msg s.
Proof using Type.
  revert s. induction ms as [|m ms IH]; intros s; simpl; [done|].
  assert (_pendingTimedCallbacks Msg
            (_handleIncomingMessage Msg deserialize s m sock).1
          = _pendingTimedCallbacks Msg s) as H1
    by (unfold _handleIncomingMessage; repeat case_match; reflexivity).
  destruct (_handleIncomingMessage Msg deserialize s m sock) as [s1 ok].
  simpl in H1. destruct ok.
  - now rewrite IH.
  - now rewrite _markSocketClosed_pending.
Qed.

Lemma _handleReadReadySocket_pending s sock acc rcv :
  _pendingTimedCallbacks Msg
    (state_of (_handleReadReadySocket Msg deserialize s sock acc rcv))
  = _pendingTimedCallbacks Msg s.
Proof using Type.
  unfold _handleReadReadySocket.
  assert (forall s1,
            _pendingTimedCallbacks Msg
              (state_of (bind (_markSocketClosed Msg s1 sock)
                           (fun s2 _ => Ok s2 (Some true))))
            = _pendingTimedCallbacks Msg s1) as Hclosed.
  { intros s1. pose proof (_markSocketClosed_pending s1 sock) as H.
    destruct (_markSocketClosed Msg s1 sock); exact H. }
  case_bool_decide.
  { destruct acc; [|done]. simpl. destruct (_authToken Msg s); done. }
  case_bool_decide; [|done].
  destruct rcv as [b| | | |]; try done; try apply Hclosed.
  destruct b as [|b0 b]; [apply Hclosed|].
  destruct (_incomingSocketBuffers Msg s !! sock) as [mb|]; [|done].
  destruct (MessageBuffer.write mb (b0 :: b)) as [[mb' [ms|[sc n|]]]|];
    try done.
  - match goal with
    | |- context [handle_newMessages Msg deserialize ?s1 ms sock] =>
        pose proof (handle_newMessages_pending ms s1 sock) as H1;
        destruct (handle_newMessages Msg deserialize s1 ms sock)
    end; exact H1.
  - now rewrite Hclosed.
Qed.

Lemma flush_messages_pending ms s connId :
  _pendingTimedCallbacks Msg (state_of (flush_messages Msg s connId ms))
  = _pendingTimedCallbacks Msg s.
Proof using Type.
  revert s. induction ms as [|m ms IH]; intros s; simpl; [done|].
  pose proof (_scheduleBytesForWrite_pending s connId m) as H1.
  destruct (_scheduleBytesForWrite Msg s connId m) as [s1 []|s1 e];
    simpl in *; [|done].
  now rewrite IH.
Qed.

Lemma _connectTo_pending s connId res :
  _pendingTimedCallbacks Msg (state_of (_connectTo Msg s connId res))
  = _pendingTimedCallbacks Msg s.
Proof using Type.
  assert (forall s1,
            _pendingTimedCallbacks Msg (state_of (_connectTo_failed Msg s1 connId))
            = _pendingTimedCallbacks Msg s1) as Hfailed
    by (intros s1; unfold _connectTo_failed; repeat case_match; reflexivity).
  unfold _connectTo.
  destruct (_connIdToOutgoingEndpoint Msg s !! connId); [|done].
  destruct res as [sock|]; [|apply Hfailed].
  match goal with
  | |- context [match ?f with Ok _ _ => _ | Raise _ _ => _ end] =>
      assert (_pendingTimedCallbacks Msg (state_of f)
              = _pendingTimedCallbacks Msg s) as Hf;
      [|destruct f as [s1 r|s1 e1]; simpl in Hf |- *;
        [done | now rewrite Hfailed]]
  end.
  case_match; [|done]. now rewrite flush_messages_pending.
Qed.

Lemma eventThread_run_pending io queue s handled :
  _pendingTimedCallbacks Msg (eventThread_run Msg io queue s handled).1.1
  = _pendingTimedCallbacks Msg s.
Proof using Type.
  revert s handled.
  induction queue as [|item rest IH]; intros s handled; simpl; [done|].
  destruct item as [e|cb|]; [apply IH| |done].
  rewrite IH. destruct cb as [i|i connId|i connId]; [done| |done].
  pose proof (_connectTo_pending s connId (io connId)) as H.
  destruct (_connectTo Msg s connId (io connId)); exact H.
Qed.

(** The calls that add to the pending set or take from it. *)
Lemma _handleMessageToSend_pending_ok s now :
  pending_ok Msg s -> pending_ok Msg (state_of (_handleMessageToSend Msg s now)).
Proof using Type.
  intros Hok. unfold _handleMessageToSend.
  destruct (_messagesToSendQueue Msg s) as [|item rest]; [done|].
  destruct item as [|connId [|msg]]; [done| |].
  - match goal with
    | |- context [bind ?m _] =>
        assert (_pendingTimedCallbacks Msg (state_of m)
                = _pendingTimedCallbacks Msg s) as Hm
          by (repeat case_match; try done;
              now rewrite _scheduleBytesForWrite_pending);
        destruct m as [s1 []|s1 e]; cbn [bind state_of] in Hm |- *
    end.
    + apply scheduleCallback_pending_ok. unfold pending_ok. bus_simpl.
      now rewrite Hm.
    + unfold pending_ok. now rewrite Hm.
  - unfold pending_ok. now rewrite _scheduleBytesForWrite_pending.
Qed.

Lemma _handleMessageToSend_times_pending_ok n s now :
  pending_ok Msg s ->
  pending_ok Msg (state_of (_handleMessageToSend_times Msg n s now)).
Proof using Type.
  revert s. induction n as [|n IH]; intros s Hok; simpl; [done|].
  pose proof (_handleMessageToSend_pending_ok s now Hok) as H1.
  destruct (_handleMessageToSend Msg s now) as [s1 []|s1 e]; simpl in *;
    [|done].
  now apply IH.
Qed.

Lemma _handleEventToFire_pending_ok s now :
  pending_ok Msg s -> pending_ok Msg (state_of (_handleEventToFire Msg s now)).
Proof using Type.
  intros Hok. unfold _handleEventToFire.
  destruct (_eventsToFireQueue Msg s) as [|readMessage rest]; [done|].
  destruct readMessage as [connId|e].
  - case_match.
    + now apply scheduleCallback_pending_ok.
    + unfold pending_ok.
      repeat case_match; try done; now rewrite _markSocketClosed_pending.
  - destruct e; try done. simpl. case_match; done.
Qed.

Lemma consume_loop_suffix (clock : nat -> Z) (pending : list (Z * callback)) :
  forall (k : nat) (q : list (queueItem Msg)),
    exists delivered,
      pending = delivered ++ (consume_loop Msg clock k pending q).1.1.
Proof using Type.
  intros k q. destruct (consume_loop_prefix clock pending k q) as (d & H & _).
  eauto.
Qed.

Lemma _consumeCallbacksOnOutputThread_pending_ok s clock :
  pending_ok Msg s ->
  pending_ok Msg (_consumeCallbacksOnOutputThread Msg s clock).1.
Proof using Type.
  intros [Hsorted Hnodup]. unfold _consumeCallbacksOnOutputThread.
  destruct (consume_loop_suffix clock (_pendingTimedCallbacks Msg s) 0
              (_eventQueue Msg s)) as (d & Hd).
  destruct (consume_loop Msg clock 0 _ _) as [[pending eventQueue] r].
  simpl in Hd. unfold pending_ok. bus_simpl. rewrite Hd in Hsorted, Hnodup.
  split.
  - clear -Hsorted. induction d as [|x d IH]; [done|].
    apply IH. now apply StronglySorted_inv in Hsorted as [? _].
  - now apply NoDup_app in Hnodup as (_ & _ & ?).
Qed.

Lemma step_pending_ok (c : call Msg) s :
  pending_ok Msg s -> pending_ok Msg (step Msg serialize deserialize c s).
Proof using Type.
  intros Hok.
  destruct c as [bound|endpoint|connectionId|connectionId message
                |cb atTimestamp delay now|now|now|sock acc rcv|sock res
                |clock|io]; simpl.
  - unfold start. repeat case_match; done.
  - unfold connect. case_match; done.
  - unfold closeConnection. case_match; done.
  - unfold sendMessage. repeat case_match; done.
  - now apply scheduleCallback_pending_ok.
  - unfold _handleMessageToSendWakePipe.
    now apply _handleMessageToSend_times_pending_ok.
  - now apply _handleEventToFire_pending_ok.
  - unfold pending_ok. now rewrite _handleReadReadySocket_pending.
  - unfold _handleWriteReadySocket. repeat case_match; done.
  - now apply _consumeCallbacksOnOutputThread_pending_ok.
  - unfold pending_ok, _eventThreadLoop. now rewrite eventThread_run_pending.
Qed.

(** Over any run of a bus, from its construction on and whatever the
    system calls give, the pending set of timed callbacks stays in
    deadline order and never holds the same (timestamp, callback) pair
    twice. *)
Theorem pending_callbacks_stay_sorted (cs : list (call Msg))
    (authToken : option str) (extraMessageSizeCheck : bool) :
  pending_ok Msg
    (run Msg serialize deserialize cs (init Msg authToken extraMessageSizeCheck)).1.
Proof using Type.
  assert (forall s, pending_ok Msg s ->
            pending_ok Msg (run Msg serialize deserialize cs s).1) as Hrun.
  { induction cs as [|c cs IH]; intros s Hok; simpl; [done|].
    specialize (IH _ (step_pending_ok c s Hok)).
    destruct (run Msg serialize deserialize cs _) as [s' ids]. exact IH. }
  apply Hrun. split; constructor.
Qed.

(** *** The token and the messages behind it *)

(** [scheduleCallback] touches the pending set and the general wake pipe
    and nothing else. *)
Lemma scheduleCallback_frame s (cb : callback) (atTimestamp delay : option Z)
    (now : Z) :
  atTimestamp = None \/ delay = None ->
  exists pending pipe,
    scheduleCallback Msg s (Some cb) atTimestamp delay now
    = Ok (set__generalWakePipe Msg pipe
            (set__pendingTimedCallbacks Msg pending s)) tt /\
    (default (now + default 0 delay) atTimestamp, cb) ∈ pending.
Proof using Type.
  intros Hargs. unfold scheduleCallback.
  assert (match atTimestamp, delay with
          | Some _, Some _ => False
          | _, _ => True
          end) as Hok
    by (destruct Hargs; subst; [|destruct atTimestamp]; exact I).
  set (p := SortedSet_add fst (default (now + default 0 delay) atTimestamp, cb)
              (_pendingTimedCallbacks Msg s)).
  assert ((default (now + default 0 delay) atTimestamp, cb) ∈ p) as Hin
    by (apply elem_of_SortedSet_add; now left).
  destruct atTimestamp as [ts|], delay as [d|]; [done| | |]; bus_simpl;
    fold p; destruct p as [|[ts0 cb0] rest]; try (destruct (ts0 =? _));
    bus_simpl.
  all: first
         [ exists [], (_generalWakePipe Msg s);
           split; [now destruct s | exact Hin]
         | exists ((ts0, cb0) :: rest), (S (_generalWakePipe Msg s));
           split; [now destruct s | exact Hin]
         | exists ((ts0, cb0) :: rest), (_generalWakePipe Msg s);
           split; [now destruct s | exact Hin] ].
Qed.

(** While a connection is pending, [_scheduleBytesForWrite] stages a
    non-empty message in the preconnect buffer of its id. *)
Lemma _scheduleBytesForWrite_staged s connId (b0 : byte) (b : bytes) :
  _connIdToOutgoingSocket Msg s !! connId = None ->
  _connIdToIncomingSocket Msg s !! connId = None ->
  connId ∈ _connIdPendingOutgoingConnection Msg s ->
  _scheduleBytesForWrite Msg s connId (b0 :: b)
  = Ok (set__messagesForUnconnectedOutgoingConnection Msg
          (<[connId := default []
                         (_messagesForUnconnectedOutgoingConnection Msg s
                            !! connId) ++ [b0 :: b]]>
             (_messagesForUnconnectedOutgoingConnection Msg s)) s) tt.
Proof using Type.
  intros Hout Hin Hp. unfold _scheduleBytesForWrite. rewrite Hout, Hin.
  now rewrite bool_decide_eq_true_2.
Qed.

(** [connect] and then [sendMessage] on the new id, field by field. *)
Lemma connect_sendMessage_fields s (endpoint : Endpoint) (message : Msg)
    (serializedMessage : bytes) :
  started Msg s = true ->
  serialize message = Some serializedMessage ->
  let connId := _connectionIdCounter Msg s + 1 in
  let s2 := state_of (sendMessage Msg serialize
                        (state_of (connect Msg s endpoint)) connId message) in
  _messagesToSendQueue Msg s2
  = _messagesToSendQueue Msg s
    ++ [SendTo connId TriggerConnect;
        SendTo connId (Payload serializedMessage)] /\
  _messageToSendWakePipe Msg s2 = S (S (_messageToSendWakePipe Msg s)) /\
  _connIdToOutgoingEndpoint Msg s2
  = <[connId := endpoint]> (_connIdToOutgoingEndpoint Msg s) /\
  _connIdPendingOutgoingConnection Msg s2
  = {[ connId ]} ∪ _connIdPendingOutgoingConnection Msg s /\
  _connIdToOutgoingSocket Msg s2 = _connIdToOutgoingSocket Msg s /\
  _connIdToIncomingSocket Msg s2 = _connIdToIncomingSocket Msg s /\
  _messagesForUnconnectedOutgoingConnection Msg s2
  = _messagesForUnconnectedOutgoingConnection Msg s /\
  _socketToBytesNeedingWrite Msg s2 = _socketToBytesNeedingWrite Msg s /\
  extraMessageSizeCheck Msg s2 = extraMessageSizeCheck Msg s /\
  _authToken Msg s2 = _authToken Msg s /\
  _lambdaCounter Msg s2 = _lambdaCounter Msg s.
Proof using Type.
  intros Hstarted Hser connId s2. unfold s2, connect. rewrite Hstarted.
  cbn [negb state_of _newConnectionId]. bus_simpl. unfold sendMessage.
  bus_simpl. rewrite Hstarted, Hser. cbn [negb].
  unfold _isDefinitelyDead, has_key. bus_simpl. rewrite lookup_insert_eq.
  rewrite (bool_decide_eq_true_2 (is_Some (Some endpoint))) by eauto.
  cbn [negb andb state_of]. bus_simpl. rewrite <- app_assoc.
  repeat split.
Qed.

(** [_handleMessageToSend] on a [TriggerConnect] of a pending connection,
    with a non-empty token: the token is staged and the callback that
    connects is pending for now. *)
Lemma _handleMessageToSend_TriggerConnect s connId rest (tok : str)
    (t0 : byte) (tb : bytes) (now : Z) :
  _messagesToSendQueue Msg s = SendTo connId TriggerConnect :: rest ->
  _authToken Msg s = Some tok ->
  utf8_encode tok = Some (t0 :: tb) ->
  _connIdToOutgoingSocket Msg s !! connId = None ->
  _connIdToIncomingSocket Msg s !! connId = None ->
  connId ∈ _connIdPendingOutgoingConnection Msg s ->
  exists s',
    _handleMessageToSend Msg s now = Ok s' tt /\
    (now, ConnectTo (_lambdaCounter Msg s) connId)
      ∈ _pendingTimedCallbacks Msg s' /\
    _messagesToSendQueue Msg s' = rest /\
    _messagesForUnconnectedOutgoingConnection Msg s'
    = <[connId := default []
                    (_messagesForUnconnectedOutgoingConnection Msg s
                       !! connId) ++ [t0 :: tb]]>
        (_messagesForUnconnectedOutgoingConnection Msg s) /\
    _connIdToOutgoingSocket Msg s' = _connIdToOutgoingSocket Msg s /\
    _connIdToIncomingSocket Msg s' = _connIdToIncomingSocket Msg s /\
    _connIdPendingOutgoingConnection Msg s'
    = _connIdPendingOutgoingConnection Msg s /\
    _connIdToOutgoingEndpoint Msg s' = _connIdToOutgoingEndpoint Msg s /\
    _socketToBytesNeedingWrite Msg s' = _socketToBytesNeedingWrite Msg s /\
    extraMessageSizeCheck Msg s' = extraMessageSizeCheck Msg s.
Proof using Type.
  intros Hq Htok Henc Hout Hin Hp. unfold _handleMessageToSend.
  rewrite Hq. bus_simpl. rewrite Htok, Henc.
  rewrite _scheduleBytesForWrite_staged by (bus_simpl; assumption).
  cbn [bind].
  match goal with
  | |- context [scheduleCallback Msg ?s0 (Some ?cb) None None now] =>
      destruct (scheduleCallback_frame s0 cb None None now (or_introl eq_refl))
        as (pending & pipe & Hsched & Hcb)
  end.
  cbn [default from_option] in Hcb. bus_simpl in Hcb.
  rewrite Z.add_0_r in Hcb.
  eexists. split; [exact Hsched|]. bus_simpl. repeat split. exact Hcb.
Qed.

(** [_handleMessageToSend] on a non-empty message of a pending connection:
    the message is staged behind what the preconnect buffer holds. *)
Lemma _handleMessageToSend_Payload_staged s connId rest (m0 : byte)
    (mb : bytes) (now : Z) :
  _messagesToSendQueue Msg s = SendTo connId (Payload (m0 :: mb)) :: rest ->
  _connIdToOutgoingSocket Msg s !! connId = None ->
  _connIdToIncomingSocket Msg s !! connId = None ->
  connId ∈ _connIdPendingOutgoingConnection Msg s ->
  exists s',
    _handleMessageToSend Msg s now = Ok s' tt /\
    _pendingTimedCallbacks Msg s' = _pendingTimedCallbacks Msg s /\
    _messagesToSendQueue Msg s' = rest /\
    _messagesForUnconnectedOutgoingConnection Msg s'
    = <[connId := default []
                    (_messagesForUnconnectedOutgoingConnection Msg s
                       !! connId) ++ [m0 :: mb]]>
        (_messagesForUnconnectedOutgoingConnection Msg s) /\
    _connIdToOutgoingEndpoint Msg s' = _connIdToOutgoingEndpoint Msg s /\
    _socketToBytesNeedingWrite Msg s' = _socketToBytesNeedingWrite Msg s /\
    extraMessageSizeCheck Msg s' = extraMessageSizeCheck Msg s.
Proof using Type.
  intros Hq Hout Hin Hp. unfold _handleMessageToSend. rewrite Hq. bus_simpl.
  rewrite _scheduleBytesForWrite_staged by (bus_simpl; assumption).
  eexists. split; [reflexivity|]. bus_simpl. repeat split.
Qed.

(** The connecting side. On a started bus with a non-empty auth token and
    an idle send queue, [connect], then one [sendMessage] on the new id,
    then the socket thread's [_handleMessageToSendWakePipe]: the callback
    that will connect is pending, and when it makes the connection the
    socket's write buffer receives the frame of the token and, behind it,
    the frame of the message. *)
Theorem token_frame_precedes_message s (endpoint : Endpoint) (message : Msg)
    (tok : str) (t0 m0 : byte) (tb mb : bytes) (f1 f2 : bytes)
    (sock : socket) (now : Z) :
  started Msg s = true ->
  _authToken Msg s = Some tok ->
  utf8_encode tok = Some (t0 :: tb) ->
  serialize message = Some (m0 :: mb) ->
  _messagesToSendQueue Msg s = [] ->
  _messageToSendWakePipe Msg s = 0%nat ->
  let connId := _connectionIdCounter Msg s + 1 in
  _connIdToOutgoingSocket Msg s !! connId = None ->
  _connIdToIncomingSocket Msg s !! connId = None ->
  _messagesForUnconnectedOutgoingConnection Msg s !! connId = None ->
  MessageBuffer.encode (t0 :: tb) (extraMessageSizeCheck Msg s) = Some f1 ->
  MessageBuffer.encode (m0 :: mb) (extraMessageSizeCheck Msg s) = Some f2 ->
  let s1 := state_of (connect Msg s endpoint) in
  let s2 := state_of (sendMessage Msg serialize s1 connId message) in
  exists s3 s4,
    _handleMessageToSendWakePipe Msg s2 now = Ok s3 tt /\
    (now, ConnectTo (_lambdaCounter Msg s) connId)
      ∈ _pendingTimedCallbacks Msg s3 /\
    _connectTo Msg s3 connId (Connected sock) = Ok s4 true /\
    default [] (_socketToBytesNeedingWrite Msg s4 !! sock)
    = default [] (_socketToBytesNeedingWrite Msg s !! sock) ++ f1 ++ f2.
Proof using Type.
  intros Hstarted Htok Henc Hser Hq Hpipe connId Hout Hin Hpre Hf1 Hf2 s1 s2.
  pose proof (connect_sendMessage_fields s endpoint message (m0 :: mb)
                Hstarted Hser) as H2.
  cbv zeta in H2. fold connId in H2. fold s1 in H2. fold s2 in H2.
  clearbody s2. clear s1.
  destruct H2 as (Hq2 & Hp2 & Hep2 & Hpend2 & Hout2 & Hin2 & Hun2 & Hw2
                  & Hx2 & Htok2 & Hl2).
  rewrite Hq in Hq2. cbn [app] in Hq2. rewrite Hpipe in Hp2.
  assert (connId ∈ _connIdPendingOutgoingConnection Msg s2) as Hpending
    by (rewrite Hpend2; apply elem_of_union_l; now apply elem_of_singleton).
  (* the TriggerConnect *)
  destruct (_handleMessageToSend_TriggerConnect
              (set__messageToSendWakePipe Msg 0%nat s2) connId
              [SendTo connId (Payload (m0 :: mb))] tok t0 tb now)
    as (sB & HB & Hcb & HqB & HunB & HoutB & HinB & HpendB & HepB & HwB
        & HxB).
  { exact Hq2. }
  { bus_simpl. now rewrite Htok2. }
  { exact Henc. }
  { bus_simpl. now rewrite Hout2. }
  { bus_simpl. now rewrite Hin2. }
  { exact Hpending. }
  bus_simpl in Hcb. bus_simpl in HunB. bus_simpl in HoutB.
  bus_simpl in HinB. bus_simpl in HpendB. bus_simpl in HepB.
  bus_simpl in HwB. bus_simpl in HxB.
  rewrite Hl2 in Hcb. rewrite Hun2, Hpre in HunB.
  cbn [default from_option app] in HunB.
  (* the message *)
  destruct (_handleMessageToSend_Payload_staged sB connId [] m0 mb now)
    as (sC & HC & HcbC & HqC & HunC & HepC & HwC & HxC).
  { exact HqB. }
  { now rewrite HoutB, Hout2. }
  { now rewrite HinB, Hin2. }
  { now rewrite HpendB. }
  rewrite HunB, lookup_insert_eq, insert_insert_eq in HunC.
  cbn [default from_option app] in HunC. unfold id in HunC.
  (* the connection is made *)
  destruct (_connectTo_connected sC connId sock endpoint
              [t0 :: tb; m0 :: mb] (f1 ++ f2))
    as (s4 & Hc & Hw & _).
  { rewrite HepC, HepB, Hep2. apply lookup_insert_eq. }
  { rewrite HunC. apply lookup_insert_eq. }
  { repeat constructor; discriminate. }
  { rewrite HxC, HxB, Hx2. cbn [MessageBuffer.encode_all].
    rewrite Hf1, Hf2. now rewrite app_nil_r. }
  exists sC, s4. split.
  { unfold _handleMessageToSendWakePipe. rewrite Hp2.
    cbn [_handleMessageToSend_times]. rewrite HB. cbn [bind]. rewrite HC.
    reflexivity. }
  split; [rewrite HcbC; exact Hcb|]. split; [exact Hc|].
  rewrite Hw, HwC, HwB, Hw2. reflexivity.
Qed.

End Facts.

(** A started bus with one outgoing connection, 1: a message for it is
    queued, a message for the unknown id 2 is refused. *)
Lemma sendMessage_known_dead_witness :
  let s := state_of (connect bytes
             (state_of (start bytes (init bytes None true) (Some None)))
             ("localhost"%string, 8000)) in
  (exists s' r,
     sendMessage bytes Some s 1 [x61] = Ok s' r /\
     (r = false <->
      _connIdToIncomingEndpoint bytes s !! 1 = None /\
      _connIdToOutgoingEndpoint bytes s !! 1 = None) /\
     (r = false -> s' = s) /\
     (r = true ->
      s' = _putOnSendQueue bytes s 1 (Payload [x61])
      /\ _messagesToSendQueue bytes s'
         = _messagesToSendQueue bytes s ++ [SendTo 1 (Payload [x61])]
      /\ _messageToSendWakePipe bytes s'
         = S (_messageToSendWakePipe bytes s))).
Proof.
  intros s.
  exact (sendMessage_known_dead bytes Some s 1 [x61] eq_refl).
Defined.

(** On the sample bus, connection 1 (socket 5) is incoming and
    authenticated; on the sample client, connection 1 (socket 9) is
    outgoing. On either, one read brings the frames of [a], of a payload
    the codec refuses, and of [b]: [a] is delivered, the connection is
    closed, [b] is lost. *)
Lemma deserialization_failure_closes_witness :
  (let s := Sample.accepted None in
   exists s',
     _handleReadReadySocket bytes Sample.deserialize s 5%nat AcceptOSError
       (Received (x01 :: x00 :: x00 :: x00 :: x61 :: x01 :: x00 :: x00 :: x00
                  :: Sample.frame [x00] ++ Sample.frame [x62]))
     = Ok s' (Some true) /\
     _eventQueue bytes s'
     = _eventQueue bytes s
       ++ map (fun m => QEvent (IncomingMessage 1 m)) [[x61]]
       ++ [QEvent (IncomingConnectionClosed 1)] /\
     (_connIdToIncomingSocket bytes s' !! 1 = None /\
      _socketToIncomingConnId bytes s' !! 5%nat = None /\
      _connIdToIncomingEndpoint bytes s' !! 1 = None) /\
     _incomingSocketBuffers bytes s' !! 5%nat = None /\
     _socketToBytesNeedingWrite bytes s' !! 5%nat = None /\
     5%nat ∉ _allSockets bytes s') /\
  (let s := Sample.connected None in
   exists s',
     _handleReadReadySocket bytes Sample.deserialize s 9%nat AcceptOSError
       (Received (x01 :: x00 :: x00 :: x00 :: x61 :: x01 :: x00 :: x00 :: x00
                  :: Sample.frame [x00] ++ Sample.frame [x62]))
     = Ok s' (Some true) /\
     _eventQueue bytes s'
     = _eventQueue bytes s
       ++ map (fun m => QEvent (IncomingMessage 1 m)) [[x61]]
       ++ [QEvent (OutgoingConnectionClosed 1)] /\
     (_connIdToOutgoingSocket bytes s' !! 1 = None /\
      _socketToOutgoingConnId bytes s' !! 9%nat = None /\
      _connIdToOutgoingEndpoint bytes s' !! 1 = None) /\
     _incomingSocketBuffers bytes s' !! 9%nat = None /\
     _socketToBytesNeedingWrite bytes s' !! 9%nat = None /\
     9%nat ∉ _allSockets bytes s').
Proof.
  split; intros s.
  - apply (deserialization_failure_closes bytes Sample.deserialize s 5%nat 1
             AcceptOSError true (MessageBuffer.init true)
             {| MessageBuffer.buffer := []; MessageBuffer.messagesEver := 3;
                MessageBuffer.extraMessageSizeCheck := true;
                MessageBuffer.curMessageLen := None |}
             x01 _ [[x61]] [[x61]] [x00] [[x62]]).
    + vm_compute. discriminate.
    + apply (bool_decide_unpack _). vm_compute. exact I.
    + vm_compute. eauto.
    + apply (bool_decide_unpack _). vm_compute. exact I.
    + vm_compute. reflexivity.
    + vm_compute. reflexivity.
    + repeat constructor.
    + reflexivity.
  - apply (deserialization_failure_closes bytes Sample.deserialize s 9%nat 1
             AcceptOSError false (MessageBuffer.init true)
             {| MessageBuffer.buffer := []; MessageBuffer.messagesEver := 3;
                MessageBuffer.extraMessageSizeCheck := true;
                MessageBuffer.curMessageLen := None |}
             x01 _ [[x61]] [[x61]] [x00] [[x62]]).
    + vm_compute. discriminate.
    + apply (bool_decide_unpack _). vm_compute. exact I.
    + vm_compute. eauto 10.
    + apply (bool_decide_unpack _). vm_compute. exact I.
    + vm_compute. reflexivity.
    + vm_compute. reflexivity.
    + repeat constructor.
    + reflexivity.
Defined.

(** The same read with the refused payload first: the connection was in
    the registry and authenticated; after the read it is gone, the event
    queue has gained an [IncomingConnectionClosed] and nothing else, and
    the frame behind the refused one is not delivered. *)
Lemma deserialization_failure_keeps_connection_counterexample :
  let s := Sample.accepted None in
  _connIdToIncomingSocket bytes s !! 1 = Some 5%nat /\
  (1 ∉ _unauthenticatedConnections bytes s) /\
  Sample.deserialize [x00] = None /\
  Sample.deserialize [x62] = Some [x62] /\
  exists s',
    _handleReadReadySocket bytes Sample.deserialize s 5%nat AcceptOSError
      (Received (Sample.frame [x00] ++ Sample.frame [x62]))
    = Ok s' (Some true) /\
    _connIdToIncomingSocket bytes s' !! 1 = None /\
    _eventQueue bytes s'
    = _eventQueue bytes s ++ [QEvent (IncomingConnectionClosed 1)].
Proof.
  intros s. split; [vm_compute; reflexivity|].
  split; [apply (bool_decide_unpack _); vm_compute; exact I|].
  split; [reflexivity|]. split; [reflexivity|].
  eexists. split; [vm_compute; reflexivity|].
  split; vm_compute; reflexivity.
Qed.

(** The sample bus with the token [T]: connection 1 is unauthenticated.
    A read brings the frame of the token and the frame of a message: the
    connection is authenticated and the call goes on with the message. *)
Lemma first_payload_is_checked_against_token_witness :
  let s := Sample.accepted (Some [84]) in
  exists s1,
    (1 ∉ _unauthenticatedConnections bytes s1) /\
    _eventQueue bytes s1 = _eventQueue bytes s /\
    _handleReadReadySocket bytes Sample.deserialize s 5%nat AcceptOSError
      (Received [x01; x00; x00; x00; x54; x01; x00; x00; x00;
                 x01; x00; x00; x00; x61; x01; x00; x00; x00])
    = bind (handle_newMessages bytes Sample.deserialize s1 [[x61]] 5%nat)
        (fun s _ => Ok s (Some true)).
Proof.
  intros s.
  destruct (first_payload_is_checked_against_token bytes Sample.deserialize
              s 5%nat 1 AcceptOSError [84] (MessageBuffer.init true)
              {| MessageBuffer.buffer := [];
                 MessageBuffer.messagesEver := 2;
                 MessageBuffer.extraMessageSizeCheck := true;
                 MessageBuffer.curMessageLen := None |}
              x01 [x00; x00; x00; x54; x01; x00; x00; x00;
                   x01; x00; x00; x00; x61; x01; x00; x00; x00]
              [x54] [[x61]]) as [Hyes _].
  - vm_compute. discriminate.
  - apply (bool_decide_unpack _). vm_compute. exact I.
  - reflexivity.
  - vm_compute. reflexivity.
  - apply (bool_decide_unpack _). vm_compute. exact I.
  - vm_compute. eauto.
  - vm_compute. eauto.
  - vm_compute. reflexivity.
  - vm_compute. reflexivity.
  - eexists. exact (Hyes eq_refl).
Defined.

(** Two user callbacks for the timestamp 50 on a bus with one callback
    pending for 70; the socket thread looks at its clock at 60. *)
Lemma equal_deadlines_fire_in_insertion_order_witness :
  let s := state_of (scheduleCallback bytes (Sample.client None)
                       (Some (UserCallback 0)) (Some 70) None 0) in
  let s1 := state_of (scheduleCallback bytes s (Some (UserCallback 1))
                        (Some 50) None 0) in
  let s2 := state_of (scheduleCallback bytes s1 (Some (UserCallback 2))
                        (Some 50) None 0) in
  let s3 := (_consumeCallbacksOnOutputThread bytes s2 (fun _ => 60)).1 in
  StronglySorted (fun a b => a.1 <= b.1) (_pendingTimedCallbacks bytes s2) /\
  exists delivered,
    _pendingTimedCallbacks bytes s2
    = delivered ++ _pendingTimedCallbacks bytes s3 /\
    _eventQueue bytes s3
    = _eventQueue bytes s ++ map (fun p => QCallback p.2) delivered /\
    exists a b c,
      delivered = a ++ (50, UserCallback 1) :: b ++ (50, UserCallback 2) :: c.
Proof.
  intros s.
  apply (equal_deadlines_fire_in_insertion_order bytes s
           (UserCallback 1) (UserCallback 2) 50 0 0 (fun _ => 60)).
  - vm_compute. repeat constructor.
  - discriminate.
  - apply (bool_decide_unpack _). vm_compute. exact I.
  - intros _. lia.
Defined.

(** The same callable scheduled twice for the same timestamp is pending
    once and is handed to the event thread once. *)
Lemma same_callback_twice_counterexample :
  let s := Sample.client None in
  let s1 := state_of (scheduleCallback bytes s (Some (UserCallback 7))
                        (Some 50) None 0) in
  let s2 := state_of (scheduleCallback bytes s1 (Some (UserCallback 7))
                        (Some 50) None 0) in
  let s3 := (_consumeCallbacksOnOutputThread bytes s2 (fun _ => 60)).1 in
  _pendingTimedCallbacks bytes s2 = [(50, UserCallback 7)] /\
  _eventQueue bytes s3 = [QCallback (UserCallback 7)] /\
  _pendingTimedCallbacks bytes s3 = [].
Proof. vm_compute. repeat split. Qed.

(** C3. The failing input: a bus whose auth token is the empty string.
    [connect], then [sendMessage], then the socket thread and the event
    thread do their work and the connection is made on socket 9. The
    token is configured, yet the first frame in the socket's write buffer
    is the user's message: [_scheduleBytesForWrite] has dropped the empty
    token. The accepting bus, with the same token, takes that frame for
    the token and closes the connection. *)
Theorem empty_auth_token_is_never_sent :
  let s0 := Sample.client (Some []) in
  let s1 := state_of (connect bytes s0 Sample.peer) in
  let s2 := state_of (sendMessage bytes Sample.serialize s1 1 [x61]) in
  let s3 := state_of (_handleMessageToSendWakePipe bytes s2 1000) in
  let s4 := (_consumeCallbacksOnOutputThread bytes s3 (fun _ => 1000)).1 in
  let s5 := (_eventThreadLoop bytes s4 (fun _ => Connected 9%nat)).1.1 in
  let r := Sample.accepted (Some []) in
  _authToken bytes s0 = Some [] /\
  utf8_encode [] = Some [] /\
  _socketToBytesNeedingWrite bytes s5 !! 9%nat = Some (Sample.frame [x61]) /\
  exists r',
    _handleReadReadySocket bytes Sample.deserialize r 5%nat AcceptOSError
      (Received (Sample.frame [x61])) = Ok r' (Some true) /\
    _eventQueue bytes r'
    = _eventQueue bytes r ++ [QEvent (IncomingConnectionClosed 1)] /\
    _connIdToIncomingSocket bytes r' !! 1 = None.
Proof.
  intros s0 s1 s2 s3 s4 s5 r.
  split; [reflexivity|]. split; [reflexivity|].
  split; [vm_compute; reflexivity|].
  eexists. split; [vm_compute; reflexivity|].
  split; vm_compute; reflexivity.
Qed.

(** ** The properties above on the sample buses *)

Ltac by_computation :=
  first [ apply (bool_decide_unpack _); vm_compute; exact I
        | vm_compute; first [ reflexivity | discriminate | eauto ] ].

Lemma connect_then_sendMessage_witness :
  let s := Sample.client None in
  let connId := _connectionIdCounter bytes s + 1 in
  exists s1 s2,
    connect bytes s Sample.peer = Ok s1 connId /\
    _connIdToOutgoingEndpoint bytes s1 !! connId = Some Sample.peer /\
    connId ∈ _connIdPendingOutgoingConnection bytes s1 /\
    sendMessage bytes Sample.serialize s1 connId [x61] = Ok s2 true /\
    _messagesToSendQueue bytes s2
    = _messagesToSendQueue bytes s
      ++ [SendTo connId TriggerConnect; SendTo connId (Payload [x61])] /\
    _messageToSendWakePipe bytes s2 = S (S (_messageToSendWakePipe bytes s)).
Proof.
  intros s.
  apply (connect_then_sendMessage bytes Sample.serialize s Sample.peer
           [x61] [x61]); reflexivity.
Defined.

Lemma closeConnection_closes_outgoing_witness :
  let s := Sample.connected None in
  exists s',
    _handleEventToFire bytes (closeConnection bytes s 1) 2000 = Ok s' tt /\
    _eventQueue bytes s'
    = _eventQueue bytes s ++ [QEvent (OutgoingConnectionClosed 1)] /\
    _connIdToOutgoingSocket bytes s' !! 1 = None /\
    _socketToOutgoingConnId bytes s' !! 9%nat = None /\
    _connIdToOutgoingEndpoint bytes s' !! 1 = None /\
    (9%nat ∉ _allSockets bytes s') /\
    sendMessage bytes Sample.serialize s' 1 [x61] = Ok s' false.
Proof.
  intros s.
  apply (closeConnection_closes_outgoing bytes Sample.serialize s 9%nat 1
           2000 [x61] [x61]); by_computation.
Defined.

Lemma accept_registers_witness :
  let s := Sample.listening (Some [84]) in
  let connId := _connectionIdCounter bytes s + 1 in
  exists s',
    _handleReadReadySocket bytes Sample.deserialize s 0%nat
      (Accepted 5%nat Sample.peer) SSLWantReadError = Ok s' (Some true) /\
    _connectionIdCounter bytes s' = connId /\
    _connIdToIncomingSocket bytes s' !! connId = Some 5%nat /\
    _socketToIncomingConnId bytes s' !! 5%nat = Some connId /\
    _connIdToIncomingEndpoint bytes s' !! connId = Some Sample.peer /\
    _incomingSocketBuffers bytes s' !! 5%nat
    = Some (MessageBuffer.init (extraMessageSizeCheck bytes s)) /\
    5%nat ∈ _allSockets bytes s' /\
    (connId ∈ _unauthenticatedConnections bytes s'
     <-> (_authToken bytes s <> None
          \/ connId ∈ _unauthenticatedConnections bytes s)) /\
    _eventQueue bytes s'
    = _eventQueue bytes s ++ [QEvent (NewIncomingConnection Sample.peer connId)].
Proof.
  intros s.
  apply (accept_registers bytes Sample.deserialize s 0%nat 5%nat Sample.peer
           SSLWantReadError).
  reflexivity.
Defined.

(** Four of the nine bytes waiting for socket 9 are taken. *)
Lemma _handleWriteReadySocket_sent_witness :
  let s := state_of (_handleMessageToSendWakePipe bytes
             (state_of (sendMessage bytes Sample.serialize
                          (Sample.connected None) 1 [x61])) 1000) in
  exists s',
    _handleWriteReadySocket bytes s 9%nat (Sent 4) = Ok s' (Some true) /\
    _socketToBytesNeedingWrite bytes s' !! 9%nat
    = (if Z.of_nat (length (Sample.frame [x61])) <=? 4 then None
       else Some (drop (Z.to_nat 4) (Sample.frame [x61]))) /\
    (forall sock', sock' <> 9%nat ->
       _socketToBytesNeedingWrite bytes s' !! sock'
       = _socketToBytesNeedingWrite bytes s !! sock') /\
    _eventQueue bytes s' = _eventQueue bytes s.
Proof.
  intros s.
  apply (_handleWriteReadySocket_sent bytes s 9%nat (Sample.frame [x61]) 4).
  - vm_compute. reflexivity.
  - lia.
Defined.

(** The token [T] and a message were staged while connection 1 was
    pending. *)
Lemma _connectTo_flushes_in_order_witness :
  let s := state_of (_handleMessageToSendWakePipe bytes
             (state_of (sendMessage bytes Sample.serialize
                          (Sample.connecting (Some [84])) 1 [x61])) 1000) in
  exists s',
    _connectTo bytes s 1 (Connected 9%nat) = Ok s' true /\
    default [] (_socketToBytesNeedingWrite bytes s' !! 9%nat)
    = default [] (_socketToBytesNeedingWrite bytes s !! 9%nat)
      ++ (Sample.frame [x54] ++ Sample.frame [x61]) /\
    _messagesForUnconnectedOutgoingConnection bytes s' !! 1 = None /\
    (1 ∉ _connIdPendingOutgoingConnection bytes s') /\
    _connIdToOutgoingSocket bytes s' !! 1 = Some 9%nat /\
    _socketToOutgoingConnId bytes s' !! 9%nat = Some 1 /\
    _incomingSocketBuffers bytes s' !! 9%nat
    = Some (MessageBuffer.init (extraMessageSizeCheck bytes s)) /\
    _eventsToFireQueue bytes s'
    = _eventsToFireQueue bytes s
      ++ [FireEvent (OutgoingConnectionEstablished 1)].
Proof.
  intros s.
  apply (_connectTo_flushes_in_order bytes s 1 9%nat Sample.peer
           [[x54]; [x61]] (Sample.frame [x54] ++ Sample.frame [x61])).
  - vm_compute. reflexivity.
  - vm_compute. reflexivity.
  - repeat constructor; discriminate.
  - vm_compute. reflexivity.
Defined.

Lemma _connectTo_failure_kills_connection_witness :
  let s := Sample.connecting None in
  exists s',
    _connectTo bytes s 1 ConnectException = Ok s' false /\
    _eventsToFireQueue bytes s'
    = _eventsToFireQueue bytes s ++ [FireEvent (OutgoingConnectionFailed 1)]
    /\ (1 ∉ _connIdPendingOutgoingConnection bytes s') /\
    _messagesForUnconnectedOutgoingConnection bytes s' !! 1 = None /\
    _connIdToOutgoingEndpoint bytes s' !! 1 = None /\
    sendMessage bytes Sample.serialize s' 1 [x61] = Ok s' false.
Proof.
  intros s.
  apply (_connectTo_failure_kills_connection bytes Sample.serialize s 1
           Sample.peer [x61] [x61]); by_computation.
Defined.

(** The empty message on the established connection 1. *)
Lemma empty_serialization_is_dropped_witness :
  let s := Sample.connected None in
  exists s1,
    sendMessage bytes Sample.serialize s 1 [] = Ok s1 true /\
    _handleMessageToSend bytes s1 1000
    = Ok (set__messagesToSendQueue bytes [] s1) tt /\
    _socketToBytesNeedingWrite bytes s1 = _socketToBytesNeedingWrite bytes s /\
    _messagesForUnconnectedOutgoingConnection bytes s1
    = _messagesForUnconnectedOutgoingConnection bytes s.
Proof.
  intros s.
  apply (empty_serialization_is_dropped bytes Sample.serialize s 1 [] 1000);
    by_computation.
Defined.

(** One good frame, then a frame announcing 1 byte and closing with 2,
    read from connection 1 of the accepting bus. *)
Lemma corrupt_stream_closes_connection_witness :
  let s := Sample.accepted None in
  exists s',
    _handleReadReadySocket bytes Sample.deserialize s 5%nat AcceptOSError
      (Received [x01; x00; x00; x00; x61; x01; x00; x00; x00;
                 x01; x00; x00; x00; x62; x02; x00; x00; x00; x07])
    = Ok s' (Some true) /\
    _eventQueue bytes s'
    = _eventQueue bytes s ++ [QEvent (IncomingConnectionClosed 1)] /\
    _connIdToIncomingSocket bytes s' !! 1 = None /\
    _socketToIncomingConnId bytes s' !! 5%nat = None /\
    _connIdToIncomingEndpoint bytes s' !! 1 = None /\
    _incomingSocketBuffers bytes s' !! 5%nat = None /\
    (5%nat ∉ _allSockets bytes s').
Proof.
  intros s.
  apply (corrupt_stream_closes_connection bytes Sample.deserialize s 5%nat 1
           AcceptOSError 0 [[x61]]
           [x01; x00; x00; x00; x61; x01; x00; x00; x00]
           [x62] [x01; x00; x00; x00] [x02; x00; x00; x00] [x07] 2);
    by_computation.
Defined.

Lemma recv_SSLWantWriteError_raises_witness :
  let s := Sample.accepted None in
  exists s',
    _handleReadReadySocket bytes Sample.deserialize s 5%nat AcceptOSError
      SSLWantWriteError = Raise s' NameError /\
    s' = set__socketsWithSslWantWrite bytes
           ({[ 5%nat ]} ∪ _socketsWithSslWantWrite bytes s) s.
Proof.
  intros s.
  apply (recv_SSLWantWriteError_raises bytes Sample.deserialize s 5%nat
           AcceptOSError); by_computation.
Defined.

Lemma _markSocketClosed_twice_witness :
  let s := Sample.accepted None in
  exists s1,
    _markSocketClosed bytes s 5%nat = Ok s1 tt /\
    _eventQueue bytes s1
    = _eventQueue bytes s ++ [QEvent (IncomingConnectionClosed 1)] /\
    _markSocketClosed bytes s1 5%nat
    = Ok (set__allSockets bytes (_allSockets bytes s1 ∖ {[ 5%nat ]}) s1) tt.
Proof.
  intros s.
  apply (_markSocketClosed_twice bytes s 5%nat 1); by_computation.
Defined.

(** The accepting bus with the [None] of [stop] behind the event of the
    accepted connection. *)
Lemma _eventThreadLoop_handles_until_None_witness :
  let s := stop_event_thread bytes (Sample.accepted None) in
  exists s',
    _eventThreadLoop bytes s (fun _ => ConnectException)
    = (s', [QEvent (NewIncomingConnection Sample.peer 1)], true) /\
    _eventQueue bytes s' = [].
Proof.
  intros s.
  apply (_eventThreadLoop_handles_until_None bytes s
           (fun _ => ConnectException)
           [QEvent (NewIncomingConnection Sample.peer 1)] []).
  - reflexivity.
  - repeat constructor. discriminate.
Defined.

Lemma stop_until_join_stops_witness :
  let s := Sample.client None in
  let s1 := stop_until_join bytes s in
  connect bytes s1 Sample.peer = Raise s1 NotActive /\
  sendMessage bytes Sample.serialize s1 1 [x61] = Raise s1 NotActive /\
  stop_until_join bytes s1 = s1 /\
  exists s2,
    _handleEventToFire bytes s1 1000 = Raise s2 MessageBusLoopExit /\
    _eventQueue bytes s2 = _eventQueue bytes s ++ [QEvent Stopped] /\
    _eventsToFireQueue bytes s2 = [].
Proof.
  intros s.
  apply (stop_until_join_stops bytes Sample.serialize s Sample.peer 1 [x61]
           1000); reflexivity.
Defined.

(** Callbacks pending for 50 and 70, the clock at 60. *)
Lemma _consumeCallbacksOnOutputThread_delivers_due_witness :
  let s := Sample.scheduled in
  exists s' r delivered,
    _consumeCallbacksOnOutputThread bytes s (fun _ => 60) = (s', r) /\
    _pendingTimedCallbacks bytes s
    = delivered ++ _pendingTimedCallbacks bytes s' /\
    _eventQueue bytes s'
    = _eventQueue bytes s ++ map (fun p => QCallback p.2) delivered /\
    Forall (fun p => p.1 <= 60) delivered /\
    Forall (fun p => 60 < p.1) (_pendingTimedCallbacks bytes s') /\
    match r with
    | None => _pendingTimedCallbacks bytes s' = []
    | Some d =>
        exists ts cb rest,
          _pendingTimedCallbacks bytes s' = (ts, cb) :: rest /\
          0 < d /\ ts - 60 <= d <= ts - 60
    end.
Proof.
  intros s.
  apply (_consumeCallbacksOnOutputThread_delivers_due bytes s (fun _ => 60)
           60 60).
  - vm_compute. repeat constructor; discriminate.
  - intros _. lia.
Defined.


(** The client whose connection 1 has just been made by the event
    thread, so that its [OutgoingConnectionEstablished] waits to be fired;
    then [stop], and behind it a [closeConnection]. The socket thread
    fires the [OutgoingConnectionEstablished] and [Stopped]; the
    [TriggerDisconnect] behind [Stopped] stays in the queue. *)
Lemma Stopped_is_the_last_event_fired_witness :
  let s1 := state_of (_handleMessageToSendWakePipe bytes
                        (Sample.connecting None) 1000) in
  let s2 := (_consumeCallbacksOnOutputThread bytes s1 (fun _ => 1000)).1 in
  let s3 := (_eventThreadLoop bytes s2 (fun _ => Connected 9%nat)).1.1 in
  let s := closeConnection bytes (stop_until_join bytes s3) 1 in
  exists s',
    _handleEventToFireWakePipe bytes s 1000 = Raise s' MessageBusLoopExit /\
    _eventQueue bytes s'
    = _eventQueue bytes s
      ++ map QEvent [OutgoingConnectionEstablished 1] ++ [QEvent Stopped] /\
    _eventsToFireQueue bytes s' = [FireTriggerDisconnect 1].
Proof.
  intros s1 s2 s3 s.
  apply (Stopped_is_the_last_event_fired bytes s
           [OutgoingConnectionEstablished 1] [FireTriggerDisconnect 1] 1000).
  - repeat constructor. discriminate.
  - vm_compute. reflexivity.
  - vm_compute. lia.
Defined.

Lemma closeConnection_of_pending_is_postponed_witness :
  let s := Sample.connecting None in
  let retry := RescheduleDisconnect (_lambdaCounter bytes s) 1 in
  exists s1,
    _handleEventToFire bytes (closeConnection bytes s 1) 1000 = Ok s1 tt /\
    _eventsToFireQueue bytes s1 = [] /\
    _eventQueue bytes s1 = _eventQueue bytes s /\
    (1000 + DISCONNECT_RETRY_DELAY, retry) ∈ _pendingTimedCallbacks bytes s1 /\
    _connIdPendingOutgoingConnection bytes s1
    = _connIdPendingOutgoingConnection bytes s /\
    _connIdToOutgoingEndpoint bytes s1 = _connIdToOutgoingEndpoint bytes s /\
    forall s2 handled,
      _eventsToFireQueue bytes
        (eventThread_run bytes (fun _ => ConnectException)
           [QCallback retry] s2 handled).1.1
      = _eventsToFireQueue bytes s2 ++ [FireTriggerDisconnect 1].
Proof.
  intros s.
  apply (closeConnection_of_pending_is_postponed bytes s 1 1000
           (fun _ => ConnectException)); by_computation.
Defined.

Lemma token_frame_precedes_message_witness :
  let s := Sample.client (Some [84]) in
  let connId := _connectionIdCounter bytes s + 1 in
  let s1 := state_of (connect bytes s Sample.peer) in
  let s2 := state_of (sendMessage bytes Sample.serialize s1 connId [x61]) in
  exists s3 s4,
    _handleMessageToSendWakePipe bytes s2 1000 = Ok s3 tt /\
    (1000, ConnectTo (_lambdaCounter bytes s) connId)
      ∈ _pendingTimedCallbacks bytes s3 /\
    _connectTo bytes s3 connId (Connected 9%nat) = Ok s4 true /\
    default [] (_socketToBytesNeedingWrite bytes s4 !! 9%nat)
    = default [] (_socketToBytesNeedingWrite bytes s !! 9%nat)
      ++ Sample.frame [x54] ++ Sample.frame [x61].
Proof.
  intros s.
  apply (token_frame_precedes_message bytes Sample.serialize s Sample.peer
           [x61] [84] x54 x61 [] [] (Sample.frame [x54]) (Sample.frame [x61])
           9%nat 1000); by_computation.
Defined.

End MessageBusFacts.
